(** * Aadhaar Friction Index: the pipeline of [src/src] embedded in Rocq

    The Python sources compute with IEEE-754 binary64 numbers (Python [float],
    numpy [float64]); they are embedded as Rocq's primitive [float], whose
    operations are the same binary64 operations, so that NaN, signed zeros,
    infinities and rounding behave as they do when the code runs.

    A pandas [DataFrame] whose columns are fixed by the code is a list of
    records; a table whose numeric columns are discovered at run time
    ([numeric_cols], [bio_update_cols], ...) keeps the column names next to
    the rows.  An exception is a value of [exn] and a function that can raise
    returns a [result]. *)

From Stdlib Require Import Floats ZArith List String Ascii Bool Lia.
From Stdlib Require Import Sorting.Permutation Sorting.Sorted.
Import ListNotations.

Set Warnings "-inexact-float".

Local Open Scope string_scope.
Local Open Scope Z_scope.

(** ** Exceptions and results *)

Inductive exn : Type :=
| ValueError_weights (weight_sum : float)   (* "Weights must sum to 1.0, got {weight_sum}" *)
| ValueError_negative (col : string)        (* "Negative values found in {col}" *)
| KeyError (key : string)                   (* a dict or column lookup that fails *)
| IntCastingNaNError                        (* astype(int) on a column holding NaN *)
| DateParseError (text : string).           (* pd.to_datetime on an unreadable value *)

Inductive result (A : Type) : Type :=
| Ok (a : A)
| Raise (e : exn).

Arguments Ok {A} a.
Arguments Raise {A} e.

Definition bind {A B : Type} (r : result A) (k : A -> result B) : result B :=
  match r with
  | Ok a => k a
  | Raise e => Raise e
  end.

Notation "x <- r ;; k" := (bind r (fun x => k))
  (at level 61, r at next level, right associativity).

Fixpoint mapM {A B : Type} (f : A -> result B) (l : list A) : result (list B) :=
  match l with
  | [] => Ok []
  | a :: t => b <- f a ;; bs <- mapM f t ;; Ok (b :: bs)
  end.

(** A float that is not NaN. *)
Definition defined (x : float) : Prop := PrimFloat.is_nan x = false.

(** ** Series reductions of pandas and numpy used by the code *)

Module pd.

(** [Series.min()] with the default [skipna=True]: NaN entries are skipped,
    and the minimum of an empty or all-NaN series is NaN. *)
Definition min_step (acc x : float) : float :=
  if PrimFloat.is_nan x then acc
  else if PrimFloat.is_nan acc then x
  else if (x <? acc)%float then x else acc.

Definition series_min (s : list float) : float := fold_left min_step s nan.

(** [Series.max()], likewise. *)
Definition max_step (acc x : float) : float :=
  if PrimFloat.is_nan x then acc
  else if PrimFloat.is_nan acc then x
  else if (acc <? x)%float then x else acc.

Definition series_max (s : list float) : float := fold_left max_step s nan.

(** [series.fillna(v)]. *)
Definition fillna (v : float) (s : list float) : list float :=
  map (fun x => if PrimFloat.is_nan x then v else x) s.

(** [(series < 0).any()]. *)
Definition any_negative (s : list float) : bool :=
  existsb (fun x => (x <? 0)%float) s.

(** Ranking.  [Series.rank(ascending=False, method='min')] orders the values
    that are not NaN from the greatest to the least, numbers the positions
    from 1, and gives every value the lowest position of its group of ties;
    a NaN entry keeps a NaN rank ([na_option='keep']), here [None]. *)
Fixpoint insert_desc (x : float) (l : list float) : list float :=
  match l with
  | [] => [x]
  | y :: t => if (y <? x)%float then x :: y :: t else y :: insert_desc x t
  end.

Definition sort_desc (l : list float) : list float := fold_right insert_desc [] l.

Definition dropna (s : list float) : list float :=
  filter (fun x => negb (PrimFloat.is_nan x)) s.

(** The first position, counted from [i], of a value equal to [x]. *)
Fixpoint first_pos (x : float) (l : list float) (i : Z) : option Z :=
  match l with
  | [] => None
  | y :: t => if (y =? x)%float then Some i else first_pos x t (i + 1)
  end.

(** The last position, counted from [i], of a value equal to [x]. *)
Fixpoint last_pos (x : float) (l : list float) (i : Z) : option Z :=
  match l with
  | [] => None
  | y :: t =>
      match last_pos x t (i + 1) with
      | Some j => Some j
      | None => if (y =? x)%float then Some i else None
      end
  end.

Definition rank_min_desc_in (population : list float) (x : float) : option Z :=
  first_pos x (sort_desc (dropna population)) 1.

Definition rank_min_desc (s : list float) : list (option Z) :=
  map (rank_min_desc_in s) s.

(** [astype(int)] on a float column of ranks: a NaN cannot be cast. *)
Definition astype_int (s : list (option Z)) : result (list Z) :=
  mapM (fun r => match r with Some z => Ok z | None => Raise IntCastingNaNError end) s.

Definition float_of_Z (z : Z) : float := PrimFloat.of_uint63 (Uint63.of_Z z).

(** [Series.rank(pct=True, ascending=False)]: the default method averages the
    positions of a group of ties, and [pct] divides by the number of values
    that are not NaN. *)
Definition rank_pct_desc_in (population : list float) (x : float) : float :=
  let sorted := sort_desc (dropna population) in
  match first_pos x sorted 1, last_pos x sorted 1 with
  | Some a, Some b =>
      ((float_of_Z a + float_of_Z b) / 2 / float_of_Z (Z.of_nat (List.length sorted)))%float
  | _, _ => nan
  end.

End pd.

Module np.

Definition is_finite (x : float) : bool :=
  negb (PrimFloat.is_nan x) && negb (PrimFloat.is_infinity x).

(** [np.isclose(a, b)] with its defaults [rtol=1e-05], [atol=1e-08],
    [equal_nan=False]: [|a - b| <= atol + rtol * |b|] for a finite [b], and
    equality otherwise. *)
Definition rtol : float := 1e-05%float.
Definition atol : float := 1e-08%float.

Definition isclose (a b : float) : bool :=
  ((PrimFloat.abs (a - b) <=? atol + rtol * PrimFloat.abs b)%float && is_finite b)
  || (a =? b)%float.

End np.

(** ** utils.py *)

Module utils.

(** [normalize_column(series, min_val=0, max_val=100)]. *)
Definition normalize_column (series : list float) (min_val max_val : float) : list float :=
  let series_min := pd.series_min series in
  let series_max := pd.series_max series in
  if (series_max =? series_min)%float then
    map (fun _ => min_val) series
  else
    map (fun x =>
           (min_val + (x - series_min) * (max_val - min_val) / (series_max - series_min))%float)
        series.

(** [calculate_percentile_rank(df, column, ascending=False)]. *)
Definition calculate_percentile_rank (column : list float) : list float :=
  map (fun x => (pd.rank_pct_desc_in column x * 100)%float) column.

End utils.

(** ** index.py *)

Module index.

(** A Python [dict] from component names to weights, in insertion order:
    [sum(weights.values())] adds the values in that order. *)
Definition Weights : Type := list (string * float).

Definition WEIGHTS : Weights :=
  [ ("UIS", 0.30%float); ("RIS", 0.25%float); ("BSS", 0.25%float); ("TSD", 0.20%float) ].

Fixpoint dict_get (d : Weights) (k : string) : result float :=
  match d with
  | [] => Raise (KeyError k)
  | (k', v) :: t => if String.eqb k' k then Ok v else dict_get t k
  end.

Definition dict_values (d : Weights) : list float := map snd d.

(** Python's [sum]: left to right, from [0]. *)
Definition py_sum (l : list float) : float :=
  fold_left (fun acc x => (acc + x)%float) l 0%float.

(** The signals table: the key and the four signals. *)
Record SignalRow : Type := mkSignalRow {
  state : string;
  district : string;
  period : string;
  UIS : float;
  RIS : float;
  BSS : float;
  TSD : float
}.

Record RawRow : Type := mkRawRow {
  raw_signals : SignalRow;
  AFI_raw : float
}.

Record AfiRow : Type := mkAfiRow {
  afi_raw_row : RawRow;
  AFI : float
}.

Record RankedRow : Type := mkRankedRow {
  ranked_afi_row : AfiRow;
  national_rank : Z;
  state_rank : Z;
  national_percentile : float
}.

Record IndexRow : Type := mkIndexRow {
  index_ranked_row : RankedRow;
  friction_category : string
}.

Definition afi_state (r : AfiRow) : string := state (raw_signals (afi_raw_row r)).

(** [validate_signals]: the columns are there by typing; a negative signal
    value raises. *)
Definition validate_signals (df : list SignalRow) : result bool :=
  if pd.any_negative (map UIS df) then Raise (ValueError_negative "UIS")
  else if pd.any_negative (map RIS df) then Raise (ValueError_negative "RIS")
  else if pd.any_negative (map BSS df) then Raise (ValueError_negative "BSS")
  else if pd.any_negative (map TSD df) then Raise (ValueError_negative "TSD")
  else Ok true.

(** [calculate_afi_raw(df, weights=WEIGHTS)]. *)
Definition calculate_afi_raw (df : list SignalRow) (weights : Weights)
  : result (list RawRow) :=
  let weight_sum := py_sum (dict_values weights) in
  if negb (np.isclose weight_sum 1.0%float) then
    Raise (ValueError_weights weight_sum)
  else
    w_uis <- dict_get weights "UIS" ;;
    w_ris <- dict_get weights "RIS" ;;
    w_bss <- dict_get weights "BSS" ;;
    w_tsd <- dict_get weights "TSD" ;;
    Ok (map (fun r =>
               mkRawRow r (w_uis * UIS r + w_ris * RIS r + w_bss * BSS r + w_tsd * TSD r)%float)
            df).

(** [normalize_afi(df)]: [AFI = 100 * (AFI_raw - min) / (max - min)]. *)
Definition normalize_afi (df : list RawRow) : list AfiRow :=
  let afi_min := pd.series_min (map AFI_raw df) in
  let afi_max := pd.series_max (map AFI_raw df) in
  map (fun r => mkAfiRow r (100 * (AFI_raw r - afi_min) / (afi_max - afi_min))%float) df.

(** The rows of the group of [groupby('state')] a row belongs to. *)
Definition state_group (df : list AfiRow) (r : AfiRow) : list AfiRow :=
  filter (fun r' => String.eqb (afi_state r') (afi_state r)) df.

(** [add_rankings(df)]. *)
Definition add_rankings (df : list AfiRow) : result (list RankedRow) :=
  national <- pd.astype_int (pd.rank_min_desc (map AFI df)) ;;
  by_state <- pd.astype_int
                (map (fun r => pd.rank_min_desc_in (map AFI (state_group df r)) (AFI r)) df) ;;
  let percentile := utils.calculate_percentile_rank (map AFI df) in
  Ok (map (fun '(r, (n, (s, p))) => mkRankedRow r n s p)
          (combine df (combine national (combine by_state percentile)))).

(** The local function [categorize_afi] of [add_categories]. *)
Definition categorize_afi (score : float) : string :=
  if (score <? 20)%float then "Very Low Friction"
  else if (score <? 40)%float then "Low Friction"
  else if (score <? 60)%float then "Moderate Friction"
  else if (score <? 80)%float then "High Friction"
  else "Very High Friction".

(** [df['AFI'].apply(categorize_afi)]. *)
Definition apply_categorize_afi (afi : list float) : list string := map categorize_afi afi.

(** [add_categories(df)]. *)
Definition add_categories (df : list RankedRow) : list IndexRow :=
  map (fun '(r, c) => mkIndexRow r c)
      (combine df (apply_categorize_afi (map (fun r => AFI (ranked_afi_row r)) df))).

End index.


(** ** Python string methods, on ASCII text

    A Rocq [string] is a sequence of bytes; the methods below are the Python
    ones on strings whose characters are ASCII (a byte above 127 is kept as
    it is: it is neither a letter nor white space here). *)

Module str.

Definition code (c : ascii) : N := N_of_ascii c.

(** [str.isspace] of one character: TAB..CR, FS..US and the space. *)
Definition isspace (c : ascii) : bool :=
  ((9 <=? code c) && (code c <=? 13) || (28 <=? code c) && (code c <=? 32))%N.

Definition isupper (c : ascii) : bool := ((65 <=? code c) && (code c <=? 90))%N.
Definition islower (c : ascii) : bool := ((97 <=? code c) && (code c <=? 122))%N.
Definition iscased (c : ascii) : bool := isupper c || islower c.

Definition lower_char (c : ascii) : ascii :=
  if isupper c then ascii_of_N (code c + 32) else c.

Definition upper_char (c : ascii) : ascii :=
  if islower c then ascii_of_N (code c - 32) else c.

Fixpoint map_chars (f : ascii -> ascii) (s : string) : string :=
  match s with
  | EmptyString => EmptyString
  | String c t => String (f c) (map_chars f t)
  end.

(** [s.lower()]. *)
Definition lower (s : string) : string := map_chars lower_char s.

(** [s.lstrip()], [s.rstrip()], [s.strip()]. *)
Fixpoint lstrip (s : string) : string :=
  match s with
  | EmptyString => EmptyString
  | String c t => if isspace c then lstrip t else s
  end.

Definition is_empty (s : string) : bool :=
  match s with EmptyString => true | String _ _ => false end.

Fixpoint rstrip (s : string) : string :=
  match s with
  | EmptyString => EmptyString
  | String c t =>
      let t' := rstrip t in
      if isspace c && is_empty t' then EmptyString else String c t'
  end.

Definition strip (s : string) : string := rstrip (lstrip s).

(** [s.replace(' ', '_')]. *)
Definition underscore (c : ascii) : ascii := if Ascii.eqb c " " then "_"%char else c.

Definition replace_space (s : string) : string := map_chars underscore s.

(** [s.title()]: a cased character is upper-cased after an uncased one (or
    at the start) and lower-cased after a cased one. *)
Fixpoint title_from (previous_is_cased : bool) (s : string) : string :=
  match s with
  | EmptyString => EmptyString
  | String c t =>
      if iscased c then
        String (if previous_is_cased then lower_char c else upper_char c) (title_from true t)
      else String c (title_from false t)
  end.

Definition title (s : string) : string := title_from false s.

(** [s.endswith(suffix)]. *)
Definition endswith (s suffix : string) : bool :=
  let n := String.length s in
  let k := String.length suffix in
  (k <=? n)%nat && String.eqb (String.substring (n - k) k s) suffix.

(** [sub in s]. *)
Fixpoint contains (s sub : string) : bool :=
  String.prefix sub s ||
  match s with
  | EmptyString => false
  | String _ t => contains t sub
  end.

End str.

(** ** Dates: [pd.to_datetime(col).dt.strftime('%Y-%m')]

    The period column is read in its ISO spellings, [YYYY-MM] and
    [YYYY-MM-DD], for the years 1678 to 2261, all of whose days a pandas
    Timestamp can hold; any other text raises.  (pandas reads further
    spellings; they are outside this model.) *)

Module dt.

Definition digit (c : ascii) : option Z :=
  let n := Z.of_N (N_of_ascii c) in
  if (48 <=? n) && (n <=? 57) then Some (n - 48) else None.

Definition two_digits (a b : ascii) : option Z :=
  match digit a, digit b with
  | Some x, Some y => Some (10 * x + y)
  | _, _ => None
  end.

Definition four_digits (a b c d : ascii) : option Z :=
  match two_digits a b, two_digits c d with
  | Some x, Some y => Some (100 * x + y)
  | _, _ => None
  end.

Definition is_leap (y : Z) : bool :=
  ((y mod 4 =? 0) && negb (y mod 100 =? 0)) || (y mod 400 =? 0).

Definition days_in_month (y m : Z) : Z :=
  if m =? 2 then (if is_leap y then 29 else 28)
  else if (m =? 4) || (m =? 6) || (m =? 9) || (m =? 11) then 30
  else 31.

Definition valid_year_month (y m : Z) : bool :=
  (1678 <=? y) && (y <=? 2261) && (1 <=? m) && (m <=? 12).

(** The year and the month of an ISO date. *)
Definition to_datetime (s : string) : option (Z * Z) :=
  match s with
  | String y1 (String y2 (String y3 (String y4 (String sep (String m1 (String m2 rest)))))) =>
      match four_digits y1 y2 y3 y4, two_digits m1 m2 with
      | Some y, Some m =>
          if Ascii.eqb sep "-" && valid_year_month y m then
            match rest with
            | EmptyString => Some (y, m)
            | String sep2 (String d1 (String d2 EmptyString)) =>
                match two_digits d1 d2 with
                | Some d =>
                    if Ascii.eqb sep2 "-" && (1 <=? d) && (d <=? days_in_month y m)
                    then Some (y, m) else None
                | None => None
                end
            | _ => None
            end
          else None
      | _, _ => None
      end
  | _ => None
  end.

Definition digit_char (n : Z) : ascii := ascii_of_N (Z.to_N (48 + n)).

(** [strftime('%Y-%m')]. *)
Definition strftime_Ym (y m : Z) : string :=
  String (digit_char (y / 1000))
    (String (digit_char (y / 100 mod 10))
      (String (digit_char (y / 10 mod 10))
        (String (digit_char (y mod 10))
          (String "-"
            (String (digit_char (m / 10))
              (String (digit_char (m mod 10)) EmptyString)))))).

Definition normalize_period (s : string) : result string :=
  match to_datetime s with
  | Some (y, m) => Ok (strftime_Ym y m)
  | None => Raise (DateParseError s)
  end.

End dt.

(** ** More reductions of pandas *)

Module pdx.

Fixpoint insert_asc (x : float) (l : list float) : list float :=
  match l with
  | [] => [x]
  | y :: t => if (x <? y)%float then x :: y :: t else y :: insert_asc x t
  end.

Definition sort_asc (l : list float) : list float := fold_right insert_asc [] l.

(** [Series.median()]: NaN skipped; the middle value, or the mean of the two
    middle values. *)
Definition median (s : list float) : float :=
  let v := sort_asc (pd.dropna s) in
  let n := List.length v in
  match n with
  | O => nan
  | _ =>
      if Nat.even n
      then ((nth (n / 2 - 1) v nan + nth (n / 2) v nan) / 2)%float
      else nth (n / 2) v nan
  end.

(** [Series.quantile(q)] for [q = q_num / q_den], with the documented linear
    interpolation: at position [h = (n - 1) * q] of the sorted values that are
    not NaN, [lo + (hi - lo) * fraction] for the neighbours [lo], [hi] of [h]
    and the fractional part of [h]. *)
Definition quantile (q_num q_den : Z) (s : list float) : float :=
  let v := sort_asc (pd.dropna s) in
  match v with
  | [] => nan
  | _ =>
      let n := Z.of_nat (List.length v) in
      let h_num := (n - 1) * q_num in
      let i := h_num / q_den in
      let fraction := (pd.float_of_Z (h_num mod q_den) / pd.float_of_Z q_den)%float in
      let lo := nth (Z.to_nat i) v nan in
      let hi := nth (Z.to_nat (Z.min (i + 1) (n - 1))) v nan in
      (lo + (hi - lo) * fraction)%float
  end.

(** [(series > threshold)], [series.clip(lower=0)]. *)
Definition clip_lower_0 (s : list float) : list float :=
  map (fun v => if (v <? 0)%float then 0%float else v) s.

End pdx.

(** ** Tables keyed by state, district and period

    The three key columns are fields of the rows' keys; the other columns,
    which the code treats as numeric whatever their names, are kept by name,
    each with one value per row (NaN for a missing one). *)

Module frame.

Record Key : Type := mkKey {
  state : string;
  district : string;
  period : string
}.

Definition key_eqb (a b : Key) : bool :=
  String.eqb (state a) (state b) && String.eqb (district a) (district b)
  && String.eqb (period a) (period b).

Record DataFrame : Type := mkDataFrame {
  keys : list Key;
  data : list (string * list float)
}.

Definition nrows (df : DataFrame) : nat := List.length (keys df).

(** Every column has one entry per row. *)
Definition well_formed (df : DataFrame) : Prop :=
  Forall (fun c => List.length (snd c) = nrows df) (data df).

(** The rows: each key with its cells. *)
Definition cells_at (df : DataFrame) (i : nat) : list float :=
  map (fun c => nth i (snd c) nan) (data df).

Definition rows (df : DataFrame) : list (Key * list float) :=
  map (fun '(i, k) => (k, cells_at df i)) (combine (seq 0 (nrows df)) (keys df)).

(** Two cells hold the same value for [duplicated]: equal numbers, or both
    missing. *)
Definition cell_eqb (x y : float) : bool :=
  (x =? y)%float || (PrimFloat.is_nan x && PrimFloat.is_nan y).

Fixpoint cells_eqb (a b : list float) : bool :=
  match a, b with
  | [], [] => true
  | x :: a', y :: b' => cell_eqb x y && cells_eqb a' b'
  | _, _ => false
  end.

Definition row_eqb (a b : Key * list float) : bool :=
  key_eqb (fst a) (fst b) && cells_eqb (snd a) (snd b).

(** [df.duplicated()]: a row is a duplicate when an earlier row equals it. *)
Fixpoint duplicated_from (seen rest : list (Key * list float)) : list bool :=
  match rest with
  | [] => []
  | r :: t => existsb (row_eqb r) seen :: duplicated_from (seen ++ [r]) t
  end.

Definition duplicated (df : DataFrame) : list bool := duplicated_from [] (rows df).

(** The entries of a column at the rows that are kept. *)
Fixpoint select {A : Type} (keep : list bool) (l : list A) : list A :=
  match keep, l with
  | b :: keep', x :: l' => if b then x :: select keep' l' else select keep' l'
  | _, _ => []
  end.

(** [df.drop_duplicates()]. *)
Definition drop_duplicates (df : DataFrame) : DataFrame :=
  let keep := map negb (duplicated df) in
  mkDataFrame (select keep (keys df))
              (map (fun c => (fst c, select keep (snd c))) (data df)).

(** Apply a function to every numeric column, given the keys. *)
Definition map_columns (f : list Key -> list float -> list float) (df : DataFrame)
  : DataFrame :=
  mkDataFrame (keys df) (map (fun c => (fst c, f (keys df) (snd c))) (data df)).

End frame.

(** ** preprocessing.py *)

Module preprocessing.

Import frame.

(** The column names: [df.columns.str.lower().str.strip().str.replace(' ', '_')]. *)
Definition normalize_column_name (name : string) : string :=
  str.replace_space (str.strip (str.lower name)).

(** [df['state'].str.strip().str.title()], and the same for the district. *)
Definition clean_name (s : string) : string := str.title (str.strip s).

Definition clean_key (k : Key) : result Key :=
  p <- dt.normalize_period (period k) ;;
  Ok (mkKey (clean_name (state k)) (clean_name (district k)) p).

(** [clean_common_columns(df)]. *)
Definition clean_common_columns (df : DataFrame) : result DataFrame :=
  ks <- mapM clean_key (keys df) ;;
  Ok (drop_duplicates
        (mkDataFrame ks (map (fun c => (normalize_column_name (fst c), snd c)) (data df)))).

(** The values of a column in the rows of the group of [groupby(['state',
    'district'])] that the row with key [k] belongs to. *)
Definition group_values (ks : list Key) (col : list float) (k : Key) : list float :=
  map snd (filter (fun kv => String.eqb (state (fst kv)) (state k)
                             && String.eqb (district (fst kv)) (district k))
                  (combine ks col)).

(** The body of the imputation loop for one column. *)
Definition impute_column (ks : list Key) (col : list float) : list float :=
  if existsb PrimFloat.is_nan col then
    let by_group :=
      map (fun kv => if PrimFloat.is_nan (snd kv)
                     then pdx.median (group_values ks col (fst kv))
                     else snd kv)
          (combine ks col) in
    pd.fillna (pdx.median by_group) by_group
  else col.

(** The negative values of a column are replaced by 0. *)
Definition clip_column (col : list float) : list float :=
  if pd.any_negative col then pdx.clip_lower_0 col else col.

(** The values above the 99th percentile of a column are replaced by it. *)
Definition cap_column (col : list float) : list float :=
  let threshold := pdx.quantile 99 100 col in
  if existsb (fun v => (threshold <? v)%float) col
  then map (fun v => if (threshold <? v)%float then threshold else v) col
  else col.

(** The table after imputation and clipping, before the cap. *)
Definition imputed_clipped (df : DataFrame) : DataFrame :=
  map_columns (fun _ => clip_column) (map_columns impute_column df).

(** [preprocess_biometric]: three loops over the numeric columns. *)
Definition preprocess_biometric (raw : DataFrame) : result DataFrame :=
  df <- clean_common_columns raw ;;
  let df := map_columns impute_column df in
  let df := map_columns (fun _ => clip_column) df in
  let df := map_columns (fun _ => cap_column) df in
  Ok df.

(** [preprocess_demographic]: the imputation loop, then one loop that clips
    and caps each column. *)
Definition preprocess_demographic (raw : DataFrame) : result DataFrame :=
  df <- clean_common_columns raw ;;
  let df := map_columns impute_column df in
  let df := map_columns (fun _ col => cap_column (clip_column col)) df in
  Ok df.

(** [preprocess_enrolment]: as [preprocess_demographic]. *)
Definition preprocess_enrolment (raw : DataFrame) : result DataFrame :=
  df <- clean_common_columns raw ;;
  let df := map_columns impute_column df in
  let df := map_columns (fun _ col => cap_column (clip_column col)) df in
  Ok df.

End preprocessing.

(** ** signal.py *)

Module signal.

Import frame.

(** A table as the merges handle it: the names of the columns that are not
    keys, and the rows. *)
Record Table : Type := mkTable {
  names : list string;
  trows : list (Key * list float)
}.

Definition of_frame (df : DataFrame) : Table :=
  mkTable (map fst (data df)) (rows df).

Definition width (t : Table) : nat := List.length (names t).

Definition table_keys (t : Table) : list Key := map fst (trows t).

Definition key_eq_dec (a b : Key) : {a = b} + {a <> b}.
Proof. decide equality; apply string_dec. Defined.

(** The order of the key tuples: state, then district, then period. *)
Definition key_ltb (a b : Key) : bool :=
  match String.compare (state a) (state b) with
  | Lt => true
  | Gt => false
  | Eq =>
      match String.compare (district a) (district b) with
      | Lt => true
      | Gt => false
      | Eq =>
          match String.compare (period a) (period b) with
          | Lt => true
          | _ => false
          end
      end
  end.

Fixpoint insert_key (k : Key) (l : list Key) : list Key :=
  match l with
  | [] => [k]
  | k' :: t => if key_ltb k k' then k :: k' :: t else k' :: insert_key k t
  end.

Definition sort_keys (l : list Key) : list Key := fold_right insert_key [] l.

(** The cells that a table contributes to the merged rows of a key: those of
    its rows with that key, or one run of missing values when it has none. *)
Definition cells_for (t : Table) (k : Key) : list (list float) :=
  match filter (fun r => key_eqb (fst r) k) (trows t) with
  | [] => [repeat nan (width t)]
  | matching => map snd matching
  end.

(** The names after a merge: a name that both tables use gets the suffix of
    its side. *)
Definition in_names (n : string) (l : list string) : bool :=
  existsb (String.eqb n) l.

Definition suffixed (own other : list string) (suffix : string) : list string :=
  map (fun n => if in_names n other then (n ++ suffix)%string else n) own.

(** [pd.merge(left, right, on=['state', 'district', 'period'], how='outer',
    suffixes=(suffix_l, suffix_r))]: the keys of both tables in order, and for
    each key every pairing of a left row with a right row. *)
Definition merge (left right : Table) (suffix_l suffix_r : string) : Table :=
  mkTable
    (suffixed (names left) (names right) suffix_l
       ++ suffixed (names right) (names left) suffix_r)
    (flat_map
       (fun k =>
          flat_map (fun lc => map (fun rc => (k, (lc ++ rc)%list)) (cells_for right k))
                   (cells_for left k))
       (sort_keys (nodup key_eq_dec (table_keys left ++ table_keys right)))).

(** [df[name] = values]: the column is replaced when its name is in use and
    added at the end otherwise. *)
Definition set_cell (ns : list string) (name : string) (cells : list float) (v : float)
  : list float :=
  if in_names name ns
  then map (fun nc => if String.eqb (fst nc) name then v else snd nc) (combine ns cells)
  else (cells ++ [v])%list.

Definition assign (t : Table) (name : string) (values : list float) : Table :=
  mkTable
    (if in_names name (names t) then names t else (names t ++ [name])%list)
    (map (fun rv => (fst (fst rv), set_cell (names t) name (snd (fst rv)) (snd rv)))
         (combine (trows t) values)).

(** The cells of a row in the columns whose names are chosen. *)
Definition chosen_cells (ns : list string) (choose : string -> bool) (cells : list float)
  : list float :=
  map snd (filter (fun nc => choose (fst nc)) (combine ns cells)).

(** The reductions along a row, missing values skipped. *)
Definition row_sum (cells : list float) : float :=
  fold_left (fun acc x => if PrimFloat.is_nan x then acc else (acc + x)%float) cells 0%float.

Definition row_max (cells : list float) : float := pd.series_max cells.

(** The variance with [ddof=1]: NaN for fewer than two values. *)
Definition row_var (cells : list float) : float :=
  let v := pd.dropna cells in
  let n := List.length v in
  if (n <=? 1)%nat then nan
  else
    let avg := (row_sum v / pd.float_of_Z (Z.of_nat n))%float in
    (row_sum (map (fun x => ((avg - x) * (avg - x))%float) v)
       / pd.float_of_Z (Z.of_nat n - 1))%float.

Definition row_std (cells : list float) : float := PrimFloat.sqrt (row_var cells).

Definition row_mean (cells : list float) : float :=
  let v := pd.dropna cells in
  match v with
  | [] => nan
  | _ => (row_sum v / pd.float_of_Z (Z.of_nat (List.length v)))%float
  end.

(** A signal table: the key of each row and its score. *)
Definition Scores : Type := list (Key * float).

Definition scores_table (name : string) (s : Scores) : Table :=
  mkTable [name] (map (fun kv => (fst kv, [snd kv])) s).

(** The rows of [df[merge_keys + [name]]] after [df[name] =
    normalize_column(raw, 0, 100)]. *)
Definition normalized_scores (t : Table) (raw : list float) : Scores :=
  combine (table_keys t) (utils.normalize_column raw 0 100).

(** [calculate_uis(biometric_df, demographic_df)]. *)
Definition calculate_uis (biometric_df demographic_df : DataFrame) : Scores :=
  let bio := of_frame biometric_df in
  let demo := of_frame demographic_df in
  let df := merge bio demo "_bio" "_demo" in
  let bio_update_cols := names bio in
  let demo_update_cols := names demo in
  let bio_updates :=
    map (fun r => row_sum (chosen_cells (names df)
                    (fun col => str.endswith col "_bio" || in_names col bio_update_cols)
                    (snd r)))
        (trows df) in
  let df := assign df "bio_updates" bio_updates in
  let demo_updates :=
    map (fun r => row_sum (chosen_cells (names df)
                    (fun col => str.endswith col "_demo" || in_names col demo_update_cols)
                    (snd r)))
        (trows df) in
  let total_updates :=
    map (fun bd => (fst bd * 1.5 + snd bd)%float) (combine bio_updates demo_updates) in
  normalized_scores df total_updates.

Definition failure_keywords : list string := ["fail"; "retry"; "reject"; "error"; "repeat"].

Definition is_failure_column (col : string) : bool :=
  existsb (fun keyword => str.contains (str.lower col) keyword) failure_keywords.

(** [calculate_ris(biometric_df, demographic_df)]. *)
Definition calculate_ris (biometric_df demographic_df : DataFrame) : Scores :=
  let df := merge (of_frame biometric_df) (of_frame demographic_df) "_x" "_y" in
  let failure_cols := filter is_failure_column (names df) in
  let repeat_interactions :=
    match failure_cols with
    | [] => map (fun r => row_std (snd r)) (trows df)
    | _ => map (fun r => row_sum (chosen_cells (names df) is_failure_column (snd r)))
               (trows df)
    end in
  normalized_scores df repeat_interactions.

(** [calculate_bss(biometric_df)]. *)
Definition calculate_bss (biometric_df : DataFrame) : Scores :=
  let df := of_frame biometric_df in
  let bio_cols := names df in
  let pick := fun t r => chosen_cells (names t) (fun col => in_names col bio_cols) (snd r) in
  let total_bio_transactions := map (fun r => row_sum (pick df r)) (trows df) in
  let df := assign df "total_bio_transactions" total_bio_transactions in
  let bio_variance := map (fun r => row_var (pick df r)) (trows df) in
  let df := assign df "bio_variance" bio_variance in
  let bio_max := map (fun r => row_max (pick df r)) (trows df) in
  let bss_raw :=
    map (fun tvm => (fst (fst tvm) * 0.4 + snd (fst tvm) * 0.3 + snd tvm * 0.3)%float)
        (combine (combine total_bio_transactions bio_variance) bio_max) in
  normalized_scores df bss_raw.

(** [df.sort_values(merge_keys)]: a stable sort of the rows by key. *)
Fixpoint insert_row {A : Type} (r : Key * A) (l : list (Key * A)) : list (Key * A) :=
  match l with
  | [] => [r]
  | r' :: t => if key_ltb (fst r) (fst r') then r :: r' :: t else r' :: insert_row r t
  end.

Definition sort_rows {A : Type} (l : list (Key * A)) : list (Key * A) :=
  fold_right insert_row [] l.

Definition same_district (a b : Key) : bool :=
  String.eqb (state a) (state b) && String.eqb (district a) (district b).

(** The activity of the rows before a row, nearest first, and of all rows,
    within the group of [groupby(['state', 'district'])]. *)
Fixpoint temporal_terms (before after : list (Key * float)) (all : list (Key * float))
  : list float :=
  match after with
  | [] => []
  | (k, activity) :: rest =>
      let group := map snd (filter (fun r => same_district (fst r) k) all) in
      let group_mean := row_mean group in
      let deviation_from_mean := PrimFloat.abs (activity - group_mean) in
      let mom_change :=
        match filter (fun r => same_district (fst r) k) before with
        | [] => nan
        | (_, previous) :: _ => PrimFloat.abs (activity - previous)
        end in
      let group_std := row_std group in
      let coefficient_of_variation := (group_std / (group_mean + 1))%float in
      (deviation_from_mean * 0.4
       + (if PrimFloat.is_nan mom_change then 0 else mom_change) * 0.3
       + coefficient_of_variation * 0.3)%float
      :: temporal_terms ((k, activity) :: before) rest all
  end.

(** [calculate_tsd(biometric_df, demographic_df, enrolment_df)]. *)
Definition calculate_tsd (biometric_df demographic_df enrolment_df : DataFrame) : Scores :=
  let df := merge (of_frame biometric_df) (of_frame demographic_df) "_bio" "_demo" in
  let df := merge df (of_frame enrolment_df) "_x" "_y" in
  let total_activity := map (fun r => (fst r, row_sum (snd r))) (trows df) in
  let sorted := sort_rows total_activity in
  let tsd_raw := temporal_terms [] sorted sorted in
  combine (map fst sorted) (utils.normalize_column tsd_raw 0 100).

(** The row of the signals table made of a merged row. *)
Definition signal_row (r : Key * list float) : index.SignalRow :=
  let cell := fun i => let v := nth i (snd r) nan in if PrimFloat.is_nan v then 0%float else v in
  index.mkSignalRow (state (fst r)) (district (fst r)) (period (fst r))
                    (cell 0%nat) (cell 1%nat) (cell 2%nat) (cell 3%nat).

(** [calculate_all_signals(biometric_df, demographic_df, enrolment_df)]. *)
Definition calculate_all_signals (biometric_df demographic_df enrolment_df : DataFrame)
  : list index.SignalRow :=
  let uis_df := scores_table "UIS" (calculate_uis biometric_df demographic_df) in
  let ris_df := scores_table "RIS" (calculate_ris biometric_df demographic_df) in
  let bss_df := scores_table "BSS" (calculate_bss biometric_df) in
  let tsd_df := scores_table "TSD" (calculate_tsd biometric_df demographic_df enrolment_df) in
  let signals := merge uis_df ris_df "_x" "_y" in
  let signals := merge signals bss_df "_x" "_y" in
  let signals := merge signals tsd_df "_x" "_y" in
  map signal_row (trows signals).

End signal.
(** ** index.py: the whole calculation *)

Module pipeline.

Import index.

Definition afi_of (r : IndexRow) : float := AFI (ranked_afi_row (index_ranked_row r)).

Definition signals_of (r : IndexRow) : SignalRow :=
  raw_signals (afi_raw_row (ranked_afi_row (index_ranked_row r))).

(** [df.sort_values('AFI', ascending=False)]: the rows from the greatest AFI
    to the least, the rows without an AFI last.  (pandas does not fix the
    order in which its default sort leaves rows of equal AFI; they keep their
    order here.) *)
Fixpoint insert_by_afi (r : IndexRow) (l : list IndexRow) : list IndexRow :=
  match l with
  | [] => [r]
  | r' :: t =>
      if (afi_of r <? afi_of r')%float then r' :: insert_by_afi r t else r :: r' :: t
  end.

Definition sort_values_afi_desc (df : list IndexRow) : list IndexRow :=
  fold_right insert_by_afi [] (filter (fun r => negb (PrimFloat.is_nan (afi_of r))) df)
  ++ filter (fun r => PrimFloat.is_nan (afi_of r)) df.

(** [calculate_afi(signals_df, weights=WEIGHTS)], the table it returns: the
    validation, the four weights read for the message that is printed, the
    four steps and the final sort.  (The component analysis and the files
    written do not change the table.) *)
Definition calculate_afi (signals_df : list SignalRow) (weights : Weights)
  : result (list IndexRow) :=
  valid <- validate_signals signals_df ;;
  w_uis <- dict_get weights "UIS" ;;
  w_ris <- dict_get weights "RIS" ;;
  w_bss <- dict_get weights "BSS" ;;
  w_tsd <- dict_get weights "TSD" ;;
  df <- calculate_afi_raw signals_df weights ;;
  let df := normalize_afi df in
  df <- add_rankings df ;;
  let df := add_categories df in
  Ok (sort_values_afi_desc df).

(** The columns that [identify_top_friction_areas] keeps, in its order:
    state, district, period, AFI, UIS, RIS, BSS, TSD, national_rank,
    friction_category. *)
Definition TopArea : Type :=
  (string * string * string * float * float * float * float * float * Z * string)%type.

Definition top_columns (r : IndexRow) : TopArea :=
  let s := signals_of r in
  (state s, district s, period s, afi_of r, UIS s, RIS s, BSS s, TSD s,
   national_rank (index_ranked_row r), friction_category r).

(** [identify_top_friction_areas(df, top_n=10)]: [df.nlargest(top_n, 'AFI')],
    which is empty for [top_n <= 0] and otherwise the first [top_n] rows in
    the order from the greatest AFI, rows without an AFI last. *)
Definition identify_top_friction_areas (df : list IndexRow) (top_n : Z) : list TopArea :=
  if top_n <=? 0 then []
  else map top_columns (firstn (Z.to_nat top_n) (sort_values_afi_desc df)).

End pipeline.

(** ** utils.py: the checks on a table *)

Module checks.

Import frame.

(** The two [ValueError]s of these functions, with what their messages show. *)
Inductive ValueError : Type :=
| missing_required_columns (name : string) (missing_cols : list string)
| unknown_method (method : string).

(** [df.columns] of a table with its three key columns. *)
Definition columns (df : DataFrame) : list string :=
  ["state"; "district"; "period"] ++ map fst (data df).

(** [validate_dataframe(df, required_columns, name)], on [df.columns]:
    [set(required_columns) - set(df.columns)] must be empty. *)
Definition validate_dataframe (df_columns required_columns : list string) (name : string)
  : ValueError + bool :=
  let missing_cols :=
    filter (fun c => negb (signal.in_names c df_columns))
           (nodup string_dec required_columns) in
  match missing_cols with
  | [] => inr true
  | _ => inl (missing_required_columns name missing_cols)
  end.

(** [check_missing_values(df, name)]: the dictionary it returns. *)
Record MissingReport : Type := mkMissingReport {
  total_missing : Z;
  columns_with_missing : Z;
  details : list (string * Z * float)      (* Column, Missing, Percentage *)
}.

(** [df.isnull().sum()]: a key column holds no missing value here. *)
Definition isnull_sum (df : DataFrame) : list (string * Z) :=
  [("state", 0); ("district", 0); ("period", 0)]
  ++ map (fun c => (fst c, Z.of_nat (List.length (filter PrimFloat.is_nan (snd c)))))
         (data df).

(** [sort_values('Missing', ascending=False)], rows of equal count kept in
    their order. *)
Fixpoint insert_by_missing (r : string * Z * float) (l : list (string * Z * float))
  : list (string * Z * float) :=
  match l with
  | [] => [r]
  | r' :: t =>
      if snd (fst r) <? snd (fst r') then r' :: insert_by_missing r t else r :: r' :: t
  end.

Definition check_missing_values (df : DataFrame) : MissingReport :=
  let missing := isnull_sum df in
  let n := Z.of_nat (nrows df) in
  let missing_df :=
    map (fun cm => (fst cm, snd cm,
                    (pd.float_of_Z (snd cm) / pd.float_of_Z n * 100)%float))
        missing in
  let missing_df :=
    fold_right insert_by_missing [] (filter (fun r => 0 <? snd (fst r)) missing_df) in
  mkMissingReport (fold_left Z.add (map snd missing) 0)
                  (Z.of_nat (List.length missing_df))
                  missing_df.

(** [detect_outliers(series, method='iqr', threshold=1.5)].  The mean and the
    standard deviation are taken over the values that are present, added up
    from the first to the last. *)
Definition detect_outliers (series : list float) (method : string) (threshold : float)
  : ValueError + list bool :=
  if String.eqb method "iqr" then
    let Q1 := pdx.quantile 1 4 series in
    let Q3 := pdx.quantile 3 4 series in
    let IQR := (Q3 - Q1)%float in
    let lower_bound := (Q1 - threshold * IQR)%float in
    let upper_bound := (Q3 + threshold * IQR)%float in
    inr (map (fun x => (x <? lower_bound)%float || (upper_bound <? x)%float) series)
  else if String.eqb method "zscore" then
    let mean := signal.row_mean series in
    let std := signal.row_std series in
    inr (map (fun x => (threshold <? PrimFloat.abs ((x - mean) / std))%float) series)
  else inl (unknown_method method).

End checks.

(** ** preprocessing.py: the three datasets together *)

Module datasets.

Import frame signal.

(** [merge_datasets(biometric_df, demographic_df, enrolment_df)]: the three
    validations of the key columns, then the two outer merges. *)
Definition merge_datasets (biometric_df demographic_df enrolment_df : DataFrame)
  : checks.ValueError + Table :=
  let merge_keys := ["state"; "district"; "period"] in
  match checks.validate_dataframe (checks.columns biometric_df) merge_keys "Biometric" with
  | inl e => inl e
  | inr _ =>
  match checks.validate_dataframe (checks.columns demographic_df) merge_keys "Demographic" with
  | inl e => inl e
  | inr _ =>
  match checks.validate_dataframe (checks.columns enrolment_df) merge_keys "Enrolment" with
  | inl e => inl e
  | inr _ =>
      let merged := merge (of_frame biometric_df) (of_frame demographic_df) "_bio" "_demo" in
      inr (merge merged (of_frame enrolment_df) "" "_enrol")
  end end end.

(** [preprocess_all]: the three cleaned datasets, the biometric one first. *)
Definition preprocess_all (biometric demographic enrolment : DataFrame)
  : result (DataFrame * DataFrame * DataFrame) :=
  biometric_clean <- preprocessing.preprocess_biometric biometric ;;
  demographic_clean <- preprocessing.preprocess_demographic demographic ;;
  enrolment_clean <- preprocessing.preprocess_enrolment enrolment ;;
  Ok (biometric_clean, demographic_clean, enrolment_clean).

End datasets.

(** ** streamlit_app.py: the bands of the dashboard *)

Module dashboard.

(** [classify_friction(afi)]; the labels start with a coloured circle. *)
Definition classify_friction (afi : float) : string :=
  if (70 <=? afi)%float then "🔴 High Friction"
  else if (40 <=? afi)%float then "🟡 Medium Friction"
  else "🟢 Low Friction".

(** [get_afi_color(afi)]. *)
Definition get_afi_color (afi : float) : string :=
  if (70 <=? afi)%float then "#ef4444"
  else if (40 <=? afi)%float then "#f59e0b"
  else "#10b981".

End dashboard.
(** * Facts about binary64 comparison

    The comparisons of [float] are specified by [SFcompare] on [spec_float];
    the order facts below are proved there and carried over. *)

Ltac sf_cmp :=
  repeat match goal with
    | H : context [Z.compare ?a ?b] |- _ => destruct (Z.compare_spec a b)
    | |- context [Z.compare ?a ?b] => destruct (Z.compare_spec a b)
    | H : context [Pos.compare_cont Eq ?a ?b] |- _ =>
        change (Pos.compare_cont Eq a b) with (Pos.compare a b) in H
    | |- context [Pos.compare_cont Eq ?a ?b] =>
        change (Pos.compare_cont Eq a b) with (Pos.compare a b)
    | H : context [Pos.compare ?a ?b] |- _ => destruct (Pos.compare_spec a b)
    | |- context [Pos.compare ?a ?b] => destruct (Pos.compare_spec a b)
    end;
  simpl in *; try congruence; try lia.

Ltac sf_destruct x :=
  destruct x as [[|]|[|]| |[|] ? ?].

Ltac sf_solve3 a b c :=
  unfold SFltb, SFleb, SFeqb;
  sf_destruct a; sf_destruct b; simpl; try discriminate; try reflexivity;
  sf_destruct c; simpl; try discriminate; try reflexivity; intros; sf_cmp.

Ltac sf_solve2 a b :=
  unfold SFltb, SFleb, SFeqb;
  sf_destruct a; sf_destruct b; simpl; try discriminate; try reflexivity;
  intros; sf_cmp.


Lemma SFltb_trans a b c : SFltb a b = true -> SFltb b c = true -> SFltb a c = true.
Proof. sf_solve3 a b c. Qed.

Lemma SFleb_trans a b c : SFleb a b = true -> SFleb b c = true -> SFleb a c = true.
Proof. sf_solve3 a b c. Qed.

Lemma SFltb_leb_trans a b c : SFltb a b = true -> SFleb b c = true -> SFltb a c = true.
Proof. sf_solve3 a b c. Qed.

Lemma SFleb_ltb_trans a b c : SFleb a b = true -> SFltb b c = true -> SFltb a c = true.
Proof. sf_solve3 a b c. Qed.

Lemma SFltb_asym a b : SFltb a b = true -> SFltb b a = false.
Proof. sf_solve2 a b. Qed.

Lemma SFleb_nltb a b : SFleb a b = true -> SFltb b a = false.
Proof. sf_solve2 a b. Qed.

Lemma SFnltb_leb a b :
  SFeqb a a = true -> SFeqb b b = true -> SFltb a b = false -> SFleb b a = true.
Proof. sf_solve2 a b. Qed.

Lemma SFltb_leb a b : SFltb a b = true -> SFleb a b = true.
Proof. sf_solve2 a b. Qed.

Lemma SFeqb_leb a b : SFeqb a b = true -> SFleb a b = true.
Proof. sf_solve2 a b. Qed.

Lemma SFeqb_sym a b : SFeqb a b = SFeqb b a.
Proof. sf_solve2 a b. Qed.

Lemma SFleb_antisym a b : SFleb a b = true -> SFleb b a = true -> SFeqb a b = true.
Proof. sf_solve2 a b. Qed.

Lemma SFltb_defined_l a b : SFltb a b = true -> SFeqb a a = true.
Proof. sf_solve2 a b. Qed.

Lemma SFltb_defined_r a b : SFltb a b = true -> SFeqb b b = true.
Proof. sf_solve2 a b. Qed.

Lemma SFleb_defined_l a b : SFleb a b = true -> SFeqb a a = true.
Proof. sf_solve2 a b. Qed.

Lemma SFleb_defined_r a b : SFleb a b = true -> SFeqb b b = true.
Proof. sf_solve2 a b. Qed.


Lemma defined_spec x : defined x <-> SFeqb (Prim2SF x) (Prim2SF x) = true.
Proof.
  unfold defined, PrimFloat.is_nan. rewrite FloatAxioms.eqb_spec.
  destruct (SFeqb _ _); simpl; intuition congruence.
Qed.

Ltac to_spec :=
  unfold defined in *;
  repeat match goal with
    | H : PrimFloat.is_nan _ = false |- _ => apply defined_spec in H
    | |- PrimFloat.is_nan _ = false => apply defined_spec
    end;
  rewrite ?FloatAxioms.ltb_spec, ?FloatAxioms.leb_spec, ?FloatAxioms.eqb_spec in *.

Section FloatOrder.
Local Open Scope float_scope.



Lemma fltb_trans x y z : (x <? y) = true -> (y <? z) = true -> (x <? z) = true.
Proof. to_spec. apply SFltb_trans. Qed.

Lemma fleb_trans x y z : (x <=? y) = true -> (y <=? z) = true -> (x <=? z) = true.
Proof. to_spec. apply SFleb_trans. Qed.

Lemma fltb_leb_trans x y z : (x <? y) = true -> (y <=? z) = true -> (x <? z) = true.
Proof. to_spec. apply SFltb_leb_trans. Qed.

Lemma fleb_ltb_trans x y z : (x <=? y) = true -> (y <? z) = true -> (x <? z) = true.
Proof. to_spec. apply SFleb_ltb_trans. Qed.

Lemma fltb_asym x y : (x <? y) = true -> (y <? x) = false.
Proof. to_spec. apply SFltb_asym. Qed.

Lemma fltb_irrefl x : (x <? x) = false.
Proof. destruct (x <? x) eqn:E; [ | reflexivity ]. now rewrite (fltb_asym _ _ E) in E. Qed.

Lemma fleb_nltb x y : (x <=? y) = true -> (y <? x) = false.
Proof. to_spec. apply SFleb_nltb. Qed.

Lemma fnltb_leb x y : defined x -> defined y -> (x <? y) = false -> (y <=? x) = true.
Proof. intros Hx Hy. to_spec. now apply SFnltb_leb. Qed.

Lemma fltb_leb x y : (x <? y) = true -> (x <=? y) = true.
Proof. to_spec. apply SFltb_leb. Qed.

Lemma feqb_leb x y : (x =? y) = true -> (x <=? y) = true.
Proof. to_spec. apply SFeqb_leb. Qed.

Lemma feqb_sym x y : (x =? y) = (y =? x).
Proof. to_spec. apply SFeqb_sym. Qed.

Lemma feqb_refl x : defined x -> (x =? x) = true.
Proof. intros H. to_spec. exact H. Qed.

Lemma fleb_antisym x y : (x <=? y) = true -> (y <=? x) = true -> (x =? y) = true.
Proof. to_spec. apply SFleb_antisym. Qed.

Lemma fltb_defined_l x y : (x <? y) = true -> defined x.
Proof. intros H. to_spec. revert H. apply SFltb_defined_l. Qed.

Lemma fltb_defined_r x y : (x <? y) = true -> defined y.
Proof. intros H. to_spec. revert H. apply SFltb_defined_r. Qed.

Lemma fleb_defined_l x y : (x <=? y) = true -> defined x.
Proof. intros H. to_spec. revert H. apply SFleb_defined_l. Qed.

Lemma fleb_defined_r x y : (x <=? y) = true -> defined y.
Proof. intros H. to_spec. revert H. apply SFleb_defined_r. Qed.

Lemma feqb_defined_l x y : (x =? y) = true -> defined x.
Proof. intros H. apply feqb_leb in H. now apply fleb_defined_l in H. Qed.

Lemma feqb_defined_r x y : (x =? y) = true -> defined y.
Proof. intros H. apply feqb_leb in H. now apply fleb_defined_r in H. Qed.

Lemma feqb_ltb_l x y z : (x =? y) = true -> (x <? z) = (y <? z).
Proof.
  intros H.
  destruct (x <? z) eqn:E1, (y <? z) eqn:E2; try reflexivity.
  - rewrite feqb_sym in H. apply feqb_leb in H.
    now rewrite (fleb_ltb_trans _ _ _ H E1) in E2.
  - apply feqb_leb in H. now rewrite (fleb_ltb_trans _ _ _ H E2) in E1.
Qed.

Lemma feqb_ltb_r x y z : (x =? y) = true -> (z <? x) = (z <? y).
Proof.
  intros H.
  destruct (z <? x) eqn:E1, (z <? y) eqn:E2; try reflexivity.
  - apply feqb_leb in H. now rewrite (fltb_leb_trans _ _ _ E1 H) in E2.
  - rewrite feqb_sym in H. apply feqb_leb in H.
    now rewrite (fltb_leb_trans _ _ _ E2 H) in E1.
Qed.

End FloatOrder.

(** * Facts about the series reductions *)

Section SeriesFacts.
Local Open Scope float_scope.

Lemma is_nan_nan : PrimFloat.is_nan nan = true.
Proof. reflexivity. Qed.

Lemma not_defined_ltb_l x y : PrimFloat.is_nan x = true -> (x <? y) = false.
Proof.
  intros H. destruct (x <? y) eqn:E; [ | reflexivity ].
  apply fltb_defined_l in E. unfold defined in E. congruence.
Qed.

Lemma not_defined_ltb_r x y : PrimFloat.is_nan y = true -> (x <? y) = false.
Proof.
  intros H. destruct (x <? y) eqn:E; [ | reflexivity ].
  apply fltb_defined_r in E. unfold defined in E. congruence.
Qed.

Lemma not_defined_eqb_l x y : PrimFloat.is_nan x = true -> (x =? y) = false.
Proof.
  intros H. destruct (x =? y) eqn:E; [ | reflexivity ].
  apply feqb_defined_l in E. unfold defined in E. congruence.
Qed.

Lemma fleb_refl x : defined x -> (x <=? x) = true.
Proof. intros H. apply feqb_leb, feqb_refl, H. Qed.

Lemma feqb_trans x y z : (x =? y) = true -> (y =? z) = true -> (x =? z) = true.
Proof.
  intros H1 H2. apply fleb_antisym.
  - eapply fleb_trans; apply feqb_leb; eassumption.
  - rewrite feqb_sym in H1, H2. eapply fleb_trans; apply feqb_leb; eassumption.
Qed.

(** The running minimum from a defined start. *)
Lemma fold_min_from_defined s : forall acc,
  defined acc ->
  let m := fold_left pd.min_step s acc in
  defined m /\ (m = acc \/ In m s) /\ (m <=? acc) = true /\
  (forall x, In x s -> defined x -> (m <=? x) = true).
Proof.
  induction s as [ | x t IH ]; intros acc Hacc; simpl.
  - repeat split; auto using fleb_refl; try (now intros ? []); try (intros ? []).
  - assert (Hstep : defined (pd.min_step acc x) /\
                    (pd.min_step acc x = acc \/ pd.min_step acc x = x) /\
                    (pd.min_step acc x <=? acc) = true /\
                    (defined x -> (pd.min_step acc x <=? x) = true)).
    { unfold pd.min_step. destruct (PrimFloat.is_nan x) eqn:Hx.
      - repeat split; auto using fleb_refl. intros D. unfold defined in D. congruence.
      - unfold defined in Hacc. rewrite Hacc. destruct (x <? acc) eqn:Hlt.
        + repeat split; auto using fleb_refl, fltb_leb.
        + repeat split; auto using fleb_refl. intros _. now apply fnltb_leb. }
    destruct Hstep as (D1 & Hin1 & Hle1 & Hlex).
    destruct (IH _ D1) as (D & Hin & Hle & Hall).
    repeat split; auto.
    + destruct Hin as [-> | Hin]; [ | auto ].
      destruct Hin1 as [-> | ->]; auto.
    + eapply fleb_trans; eassumption.
    + intros y [<- | Hy] Dy; [ | auto ].
      eapply fleb_trans; [ exact Hle | auto ].
Qed.

Lemma fold_max_from_defined s : forall acc,
  defined acc ->
  let m := fold_left pd.max_step s acc in
  defined m /\ (m = acc \/ In m s) /\ (acc <=? m) = true /\
  (forall x, In x s -> defined x -> (x <=? m) = true).
Proof.
  induction s as [ | x t IH ]; intros acc Hacc; simpl.
  - repeat split; auto using fleb_refl; try (now intros ? []); try (intros ? []).
  - assert (Hstep : defined (pd.max_step acc x) /\
                    (pd.max_step acc x = acc \/ pd.max_step acc x = x) /\
                    (acc <=? pd.max_step acc x) = true /\
                    (defined x -> (x <=? pd.max_step acc x) = true)).
    { unfold pd.max_step. destruct (PrimFloat.is_nan x) eqn:Hx.
      - repeat split; auto using fleb_refl. intros D. unfold defined in D. congruence.
      - unfold defined in Hacc. rewrite Hacc. destruct (acc <? x) eqn:Hlt.
        + repeat split; auto using fleb_refl, fltb_leb.
        + repeat split; auto using fleb_refl. intros _. now apply fnltb_leb. }
    destruct Hstep as (D1 & Hin1 & Hle1 & Hlex).
    destruct (IH _ D1) as (D & Hin & Hle & Hall).
    repeat split; auto.
    + destruct Hin as [-> | Hin]; [ | auto ].
      destruct Hin1 as [-> | ->]; auto.
    + eapply fleb_trans; eassumption.
    + intros y [<- | Hy] Dy; [ | auto ].
      eapply fleb_trans; [ | exact Hle ]. auto.
Qed.

(** [Series.min()]: NaN when no entry is defined, and otherwise a defined
    entry below every defined entry. *)
Lemma series_min_spec s :
  (Forall (fun x => PrimFloat.is_nan x = true) s /\ pd.series_min s = nan) \/
  (defined (pd.series_min s) /\ In (pd.series_min s) s /\
   forall x, In x s -> defined x -> (pd.series_min s <=? x) = true).
Proof.
  unfold pd.series_min. induction s as [ | x t IH ]; simpl.
  - left. split; [ constructor | reflexivity ].
  - assert (Hs : pd.min_step nan x = if PrimFloat.is_nan x then nan else x)
      by (unfold pd.min_step; destruct (PrimFloat.is_nan x); reflexivity).
    rewrite Hs. clear Hs. destruct (PrimFloat.is_nan x) eqn:Hx.
    + destruct IH as [[Hall Hm] | (D & Hin & Hle)].
      * left. split; [ constructor; assumption | exact Hm ].
      * right. split; [ exact D | split; [ right; exact Hin | ] ].
        intros y [<- | Hy] Dy; [ unfold defined in Dy; congruence | auto ].
    + right. simpl. destruct (fold_min_from_defined t x Hx) as (D & Hin & Hle & Hall).
      split; [ exact D | split ].
      * destruct Hin as [-> | Hin]; auto.
      * intros y [<- | Hy] Dy; auto.
Qed.

Lemma series_max_spec s :
  (Forall (fun x => PrimFloat.is_nan x = true) s /\ pd.series_max s = nan) \/
  (defined (pd.series_max s) /\ In (pd.series_max s) s /\
   forall x, In x s -> defined x -> (x <=? pd.series_max s) = true).
Proof.
  unfold pd.series_max. induction s as [ | x t IH ]; simpl.
  - left. split; [ constructor | reflexivity ].
  - assert (Hs : pd.max_step nan x = if PrimFloat.is_nan x then nan else x)
      by (unfold pd.max_step; destruct (PrimFloat.is_nan x); reflexivity).
    rewrite Hs. clear Hs. destruct (PrimFloat.is_nan x) eqn:Hx.
    + destruct IH as [[Hall Hm] | (D & Hin & Hle)].
      * left. split; [ constructor; assumption | exact Hm ].
      * right. split; [ exact D | split; [ right; exact Hin | ] ].
        intros y [<- | Hy] Dy; [ unfold defined in Dy; congruence | auto ].
    + right. simpl. destruct (fold_max_from_defined t x Hx) as (D & Hin & Hle & Hall).
      split; [ exact D | split ].
      * destruct Hin as [-> | Hin]; auto.
      * intros y [<- | Hy] Dy; auto.
Qed.

End SeriesFacts.

(** * Facts about binary64 arithmetic *)

Definition SFzero_or_nan (z : spec_float) : Prop :=
  match z with
  | S754_zero _ | S754_nan => True
  | _ => False
  end.

Lemma SFeqb_finite_inv s1 m1 e1 s2 m2 e2 :
  SFeqb (S754_finite s1 m1 e1) (S754_finite s2 m2 e2) = true ->
  s1 = s2 /\ m1 = m2 /\ e1 = e2.
Proof.
  unfold SFeqb. destruct s1, s2; simpl; try discriminate; intros H; sf_cmp; auto.
Qed.

Lemma SFsub_finite_diag s m e :
  SF64sub (S754_finite s m e) (S754_finite s m e) = S754_zero false.
Proof. unfold SF64sub, SFsub. rewrite Z.sub_diag. reflexivity. Qed.

Lemma SFsub_of_equal a b : SFeqb a b = true -> SFzero_or_nan (SF64sub a b).
Proof.
  intros H.
  destruct a as [sa|sa| |sa ma ea], b as [sb|sb| |sb mb eb];
    try (destruct sa); try (destruct sb); try discriminate H; try exact I.
  all: apply SFeqb_finite_inv in H; destruct H as (Hs & Hm & He);
    try discriminate; subst; rewrite SFsub_finite_diag; exact I.
Qed.

Section DegenerateRescale.
Local Open Scope float_scope.

(** The min-max rescale of a value that equals both extremes is [0/0]. *)
Lemma degenerate_rescale a lo hi :
  (a =? lo) = true -> (hi =? lo) = true -> 100 * (a - lo) / (hi - lo) = nan.
Proof.
  intros Ha Hhi. apply Prim2SF_inj.
  rewrite div_spec, mul_spec, !sub_spec.
  rewrite FloatAxioms.eqb_spec in Ha, Hhi.
  apply SFsub_of_equal in Ha. apply SFsub_of_equal in Hhi.
  destruct (SF64sub (Prim2SF a) (Prim2SF lo)); try contradiction;
    destruct (SF64sub (Prim2SF hi) (Prim2SF lo)); try contradiction;
    reflexivity.
Qed.

End DegenerateRescale.

(** * index.py *)

(** ** Fixtures *)

Definition fixture_signals : list index.SignalRow :=
  [ index.mkSignalRow "Kerala" "Idukki" "2025-03" 10 20 30 40 ].

Definition fixture_raw : list index.RawRow :=
  [ index.mkRawRow (index.mkSignalRow "Kerala" "Idukki" "2025-03" 10 20 30 40) 23.5 ].

Definition weights_sum_099 : index.Weights :=
  [ ("UIS", 0.30%float); ("RIS", 0.25%float); ("BSS", 0.25%float); ("TSD", 0.19%float) ].

Definition weights_sum_101 : index.Weights :=
  [ ("UIS", 0.30%float); ("RIS", 0.25%float); ("BSS", 0.25%float); ("TSD", 0.21%float) ].

Definition weights_sum_1_plus_1em9 : index.Weights :=
  [ ("UIS", 0.30%float); ("RIS", 0.25%float); ("BSS", 0.25%float); ("TSD", 0.200000001%float) ].

Section IndexFacts.
Local Open Scope float_scope.
Import index.

Lemma dict_get_raises_KeyError d k e : dict_get d k = Raise e -> e = KeyError k.
Proof.
  induction d as [ | [k' v] t IH ]; simpl.
  - congruence.
  - destruct (String.eqb k' k); [ discriminate | exact IH ].
Qed.

Lemma default_weights_pass : np.isclose (py_sum (dict_values WEIGHTS)) 1 = true.
Proof. vm_compute. reflexivity. Qed.

(** C2: with the default weights every row gets
    [AFI_raw = 0.30*UIS + 0.25*RIS + 0.25*BSS + 0.20*TSD], and the row
    UIS=10, RIS=20, BSS=30, TSD=40 gets 23.5. *)
Theorem calculate_afi_raw_weighted_sum :
  (forall df : list SignalRow,
     calculate_afi_raw df WEIGHTS =
     Ok (map (fun r => mkRawRow r
                 (0.30 * UIS r + 0.25 * RIS r + 0.25 * BSS r + 0.20 * TSD r)) df)) /\
  calculate_afi_raw fixture_signals WEIGHTS = Ok fixture_raw.
Proof.
  split.
  - intros df. unfold calculate_afi_raw.
    rewrite default_weights_pass. reflexivity.
  - vm_compute. reflexivity.
Qed.

(** C8: a weight sum that [np.isclose] does not accept as 1.0 raises the
    ValueError that carries the sum, whatever the table; an accepted sum never
    raises it.  Sums of 0.99 and 1.01 raise; 1.0 and 1.000000001 pass. *)
Theorem calculate_afi_raw_weight_validation :
  (forall df weights,
     np.isclose (py_sum (dict_values weights)) 1 = false ->
     calculate_afi_raw df weights =
     Raise (ValueError_weights (py_sum (dict_values weights)))) /\
  (forall df weights,
     np.isclose (py_sum (dict_values weights)) 1 = true ->
     forall s, calculate_afi_raw df weights <> Raise (ValueError_weights s)) /\
  (forall df, calculate_afi_raw df weights_sum_099 = Raise (ValueError_weights 0.99)) /\
  (forall df, calculate_afi_raw df weights_sum_101 = Raise (ValueError_weights 1.01)) /\
  py_sum (dict_values WEIGHTS) = 1 /\
  (forall df, exists out, calculate_afi_raw df WEIGHTS = Ok out) /\
  py_sum (dict_values weights_sum_1_plus_1em9) = 1.0000000010000001 /\
  (forall df, exists out, calculate_afi_raw df weights_sum_1_plus_1em9 = Ok out).
Proof.
  split; [ | split; [ | repeat split ] ].
  - intros df weights H. unfold calculate_afi_raw. rewrite H. reflexivity.
  - intros df weights H s. unfold calculate_afi_raw. rewrite H. simpl.
    destruct (dict_get weights "UIS") eqn:E1; simpl;
      [ | apply dict_get_raises_KeyError in E1; congruence ].
    destruct (dict_get weights "RIS") eqn:E2; simpl;
      [ | apply dict_get_raises_KeyError in E2; congruence ].
    destruct (dict_get weights "BSS") eqn:E3; simpl;
      [ | apply dict_get_raises_KeyError in E3; congruence ].
    destruct (dict_get weights "TSD") eqn:E4; simpl;
      [ | apply dict_get_raises_KeyError in E4; congruence ].
    discriminate.
  - intros df. eexists. apply (proj1 calculate_afi_raw_weighted_sum).
  - intros df. eexists. reflexivity.
Qed.

End IndexFacts.

Section IndexCategories.
Local Open Scope float_scope.
Import index.

Lemma add_categories_rows (df : list RankedRow) :
  add_categories df =
  map (fun r => mkIndexRow r (categorize_afi (AFI (ranked_afi_row r)))) df.
Proof.
  unfold add_categories, apply_categorize_afi.
  induction df as [ | r t IH ]; simpl; [ reflexivity | ]. now rewrite IH.
Qed.

(** C4: the bands of [categorize_afi] are closed below and open above, the
    last one closed at 100; [add_categories] applies it to the AFI of every
    row. *)
Theorem add_categories_bands :
  (forall df, add_categories df =
     map (fun r => mkIndexRow r (categorize_afi (AFI (ranked_afi_row r)))) df) /\
  (forall score,
     ((0 <=? score) = true -> (score <? 20) = true ->
      categorize_afi score = "Very Low Friction"%string) /\
     ((20 <=? score) = true -> (score <? 40) = true ->
      categorize_afi score = "Low Friction"%string) /\
     ((40 <=? score) = true -> (score <? 60) = true ->
      categorize_afi score = "Moderate Friction"%string) /\
     ((60 <=? score) = true -> (score <? 80) = true ->
      categorize_afi score = "High Friction"%string) /\
     ((80 <=? score) = true -> (score <=? 100) = true ->
      categorize_afi score = "Very High Friction"%string)) /\
  categorize_afi 19.999 = "Very Low Friction"%string /\
  categorize_afi 20.0 = "Low Friction"%string /\
  categorize_afi 100 = "Very High Friction"%string.
Proof.
  split; [ exact add_categories_rows | ].
  split; [ | repeat split ].
  intros score. unfold categorize_afi.
  assert (L : forall a b, (a <? b) = true -> (b <=? score) = true -> (score <? a) = false).
  { intros a b Hab Hb. apply fleb_nltb. eapply fleb_trans; [ | exact Hb ].
    now apply fltb_leb. }
  repeat split; intros Hlo Hhi.
  - now rewrite Hhi.
  - rewrite (fleb_nltb _ _ Hlo). now rewrite Hhi.
  - rewrite (L 20 40), (fleb_nltb _ _ Hlo) by (reflexivity || assumption). now rewrite Hhi.
  - rewrite (L 20 60), (L 40 60), (fleb_nltb _ _ Hlo) by (reflexivity || assumption).
    now rewrite Hhi.
  - rewrite (L 20 80), (L 40 80), (L 60 80), (fleb_nltb _ _ Hlo)
      by (reflexivity || assumption).
    reflexivity.
Qed.

Lemma add_categories_bands_witness :
  categorize_afi 50 = "Moderate Friction"%string.
Proof.
  apply (proj1 (proj2 (proj2 (proj1 (proj2 add_categories_bands) 50))));
    reflexivity.
Defined.



End IndexCategories.

Section IndexDegenerate.
Local Open Scope float_scope.
Import index.

(** C1, as the code behaves: when all raw values are equal, [normalize_afi]
    computes [0/0] for every record, and the AFI of every record is NaN. *)
Theorem normalize_afi_degenerate_is_nan :
  forall (df : list RawRow) (x : float),
    (forall r, In r df -> (AFI_raw r =? x) = true) ->
    forall r, In r (normalize_afi df) -> PrimFloat.is_nan (AFI r) = true.
Proof.
  intros df x Hall r Hr. unfold normalize_afi in Hr.
  apply in_map_iff in Hr. destruct Hr as (r0 & <- & Hr0). simpl.
  assert (Hin : In (AFI_raw r0) (map AFI_raw df)) by now apply in_map.
  assert (Hx : forall y, In y (map AFI_raw df) -> (y =? x) = true).
  { intros y Hy. apply in_map_iff in Hy. destruct Hy as (r1 & <- & Hr1). auto. }
  assert (Hmin : (pd.series_min (map AFI_raw df) =? x) = true).
  { destruct (series_min_spec (map AFI_raw df)) as [[Hnan _] | (_ & Hm & _)]; [ | auto ].
    rewrite Forall_forall in Hnan. specialize (Hnan _ Hin).
    apply Hx, feqb_defined_l in Hin. unfold defined in Hin. congruence. }
  assert (Hmax : (pd.series_max (map AFI_raw df) =? x) = true).
  { destruct (series_max_spec (map AFI_raw df)) as [[Hnan _] | (_ & Hm & _)]; [ | auto ].
    rewrite Forall_forall in Hnan. specialize (Hnan _ Hin).
    apply Hx, feqb_defined_l in Hin. unfold defined in Hin. congruence. }
  rewrite degenerate_rescale; [ reflexivity | | ].
  - eapply feqb_trans; [ apply Hx, Hin | now rewrite feqb_sym ].
  - eapply feqb_trans; [ exact Hmax | now rewrite feqb_sym ].
Qed.

Lemma normalize_afi_degenerate_is_nan_witness :
  Forall (fun r => PrimFloat.is_nan (AFI r) = true) (normalize_afi fixture_raw).
Proof.
  apply Forall_forall. apply (normalize_afi_degenerate_is_nan fixture_raw 23.5).
  intros r [<- | []]. reflexivity.
Defined.

End IndexDegenerate.

(** * Ranking *)

Section RankFacts.
Local Open Scope float_scope.

Lemma fleb_lt_or_eq x y : (x <=? y) = true -> (x <? y) = true \/ (x =? y) = true.
Proof.
  intros H. destruct (x <? y) eqn:E; [ now left | right ].
  apply fleb_antisym; [ exact H | ].
  apply fnltb_leb; [ now apply fleb_defined_l in H | now apply fleb_defined_r in H | exact E ].
Qed.

Lemma insert_desc_perm x l : Permutation (pd.insert_desc x l) (x :: l).
Proof.
  induction l as [ | y t IH ]; simpl; [ reflexivity | ].
  destruct (y <? x); [ reflexivity | ].
  rewrite IH. apply perm_swap.
Qed.

Lemma sort_desc_perm l : Permutation (pd.sort_desc l) l.
Proof.
  induction l as [ | x t IH ]; simpl; [ reflexivity | ].
  rewrite insert_desc_perm. now constructor.
Qed.

(** In a sorted column no entry is below a later one. *)
Definition not_below (a b : float) : Prop := (a <? b) = false.

Lemma insert_desc_sorted x l :
  StronglySorted not_below l -> StronglySorted not_below (pd.insert_desc x l).
Proof.
  induction 1 as [ | y t Hs IH Hy ]; simpl.
  - repeat constructor.
  - destruct (y <? x) eqn:E.
    + constructor; [ now constructor | ].
      constructor; [ now apply fltb_asym | ].
      rewrite Forall_forall in *. intros z Hz. specialize (Hy z Hz).
      unfold not_below in *. destruct (x <? z) eqn:Exz; [ | reflexivity ].
      now rewrite (fltb_trans _ _ _ E Exz) in Hy.
    + constructor; [ exact IH | ].
      eapply Permutation_Forall; [ symmetry; apply insert_desc_perm | ].
      constructor; assumption.
Qed.

Lemma sort_desc_sorted l : StronglySorted not_below (pd.sort_desc l).
Proof.
  induction l as [ | x t IH ]; simpl; [ constructor | now apply insert_desc_sorted ].
Qed.

Lemma first_pos_found x l : forall i r,
  pd.first_pos x l i = Some r -> exists e, In e l /\ (e =? x) = true.
Proof.
  induction l as [ | y t IH ]; simpl; intros i r H; [ discriminate | ].
  destruct (y =? x) eqn:E.
  - exists y. auto.
  - destruct (IH _ _ H) as (e & He & Hex). exists e. auto.
Qed.

Lemma first_pos_exists x l : forall i e,
  In e l -> (e =? x) = true -> exists r, pd.first_pos x l i = Some r.
Proof.
  induction l as [ | y t IH ]; simpl; intros i e [] Hex.
  - subst. rewrite Hex. eauto.
  - destruct (y =? x); eauto.
Qed.

(** The number of entries of [l] strictly above [x]. *)
Definition above (x : float) (l : list float) : list float :=
  filter (fun e => x <? e) l.

Lemma above_perm x l l' :
  Permutation l l' -> List.length (above x l) = List.length (above x l').
Proof.
  unfold above. induction 1; simpl.
  - reflexivity.
  - destruct (x <? x0); simpl; congruence.
  - destruct (x <? x0), (x <? y); reflexivity.
  - congruence.
Qed.

Lemma above_dropna x l : above x (pd.dropna l) = above x l.
Proof.
  unfold above, pd.dropna. induction l as [ | y t IH ]; simpl; [ reflexivity | ].
  destruct (PrimFloat.is_nan y) eqn:E; simpl.
  - now rewrite (not_defined_ltb_r x y E).
  - destruct (x <? y); now rewrite IH.
Qed.

Lemma filter_none {A : Type} (f : A -> bool) (l : list A) :
  (forall z, In z l -> f z = false) -> filter f l = [].
Proof.
  induction l as [ | y t IH ]; simpl; intros H; [ reflexivity | ].
  rewrite (H y (or_introl eq_refl)). apply IH. intros z Hz. apply H. now right.
Qed.

Lemma first_pos_sorted x l :
  StronglySorted not_below l -> Forall defined l ->
  forall i r, pd.first_pos x l i = Some r ->
  r = (i + Z.of_nat (List.length (above x l)))%Z.
Proof.
  induction 1 as [ | y t Hs IH Hy ]; intros Hd i r H; simpl in H; [ discriminate | ].
  inversion Hd as [ | ? ? Dy Dt ]; subst. unfold above in *. simpl.
  rewrite Forall_forall in Hy.
  destruct (y =? x) eqn:E.
  - injection H as <-.
    assert (Hxy : (x <? y) = false).
    { rewrite <- (feqb_ltb_l _ _ _ E). apply fltb_irrefl. }
    rewrite Hxy.
    rewrite filter_none; [ simpl; lia | ].
    intros z Hz. rewrite <- (feqb_ltb_l _ _ _ E). now apply Hy.
  - destruct (first_pos_found _ _ _ _ H) as (e & He & Hex).
    assert (Hxy : (x <? y) = true).
    { rewrite <- (feqb_ltb_l _ _ _ Hex).
      assert (Hle : (e <=? y) = true).
      { apply fnltb_leb; [ exact Dy | now apply feqb_defined_l in Hex | now apply Hy ]. }
      destruct (fleb_lt_or_eq _ _ Hle) as [Hlt | Heq]; [ exact Hlt | ].
      rewrite feqb_sym in Heq. rewrite (feqb_trans _ _ _ Heq Hex) in E. discriminate. }
    rewrite Hxy. simpl. rewrite (IH Dt _ _ H). lia.
Qed.

End RankFacts.

Section RankSpec.
Local Open Scope float_scope.

Lemma dropna_defined l : Forall defined (pd.dropna l).
Proof.
  apply Forall_forall. intros x Hx. apply filter_In in Hx.
  destruct Hx as [_ Hx]. unfold defined. now destruct (PrimFloat.is_nan x).
Qed.

(** The rank is one more than the number of entries strictly above. *)
Lemma rank_min_desc_in_spec population x r :
  pd.rank_min_desc_in population x = Some r ->
  r = (1 + Z.of_nat (List.length (above x population)))%Z.
Proof.
  unfold pd.rank_min_desc_in. intros H.
  apply first_pos_sorted in H.
  - rewrite H. rewrite (above_perm x _ _ (sort_desc_perm _)). now rewrite above_dropna.
  - apply sort_desc_sorted.
  - eapply Permutation_Forall; [ symmetry; apply sort_desc_perm | apply dropna_defined ].
Qed.

Lemma rank_min_desc_in_defined population x :
  In x population -> defined x -> exists r, pd.rank_min_desc_in population x = Some r.
Proof.
  intros Hin Hx. unfold pd.rank_min_desc_in.
  apply first_pos_exists with (e := x); [ | now apply feqb_refl ].
  eapply Permutation_in; [ symmetry; apply sort_desc_perm | ].
  apply filter_In. split; [ exact Hin | ]. unfold defined in Hx. now rewrite Hx.
Qed.

Lemma mapM_Ok {A B : Type} (f : A -> result B) (l : list A) (out : list B) :
  mapM f l = Ok out -> Forall2 (fun a b => f a = Ok b) l out.
Proof.
  revert out. induction l as [ | a t IH ]; simpl; intros out H.
  - injection H as <-. constructor.
  - destruct (f a) eqn:Ea; simpl in H; [ | discriminate ].
    destruct (mapM f t) eqn:Et; simpl in H; [ | discriminate ].
    injection H as <-. constructor; auto.
Qed.

Lemma mapM_total {A B : Type} (f : A -> result B) (l : list A) :
  (forall a, In a l -> exists b, f a = Ok b) -> exists out, mapM f l = Ok out.
Proof.
  induction l as [ | a t IH ]; simpl; intros H; [ eauto | ].
  destruct (H a (or_introl eq_refl)) as (b & ->).
  destruct IH as (bs & ->); [ intros; apply H; now right | ]. simpl. eauto.
Qed.

Lemma astype_int_Ok s out :
  pd.astype_int s = Ok out -> s = map Some out.
Proof.
  unfold pd.astype_int. intros H. apply mapM_Ok in H.
  induction H as [ | a b l l' Hab _ IH ]; simpl; [ reflexivity | ].
  destruct a; [ | discriminate ]. injection Hab as ->. now rewrite IH.
Qed.

Lemma in_combine3 {A B C : Type} (l1 : list A) : forall (l2 : list B) (l3 : list C) a b c,
  In (a, (b, c)) (combine l1 (combine l2 l3)) ->
  In (a, b) (combine l1 l2) /\ In (a, c) (combine l1 l3).
Proof.
  induction l1 as [ | x t IH ]; intros [ | y l2] [ | z l3] a b c H; simpl in *;
    try contradiction.
  destruct H as [H | H].
  - injection H as -> -> ->. auto.
  - apply IH in H. tauto.
Qed.

Lemma in_combine_map {A B : Type} (f : A -> B) (l : list A) a b :
  In (a, b) (combine l (map f l)) -> b = f a.
Proof.
  induction l as [ | x t IH ]; simpl; [ contradiction | ].
  intros [H | H]; [ now injection H as -> <- | auto ].
Qed.

Lemma in_combine_map_Some {A B : Type} (f : A -> option B) (l : list A) (out : list B) a b :
  map f l = map Some out -> In (a, b) (combine l out) -> f a = Some b.
Proof.
  revert out. induction l as [ | x t IH ]; intros [ | y out ] Hm H; simpl in *;
    try contradiction; try discriminate.
  injection Hm as Hx Ht. destruct H as [H | H]; [ now injection H as <- <- | eauto ].
Qed.

Lemma map_fst_combine_full {A B : Type} (l : list A) (l' : list B) :
  List.length l = List.length l' -> map fst (combine l l') = l.
Proof.
  revert l'. induction l as [ | x t IH ]; intros [ | y l' ] H; simpl in *;
    try discriminate; [ reflexivity | ]. f_equal. apply IH. congruence.
Qed.

End RankSpec.

Definition fixture_afi : list index.AfiRow :=
  [ index.mkAfiRow (index.mkRawRow (index.mkSignalRow "Kerala" "Idukki" "2025-03" 90 90 90 90) 90) 90;
    index.mkAfiRow (index.mkRawRow (index.mkSignalRow "Kerala" "Wayanad" "2025-03" 90 90 90 90) 90) 90;
    index.mkAfiRow (index.mkRawRow (index.mkSignalRow "Goa" "North Goa" "2025-03" 50 50 50 50) 50) 50 ].

Section AddRankings.
Local Open Scope float_scope.
Import index.

Lemma add_rankings_shape df out :
  add_rankings df = Ok out ->
  exists national by_state,
    pd.rank_min_desc (map AFI df) = map Some national /\
    map (fun r => pd.rank_min_desc_in (map AFI (state_group df r)) (AFI r)) df
      = map Some by_state /\
    out = map (fun '(r, (n, (s, p))) => mkRankedRow r n s p)
              (combine df (combine national
                 (combine by_state (utils.calculate_percentile_rank (map AFI df))))).
Proof.
  unfold add_rankings. intros H.
  destruct (pd.astype_int (pd.rank_min_desc (map AFI df))) as [national | ] eqn:E1;
    simpl in H; [ | discriminate ].
  destruct (pd.astype_int (map _ df)) as [by_state | ] eqn:E2; simpl in H; [ | discriminate ].
  injection H as <-. exists national, by_state.
  apply astype_int_Ok in E1. apply astype_int_Ok in E2. auto.
Qed.



End AddRankings.

Lemma calculate_afi_raw_weight_validation_witness :
  index.calculate_afi_raw fixture_signals weights_sum_099 =
  Raise (ValueError_weights (index.py_sum (index.dict_values weights_sum_099))).
Proof.
  apply (proj1 calculate_afi_raw_weight_validation fixture_signals weights_sum_099).
  reflexivity.
Defined.

(** * Signs of binary64 results *)

(** NaN, a zero of either sign, or a positive value: what [x < 0] rejects. *)
Definition SFnonneg (z : spec_float) : Prop :=
  match z with
  | S754_zero _ | S754_nan => True
  | S754_infinity s | S754_finite s _ _ => s = false
  end.

(** NaN or a value whose sign bit is clear. *)
Definition SFsign_clear (z : spec_float) : Prop :=
  match z with
  | S754_nan => True
  | S754_zero s | S754_infinity s | S754_finite s _ _ => s = false
  end.

Lemma SFsign_clear_nonneg z : SFsign_clear z -> SFnonneg z.
Proof. destruct z; simpl; auto. Qed.

Lemma SFnonneg_spec z : SFnonneg z <-> SFltb z (S754_zero false) = false.
Proof. unfold SFltb. sf_destruct z; simpl; intuition congruence. Qed.

Lemma binary_round_aux_sign s m e l :
  match binary_round_aux prec emax s m e l with
  | S754_nan => True
  | S754_zero s' | S754_infinity s' | S754_finite s' _ _ => s' = s
  end.
Proof.
  unfold binary_round_aux.
  destruct (shr_fexp prec emax m e l) as [mrs' e'].
  destruct (shr_fexp prec emax _ e' loc_Exact) as [mrs'' e''].
  destruct (shr_m mrs''); [ reflexivity | | exact I ].
  destruct (Z.leb e'' (emax - prec)); reflexivity.
Qed.

Lemma binary_round_sign s m e :
  match binary_round prec emax s m e with
  | S754_nan => True
  | S754_zero s' | S754_infinity s' | S754_finite s' _ _ => s' = s
  end.
Proof.
  unfold binary_round. destruct (shl_align _ _ _) as [mz ez].
  apply binary_round_aux_sign.
Qed.

Lemma binary_normalize_nonneg m e :
  0 <= m -> SFsign_clear (binary_normalize prec emax m e false).
Proof.
  intros H. destruct m as [ | p | p ]; simpl; [ reflexivity | | lia ].
  pose proof (binary_round_sign false p e) as S.
  destruct (binary_round prec emax false p e); simpl in *; auto.
Qed.

Lemma SFmul_nonneg a b : SFnonneg a -> SFnonneg b -> SFnonneg (SF64mul a b).
Proof.
  unfold SF64mul.
  destruct a as [sa|sa| |sa ma ea], b as [sb|sb| |sb mb eb]; simpl; intros Ha Hb;
    subst; try exact I; try reflexivity.
  pose proof (binary_round_aux_sign false (Z.pos (ma * mb)) (ea + eb) loc_Exact) as S.
  destruct (binary_round_aux _ _ _ _ _ _); simpl in *; auto.
Qed.

Lemma SFdiv_nonneg a b : SFnonneg a -> SFsign_clear b -> SFnonneg (SF64div a b).
Proof.
  unfold SF64div.
  destruct a as [sa|sa| |sa ma ea], b as [sb|sb| |sb mb eb]; simpl; intros Ha Hb;
    subst; try exact I; try reflexivity.
  destruct (SFdiv_core_binary prec emax (Z.pos ma) ea (Z.pos mb) eb) as [[mz ez] lz].
  pose proof (binary_round_aux_sign false mz ez lz) as S.
  destruct (binary_round_aux _ _ _ _ _ _); simpl in *; auto.
Qed.

Lemma SFadd_zero_nonneg a : SFnonneg a -> SFnonneg (SF64add (S754_zero false) a).
Proof.
  unfold SF64add. destruct a as [[|]|sa| |sa ma ea]; simpl; auto.
Qed.

(** ** Subtraction of ordered values *)

Lemma digits2_pos_bounds m :
  2 ^ (Z.pos (digits2_pos m) - 1) <= Z.pos m < 2 ^ Z.pos (digits2_pos m).
Proof.
  induction m as [ p IH | p IH | ]; simpl digits2_pos.
  - rewrite Pos2Z.inj_succ.
    replace (Z.succ (Z.pos (digits2_pos p)) - 1) with (Z.succ (Z.pos (digits2_pos p) - 1)) by lia.
    rewrite !Z.pow_succ_r by lia. lia.
  - rewrite Pos2Z.inj_succ.
    replace (Z.succ (Z.pos (digits2_pos p)) - 1) with (Z.succ (Z.pos (digits2_pos p) - 1)) by lia.
    rewrite !Z.pow_succ_r by lia. lia.
  - simpl. lia.
Qed.

Lemma iter_xO_pow m d : Z.pos (Pos.iter xO m d) = Z.pos m * 2 ^ Z.pos d.
Proof.
  induction d as [ | d IH ] using Pos.peano_ind.
  - simpl. lia.
  - rewrite Pos.iter_succ, Pos2Z.inj_succ, Z.pow_succ_r by lia.
    rewrite Pos2Z.inj_xO, IH. lia.
Qed.

Lemma shl_align_fst m e ez :
  ez <= e -> Z.pos (fst (shl_align m e ez)) = Z.pos m * 2 ^ (e - ez).
Proof.
  intros H. unfold shl_align.
  destruct (ez - e) as [ | p | p ] eqn:E; cbn [fst].
  - replace (e - ez) with 0 by lia. rewrite Z.pow_0_r. lia.
  - lia.
  - rewrite iter_xO_pow. replace (e - ez) with (Z.pos p) by lia. reflexivity.
Qed.

(** What validity says of a finite binary64 value. *)
Lemma valid_finite_bounds s m e :
  valid_binary (S754_finite s m e) = true ->
  Z.pos m < 2 ^ 53 /\ (-1074 < e -> 2 ^ 52 <= Z.pos m) /\ -1074 <= e.
Proof.
  unfold SpecFloat.valid_binary, bounded, canonical_mantissa, fexp, SpecFloat.emin, prec, emax.
  intros H. apply andb_prop in H. destruct H as [H _]. apply Z.eqb_eq in H.
  pose proof (digits2_pos_bounds m) as [Hlo Hhi].
  assert (Hd : Z.pos (digits2_pos m) <= 53) by lia.
  split; [ | split ].
  - eapply Z.lt_le_trans; [ exact Hhi | ]. apply Z.pow_le_mono_r; lia.
  - intros He. assert (Z.pos (digits2_pos m) = 53) as Hd53 by lia.
    rewrite Hd53 in Hlo. exact Hlo.
  - lia.
Qed.

(** Two valid values of the same sign: a larger exponent means a larger
    aligned mantissa. *)
Lemma aligned_mantissa_lt s1 m1 e1 s2 m2 e2 :
  valid_binary (S754_finite s1 m1 e1) = true ->
  valid_binary (S754_finite s2 m2 e2) = true ->
  e1 < e2 ->
  Z.pos (fst (shl_align m1 e1 (Z.min e2 e1))) < Z.pos (fst (shl_align m2 e2 (Z.min e2 e1))).
Proof.
  intros V1 V2 He.
  apply valid_finite_bounds in V1. apply valid_finite_bounds in V2.
  destruct V1 as (H1 & _ & L1). destruct V2 as (_ & H2 & _).
  rewrite !shl_align_fst by lia.
  replace (Z.min e2 e1) with e1 by lia.
  replace (e1 - e1) with 0 by lia. rewrite Z.pow_0_r, Z.mul_1_r.
  specialize (H2 ltac:(lia)).
  assert (2 ^ 1 <= 2 ^ (e2 - e1)) by (apply Z.pow_le_mono_r; lia).
  change (2 ^ 1) with 2 in *. change (2 ^ 53) with (2 * 2 ^ 52) in H1. nia.
Qed.

Lemma shl_align_same m e : Z.pos (fst (shl_align m e e)) = Z.pos m.
Proof. rewrite shl_align_fst by lia. rewrite Z.sub_diag, Z.pow_0_r. lia. Qed.

Lemma SFsub_finite_ordered sa ma ea sb mb eb :
  valid_binary (S754_finite sa ma ea) = true ->
  valid_binary (S754_finite sb mb eb) = true ->
  SFleb (S754_finite sb mb eb) (S754_finite sa ma ea) = true ->
  0 <= cond_Zopp sa (Z.pos (fst (shl_align ma ea (Z.min ea eb))))
       - cond_Zopp sb (Z.pos (fst (shl_align mb eb (Z.min ea eb)))).
Proof.
  intros Va Vb H. unfold SFleb in H. simpl in H.
  destruct sa, sb; cbv [cond_Zopp]; try discriminate; try lia.
  - (* both negative: |a| <= |b| *)
    destruct (Z.compare_spec eb ea) as [He | He | He]; try discriminate.
    + subst. rewrite Z.min_id, !shl_align_same.
      change (Pos.compare_cont Eq mb ma) with (Pos.compare mb ma) in H.
      destruct (Pos.compare_spec mb ma); simpl in H; try discriminate; lia.
    + pose proof (aligned_mantissa_lt _ _ _ _ _ _ Va Vb He) as L.
      rewrite Z.min_comm in L. lia.
  - (* both positive: b <= a *)
    destruct (Z.compare_spec eb ea) as [He | He | He]; try discriminate.
    + subst. rewrite Z.min_id, !shl_align_same.
      change (Pos.compare_cont Eq mb ma) with (Pos.compare mb ma) in H.
      destruct (Pos.compare_spec mb ma); simpl in H; try discriminate; lia.
    + pose proof (aligned_mantissa_lt _ _ _ _ _ _ Vb Va He) as L. lia.
Qed.

Lemma SFsub_sign_clear a b :
  valid_binary a = true -> valid_binary b = true ->
  SFltb b a = true -> SFsign_clear (SF64sub a b).
Proof.
  intros Va Vb H.
  destruct a as [sa|sa| |sa ma ea], b as [sb|sb| |sb mb eb];
    try (destruct sa); try (destruct sb); try discriminate H; try exact I;
    try reflexivity.
  all: unfold SF64sub, SFsub; apply binary_normalize_nonneg;
    apply SFsub_finite_ordered; auto;
    unfold SFltb in H; unfold SFleb;
    destruct (SFcompare _ _) as [[ | | ] | ]; try discriminate; reflexivity.
Qed.

Lemma SFsub_nonneg a b :
  valid_binary a = true -> valid_binary b = true ->
  SFleb b a = true -> SFnonneg (SF64sub a b).
Proof.
  intros Va Vb H.
  destruct a as [sa|sa| |sa ma ea], b as [sb|sb| |sb mb eb];
    try (destruct sa); try (destruct sb); try discriminate H; try exact I;
    try reflexivity.
  all: apply SFsign_clear_nonneg; unfold SF64sub, SFsub; apply binary_normalize_nonneg;
    apply SFsub_finite_ordered; auto.
Qed.

Section FloatSigns.
Local Open Scope float_scope.

Lemma Prim2SF_zero : Prim2SF 0 = S754_zero false.
Proof. reflexivity. Qed.

Lemma fnonneg_spec x : SFnonneg (Prim2SF x) <-> (x <? 0) = false.
Proof. rewrite FloatAxioms.ltb_spec, Prim2SF_zero. apply SFnonneg_spec. Qed.

(** The rescale [0 + (x - lo) * width / (hi - lo)] of a value that is not
    below [lo < hi] is NaN or not negative, whatever the rounding. *)
Lemma rescale_not_negative x lo hi width :
  (lo <=? x) = true -> (lo <? hi) = true -> (0 <=? width) = true ->
  (0 + (x - lo) * (width - 0) / (hi - lo) <? 0) = false.
Proof.
  intros Hx Hhi Hw. apply fnonneg_spec.
  rewrite add_spec, div_spec, mul_spec, !sub_spec, Prim2SF_zero.
  rewrite FloatAxioms.leb_spec in Hx, Hw. rewrite FloatAxioms.ltb_spec in Hhi.
  rewrite Prim2SF_zero in Hw.
  apply SFadd_zero_nonneg, SFdiv_nonneg; [ apply SFmul_nonneg | ].
  - apply SFsub_nonneg; auto using Prim2SF_valid.
  - apply SFsub_nonneg; auto using Prim2SF_valid.
  - apply SFsub_sign_clear; auto using Prim2SF_valid.
Qed.

End FloatSigns.

(** * utils.py: normalize_column *)

Section NormalizeColumn.
Local Open Scope float_scope.

Lemma is_nan_Prim2SF x : PrimFloat.is_nan x = true -> Prim2SF x = S754_nan.
Proof.
  unfold PrimFloat.is_nan. rewrite FloatAxioms.eqb_spec. unfold SFeqb.
  destruct (Prim2SF x) as [[|]|[|]| |[|] m e]; simpl; try discriminate; try reflexivity.
  all: rewrite Z.compare_refl, ?Pos.compare_cont_refl; discriminate.
Qed.

(** The rescale of a missing entry is NaN, hence not negative either. *)
Lemma rescale_nan_not_negative x lo hi width :
  PrimFloat.is_nan x = true ->
  (0 + (x - lo) * (width - 0) / (hi - lo) <? 0) = false.
Proof.
  intros H. apply fnonneg_spec.
  rewrite add_spec, div_spec, mul_spec, !sub_spec, (is_nan_Prim2SF x H). exact I.
Qed.

(** When the guard [series_max == series_min] fails, the extremes are
    defined, ordered, and bound every defined entry. *)
Lemma extremes_of_defined_entry series x :
  In x series -> defined x ->
  defined (pd.series_min series) /\ defined (pd.series_max series) /\
  In (pd.series_min series) series /\ In (pd.series_max series) series /\
  (pd.series_min series <=? x) = true /\ (x <=? pd.series_max series) = true.
Proof.
  intros Hin Hx.
  destruct (series_min_spec series) as [[Hnan _] | (D1 & I1 & L1)].
  { rewrite Forall_forall in Hnan. specialize (Hnan _ Hin). unfold defined in Hx. congruence. }
  destruct (series_max_spec series) as [[Hnan _] | (D2 & I2 & L2)].
  { rewrite Forall_forall in Hnan. specialize (Hnan _ Hin). unfold defined in Hx. congruence. }
  auto 10.
Qed.


Lemma normalize_column_not_negative series max_val :
  (0 <=? max_val) = true ->
  forall v, In v (utils.normalize_column series 0 max_val) -> (v <? 0) = false.
Proof.
  intros Hw v Hv. unfold utils.normalize_column in Hv.
  destruct (pd.series_max series =? pd.series_min series) eqn:E.
  - apply in_map_iff in Hv. destruct Hv as (x & <- & _). reflexivity.
  - apply in_map_iff in Hv. destruct Hv as (x & <- & Hin).
    destruct (PrimFloat.is_nan x) eqn:Hx; [ now apply rescale_nan_not_negative | ].
    destruct (extremes_of_defined_entry series x Hin Hx) as (D1 & D2 & I1 & I2 & L1 & L2).
    apply rescale_not_negative; auto.
    destruct (fleb_lt_or_eq _ _ (fleb_trans _ _ _ L1 L2)) as [Hlt | Heq]; [ exact Hlt | ].
    rewrite feqb_sym in Heq. congruence.
Qed.




End NormalizeColumn.

(** * More signs: sums, and results that are not NaN *)


(** A value that is a number (not NaN) and not negative. *)
Definition SFnumber_nonneg (z : spec_float) : Prop :=
  match z with
  | S754_nan => False
  | S754_zero _ => True
  | S754_infinity s | S754_finite s _ _ => s = false
  end.










Lemma SFnumber_nonneg_nonneg z : SFnumber_nonneg z -> SFnonneg z.
Proof. destruct z; simpl; auto. Qed.

Section FloatNumbers.
Local Open Scope float_scope.





End FloatNumbers.

(** * Sorting upwards, medians and quantiles *)

Section SortedFacts.
Local Open Scope float_scope.

Definition not_above (a b : float) : Prop := (b <? a) = false.

Lemma insert_asc_perm x l : Permutation (pdx.insert_asc x l) (x :: l).
Proof.
  induction l as [ | y t IH ]; simpl; [ reflexivity | ].
  destruct (x <? y); [ reflexivity | ].
  rewrite IH. apply perm_swap.
Qed.

Lemma sort_asc_perm l : Permutation (pdx.sort_asc l) l.
Proof.
  induction l as [ | x t IH ]; simpl; [ reflexivity | ].
  rewrite insert_asc_perm. now constructor.
Qed.

Lemma insert_asc_sorted x l :
  StronglySorted not_above l -> StronglySorted not_above (pdx.insert_asc x l).
Proof.
  induction 1 as [ | y t Hs IH Hy ]; simpl.
  - repeat constructor.
  - destruct (x <? y) eqn:E.
    + constructor; [ now constructor | ].
      constructor; [ now apply fltb_asym | ].
      rewrite Forall_forall in *. intros z Hz. specialize (Hy z Hz).
      unfold not_above in *. destruct (z <? x) eqn:Ezx; [ | reflexivity ].
      now rewrite (fltb_trans _ _ _ Ezx E) in Hy.
    + constructor; [ exact IH | ].
      eapply Permutation_Forall; [ symmetry; apply insert_asc_perm | ].
      constructor; assumption.
Qed.

Lemma sort_asc_sorted l : StronglySorted not_above (pdx.sort_asc l).
Proof.
  induction l as [ | x t IH ]; simpl; [ constructor | now apply insert_asc_sorted ].
Qed.


(** The sorted values that are not NaN. *)
Lemma sorted_dropna_facts s :
  let v := pdx.sort_asc (pd.dropna s) in
  StronglySorted not_above v /\ Forall defined v /\
  (forall x, In x v <-> In x s /\ defined x).
Proof.
  intros v. split; [ apply sort_asc_sorted | ].
  assert (Hin : forall x, In x v <-> In x s /\ defined x).
  { intros x. subst v. split.
    - intros H. apply (Permutation_in _ (sort_asc_perm _)) in H.
      apply filter_In in H. destruct H as [H1 H2]. split; [ exact H1 | ].
      unfold defined. now destruct (PrimFloat.is_nan x).
    - intros [H1 H2]. apply (Permutation_in _ (Permutation_sym (sort_asc_perm _))).
      apply filter_In. split; [ exact H1 | ]. unfold defined in H2. now rewrite H2. }
  split; [ | exact Hin ].
  apply Forall_forall. intros x Hx. now apply Hin in Hx.
Qed.




End SortedFacts.

(** * preprocessing.py *)

Section FrameFacts.
Local Open Scope float_scope.
Import frame.

Lemma select_In {A : Type} (keep : list bool) : forall (l : list A) x,
  In x (select keep l) -> In x l.
Proof.
  induction keep as [ | b keep IH ]; intros [ | y l ] x H; simpl in *; try contradiction.
  destruct b; simpl in H; [ destruct H as [H | H]; [ now left | ] | ]; right; now apply IH.
Qed.

Lemma select_length {A B : Type} (keep : list bool) : forall (l : list A) (l' : list B),
  List.length l = List.length l' ->
  List.length (select keep l) = List.length (select keep l').
Proof.
  induction keep as [ | b keep IH ]; intros [ | y l ] [ | y' l' ] H; simpl in *;
    try discriminate; try reflexivity.
  destruct b; simpl; auto.
Qed.


Lemma select_all_true {A : Type} (l : list A) : forall keep,
  List.length keep = List.length l -> Forall (fun b => b = true) keep -> select keep l = l.
Proof.
  induction l as [ | y l IH ]; intros [ | b keep ] Hlen Hall; simpl in *;
    try discriminate; try reflexivity.
  inversion Hall; subst. f_equal. apply IH; auto.
Qed.

Lemma duplicated_from_length rest : forall seen,
  List.length (duplicated_from seen rest) = List.length rest.
Proof. induction rest as [ | r t IH ]; intros seen; simpl; auto. Qed.

Lemma rows_length df : List.length (rows df) = nrows df.
Proof.
  unfold rows, nrows. rewrite length_map, length_combine, length_seq. lia.
Qed.







End FrameFacts.

Section PreprocessColumns.
Local Open Scope float_scope.
Import frame preprocessing.










Lemma impute_column_length ks col :
  List.length ks = List.length col ->
  List.length (impute_column ks col) = List.length col.
Proof.
  intros H. unfold impute_column, pd.fillna.
  destruct (existsb PrimFloat.is_nan col); [ | reflexivity ].
  rewrite !length_map, length_combine. lia.
Qed.

(** The three functions run the same steps. *)
Lemma preprocess_demographic_as_biometric raw :
  preprocess_demographic raw = preprocess_biometric raw.
Proof.
  unfold preprocess_demographic, preprocess_biometric.
  destruct (clean_common_columns raw) as [df | e]; simpl; [ | reflexivity ].
  unfold map_columns. simpl. now rewrite !map_map.
Qed.

Lemma preprocess_enrolment_as_biometric raw :
  preprocess_enrolment raw = preprocess_biometric raw.
Proof. exact (preprocess_demographic_as_biometric raw). Qed.

Lemma preprocess_biometric_steps raw out :
  preprocess_biometric raw = Ok out ->
  exists cleaned,
    clean_common_columns raw = Ok cleaned /\
    out = map_columns (fun _ => cap_column) (imputed_clipped cleaned).
Proof.
  unfold preprocess_biometric. intros H.
  destruct (clean_common_columns raw) as [df | e]; simpl in H; [ | discriminate ].
  injection H as <-. eauto.
Qed.

Lemma mapM_length {A B : Type} (f : A -> result B) (l : list A) (out : list B) :
  mapM f l = Ok out -> List.length out = List.length l.
Proof.
  intros H. apply mapM_Ok in H. symmetry. eapply Forall2_length; eauto.
Qed.

Lemma clean_common_columns_steps raw cleaned :
  clean_common_columns raw = Ok cleaned ->
  exists ks,
    mapM clean_key (keys raw) = Ok ks /\
    cleaned = drop_duplicates
      (mkDataFrame ks (map (fun c => (normalize_column_name (fst c), snd c)) (data raw))).
Proof.
  unfold clean_common_columns. intros H.
  destruct (mapM clean_key (keys raw)) as [ks | e]; simpl in H; [ | discriminate ].
  injection H as <-. eauto.
Qed.

End PreprocessColumns.

(** ** Fixtures *)

(** Two regions, one count each, spelt as raw files spell them. *)
Definition raw_two_regions : frame.DataFrame :=
  frame.mkDataFrame
    [ frame.mkKey " kerala" "idukki " "2025-03-15";
      frame.mkKey "Kerala" "wayanad" "2025-03" ]
    [ (" Bio Count ", [0%float; 100%float]) ].

Definition cleaned_two_regions : frame.DataFrame :=
  frame.mkDataFrame
    [ frame.mkKey "Kerala" "Idukki" "2025-03";
      frame.mkKey "Kerala" "Wayanad" "2025-03" ]
    [ ("bio_count", [0%float; 99%float]) ].



Section PreprocessSpec.
Local Open Scope float_scope.
Import frame preprocessing.

Definition preprocessors : list (DataFrame -> result DataFrame) :=
  [ preprocess_biometric; preprocess_demographic; preprocess_enrolment ].

Lemma preprocessors_agree preprocess raw :
  In preprocess preprocessors -> preprocess raw = preprocess_biometric raw.
Proof.
  intros [<- | [<- | [<- | []]]];
    auto using preprocess_demographic_as_biometric, preprocess_enrolment_as_biometric.
Qed.





End PreprocessSpec.

(** * The cleaning of names and periods is idempotent *)

Section StringFacts.
Import str.



























End StringFacts.

Section PeriodFacts.
Import dt.






End PeriodFacts.



Section PreprocessTwice.
Local Open Scope float_scope.
Import frame preprocessing.




Lemma clip_column_length col : List.length (clip_column col) = List.length col.
Proof.
  unfold clip_column, pdx.clip_lower_0.
  destruct (pd.any_negative col); [ apply length_map | reflexivity ].
Qed.

Lemma cap_column_length col : List.length (cap_column col) = List.length col.
Proof.
  unfold cap_column. destruct (existsb _ col); [ apply length_map | reflexivity ].
Qed.



Lemma drop_duplicates_none df :
  well_formed df -> Forall (fun d => d = false) (duplicated df) ->
  drop_duplicates df = df.
Proof.
  intros Hwf Hd. unfold drop_duplicates.
  assert (Hkeep : Forall (fun b => b = true) (map negb (duplicated df))).
  { rewrite Forall_forall in *. intros b Hb. apply in_map_iff in Hb.
    destruct Hb as (d & <- & Hd'). now rewrite (Hd d Hd'). }
  assert (Hlen : List.length (map negb (duplicated df)) = nrows df).
  { unfold duplicated. now rewrite length_map, duplicated_from_length, rows_length. }
  destruct df as [ks cols]. unfold well_formed, nrows in *. simpl in *. f_equal.
  - now apply select_all_true.
  - rewrite <- (map_id cols) at 2. apply map_ext_in. intros [name col] Hc. simpl.
    f_equal. apply select_all_true; [ | exact Hkeep ].
    rewrite Forall_forall in Hwf. rewrite Hlen. symmetry. exact (Hwf _ Hc).
Qed.






End PreprocessTwice.
(** * signal.py *)

Section MergeFacts.
Import frame signal.

Lemma key_eqb_eq a b : key_eqb a b = true <-> a = b.
Proof.
  unfold key_eqb. destruct a as [s d p], b as [s' d' p']. simpl.
  rewrite !andb_true_iff, !String.eqb_eq. split.
  - intros [[-> ->] ->]. reflexivity.
  - intros H. injection H as -> -> ->. auto.
Qed.

Lemma key_eqb_refl a : key_eqb a a = true.
Proof. now apply key_eqb_eq. Qed.

Lemma insert_key_perm k l : Permutation (insert_key k l) (k :: l).
Proof.
  induction l as [ | k' t IH ]; simpl; [ reflexivity | ].
  destruct (key_ltb k k'); [ reflexivity | ].
  rewrite IH. apply perm_swap.
Qed.

Lemma sort_keys_perm l : Permutation (sort_keys l) l.
Proof.
  induction l as [ | k t IH ]; simpl; [ reflexivity | ].
  rewrite insert_key_perm. now constructor.
Qed.

Lemma insert_row_perm {A : Type} (r : Key * A) l : Permutation (insert_row r l) (r :: l).
Proof.
  induction l as [ | r' t IH ]; simpl; [ reflexivity | ].
  destruct (key_ltb (fst r) (fst r')); [ reflexivity | ].
  rewrite IH. apply perm_swap.
Qed.

Lemma sort_rows_perm {A : Type} (l : list (Key * A)) : Permutation (sort_rows l) l.
Proof.
  induction l as [ | r t IH ]; simpl; [ reflexivity | ].
  rewrite insert_row_perm. now constructor.
Qed.

(** The keys of the merged table, in the order of the merge. *)
Definition merged_keys (left right : Table) : list Key :=
  sort_keys (nodup key_eq_dec (table_keys left ++ table_keys right)).

Lemma merged_keys_In left right k :
  In k (merged_keys left right) <-> In k (table_keys left) \/ In k (table_keys right).
Proof.
  unfold merged_keys. split.
  - intros H. apply (Permutation_in _ (sort_keys_perm _)) in H.
    apply nodup_In in H. now apply in_app_or in H.
  - intros H. apply (Permutation_in _ (Permutation_sym (sort_keys_perm _))).
    apply nodup_In. now apply in_or_app.
Qed.

Lemma merged_keys_NoDup left right : NoDup (merged_keys left right).
Proof.
  unfold merged_keys.
  eapply Permutation_NoDup; [ symmetry; apply sort_keys_perm | apply NoDup_nodup ].
Qed.

Lemma cells_for_nonempty t k : cells_for t k <> [].
Proof.
  unfold cells_for. destruct (filter _ (trows t)); simpl; discriminate.
Qed.

(** The cells that a table gives a key belong to a row with that key, or
    are all missing when the table has no such row. *)
Lemma cells_for_In t k c :
  In c (cells_for t k) ->
  In (k, c) (trows t) \/ (~ In k (table_keys t) /\ c = repeat nan (width t)).
Proof.
  unfold cells_for. destruct (filter _ (trows t)) as [ | r0 rest ] eqn:E.
  - intros [<- | []]. right. split; [ | reflexivity ].
    intros Hk. unfold table_keys in Hk. apply in_map_iff in Hk.
    destruct Hk as (r & <- & Hr).
    assert (In r (filter (fun r' => key_eqb (fst r') (fst r)) (trows t))) as H
      by (apply filter_In; split; [ exact Hr | apply key_eqb_refl ]).
    rewrite E in H. contradiction.
  - rewrite <- E. intros H. apply in_map_iff in H. destruct H as (r & <- & Hr).
    apply filter_In in Hr. destruct Hr as [Hr Hk]. apply key_eqb_eq in Hk.
    left. rewrite <- Hk. now destruct r.
Qed.

Lemma merge_rows_In left right sl sr k cells :
  In (k, cells) (trows (merge left right sl sr)) <->
  In k (merged_keys left right) /\
  exists lc rc, cells = (lc ++ rc)%list /\ In lc (cells_for left k) /\ In rc (cells_for right k).
Proof.
  unfold merge. simpl. fold (merged_keys left right). rewrite in_flat_map. split.
  - intros (k' & Hk' & H). apply in_flat_map in H. destruct H as (lc & Hlc & H).
    apply in_map_iff in H. destruct H as (rc & H & Hrc). injection H as -> <-.
    split; [ exact Hk' | eauto ].
  - intros (Hk & lc & rc & -> & Hlc & Hrc). exists k. split; [ exact Hk | ].
    apply in_flat_map. exists lc. split; [ exact Hlc | ].
    apply in_map_iff. eauto.
Qed.

Lemma merge_keys_In left right sl sr k :
  In k (table_keys (merge left right sl sr)) <->
  In k (table_keys left) \/ In k (table_keys right).
Proof.
  rewrite <- merged_keys_In. unfold table_keys at 1. rewrite in_map_iff. split.
  - intros ([k' cells] & <- & H). now apply merge_rows_In in H.
  - intros Hk.
    destruct (cells_for left k) as [ | lc ? ] eqn:El; [ now apply cells_for_nonempty in El | ].
    destruct (cells_for right k) as [ | rc ? ] eqn:Er; [ now apply cells_for_nonempty in Er | ].
    exists (k, (lc ++ rc)%list). split; [ reflexivity | ].
    apply merge_rows_In. split; [ exact Hk | ].
    exists lc, rc. rewrite El, Er. simpl. auto.
Qed.

(** A table without repeated keys gives each key one run of cells. *)
Lemma cells_for_single t k :
  NoDup (table_keys t) -> exists c, cells_for t k = [c].
Proof.
  unfold cells_for, table_keys. intros H.
  induction (trows t) as [ | r rest IH ]; simpl in *; [ eauto | ].
  inversion H as [ | ? ? Hnotin Hnd ]; subst.
  destruct (key_eqb (fst r) k) eqn:E.
  - apply key_eqb_eq in E.
    assert (Hnone : filter (fun r' => key_eqb (fst r') k) rest = []).
    { apply filter_none. intros r' Hr'.
      destruct (key_eqb (fst r') k) eqn:E'; [ | reflexivity ].
      apply key_eqb_eq in E'. exfalso. apply Hnotin. rewrite E, <- E'.
      now apply in_map. }
    rewrite Hnone. simpl. eauto.
  - now apply IH.
Qed.

Lemma merge_keys_NoDup left right sl sr :
  NoDup (table_keys left) -> NoDup (table_keys right) ->
  table_keys (merge left right sl sr) = merged_keys left right.
Proof.
  intros Hl Hr. unfold table_keys at 1, merge. simpl. fold (merged_keys left right).
  induction (merged_keys left right) as [ | k ks IH ]; simpl; [ reflexivity | ].
  rewrite map_app, IH. f_equal.
  destruct (cells_for_single left k Hl) as (lc & ->).
  destruct (cells_for_single right k Hr) as (rc & ->). reflexivity.
Qed.

End MergeFacts.

Section SignalTables.
Local Open Scope float_scope.
Import frame signal.

(** Every row has one cell per column, and no cell is negative. *)
Definition table_ok (t : Table) : Prop :=
  forall k cells, In (k, cells) (trows t) ->
    List.length cells = width t /\ forall v, In v cells -> (v <? 0) = false.


Lemma width_merge left right sl sr :
  width (merge left right sl sr) = (width left + width right)%nat.
Proof. unfold width, merge, suffixed. simpl. now rewrite length_app, !length_map. Qed.

Lemma repeat_nan_not_negative n v : In v (repeat nan n) -> (v <? 0) = false.
Proof. intros H. apply repeat_spec in H. now subst. Qed.

Lemma nth_repeat_nan n i : nth i (repeat nan n) nan = nan.
Proof.
  revert i. induction n as [ | n IH ]; intros [ | i ]; simpl; auto.
Qed.

Lemma cells_for_ok t k c :
  table_ok t -> In c (cells_for t k) ->
  List.length c = width t /\ forall v, In v c -> (v <? 0) = false.
Proof.
  intros Hok Hc. apply cells_for_In in Hc. destruct Hc as [Hc | [_ ->]].
  - now apply Hok in Hc.
  - split; [ apply repeat_length | apply repeat_nan_not_negative ].
Qed.

Lemma merge_ok left right sl sr :
  table_ok left -> table_ok right -> table_ok (merge left right sl sr).
Proof.
  intros Hl Hr k cells H. apply merge_rows_In in H.
  destruct H as (_ & lc & rc & -> & Hlc & Hrc).
  destruct (cells_for_ok _ _ _ Hl Hlc) as [L1 L2].
  destruct (cells_for_ok _ _ _ Hr Hrc) as [R1 R2].
  rewrite width_merge, length_app. split; [ lia | ].
  intros v Hv. apply in_app_or in Hv. destruct Hv; auto.
Qed.



(** Score tables. *)
Definition scores_not_negative (s : Scores) : Prop :=
  forall k v, In (k, v) s -> (v <? 0) = false.


Lemma scores_table_ok name s : scores_not_negative s -> table_ok (scores_table name s).
Proof.
  intros Hs k cells H. unfold scores_table in H. simpl in H.
  apply in_map_iff in H. destruct H as ([k' v] & H & Hkv). injection H as <- <-.
  split; [ reflexivity | ]. intros x [<- | []]. now apply (Hs k').
Qed.



Lemma map_fst_combine_le {A B : Type} (l : list A) : forall (l' : list B),
  List.length l = List.length l' -> map fst (combine l l') = l.
Proof. exact (map_fst_combine_full l). Qed.

Lemma combine_normalized_not_negative (ks : list Key) raw :
  scores_not_negative (combine ks (utils.normalize_column raw 0 100)).
Proof.
  intros k v H. apply in_combine_r in H.
  revert H. apply normalize_column_not_negative. reflexivity.
Qed.

Lemma of_frame_keys df : table_keys (of_frame df) = keys df.
Proof.
  unfold table_keys, of_frame, rows, nrows. simpl. rewrite map_map.
  generalize 0%nat. induction (keys df) as [ | k ks IH ]; intros s; simpl;
    [ reflexivity | ]. now rewrite IH.
Qed.









Lemma calculate_uis_not_negative b d : scores_not_negative (calculate_uis b d).
Proof. unfold calculate_uis, normalized_scores. apply combine_normalized_not_negative. Qed.

Lemma calculate_ris_not_negative b d : scores_not_negative (calculate_ris b d).
Proof. unfold calculate_ris, normalized_scores. apply combine_normalized_not_negative. Qed.

Lemma calculate_bss_not_negative b : scores_not_negative (calculate_bss b).
Proof. unfold calculate_bss, normalized_scores. apply combine_normalized_not_negative. Qed.

Lemma calculate_tsd_not_negative b d e : scores_not_negative (calculate_tsd b d e).
Proof. unfold calculate_tsd. apply combine_normalized_not_negative. Qed.

End SignalTables.

(** ** Fixtures *)


(** The counts 0 and 1 of two regions, the second capped to 0.99. *)
Definition bio_capped : frame.DataFrame :=
  frame.mkDataFrame
    [ frame.mkKey "Kerala" "Idukki" "2025-03"; frame.mkKey "Kerala" "Wayanad" "2025-03" ]
    [ ("bio_count", [0%float; 0.99%float]) ].

Definition no_rows : frame.DataFrame := frame.mkDataFrame [] [].

Definition bio_three : frame.DataFrame :=
  frame.mkDataFrame
    [ frame.mkKey "Kerala" "Idukki" "2025-03"; frame.mkKey "Kerala" "Idukki" "2025-04";
      frame.mkKey "Goa" "North Goa" "2025-03" ]
    [ ("bio_count", [10%float; 20%float; 5%float]); ("bio_fail", [1%float; 2%float; 0%float]) ].

Definition demo_two : frame.DataFrame :=
  frame.mkDataFrame
    [ frame.mkKey "Kerala" "Idukki" "2025-03"; frame.mkKey "Goa" "North Goa" "2025-03" ]
    [ ("demo_count", [3%float; 4%float]) ].

Definition enrol_one : frame.DataFrame :=
  frame.mkDataFrame
    [ frame.mkKey "Kerala" "Idukki" "2025-05" ]
    [ ("enrol_count", [7%float]) ].

Section AllSignals.
Local Open Scope float_scope.
Import frame signal.

Definition key_of (r : index.SignalRow) : Key :=
  mkKey (index.state r) (index.district r) (index.period r).

Lemma key_of_signal_row r : key_of (signal_row r) = fst r.
Proof. unfold key_of, signal_row. simpl. now destruct (fst r). Qed.

Definition signals_table (b d e : DataFrame) : Table :=
  merge (merge (merge (scores_table "UIS" (calculate_uis b d))
                      (scores_table "RIS" (calculate_ris b d)) "_x" "_y")
               (scores_table "BSS" (calculate_bss b)) "_x" "_y")
        (scores_table "TSD" (calculate_tsd b d e)) "_x" "_y".

Lemma calculate_all_signals_rows b d e :
  calculate_all_signals b d e = map signal_row (trows (signals_table b d e)).
Proof. reflexivity. Qed.



Lemma signals_table_ok b d e : table_ok (signals_table b d e).
Proof.
  unfold signals_table.
  repeat apply merge_ok; apply scores_table_ok;
    auto using calculate_uis_not_negative, calculate_ris_not_negative,
               calculate_bss_not_negative, calculate_tsd_not_negative.
Qed.

(** The value of a signal: the cell, or 0 for a missing one. *)
Lemma filled_cell_ok cells i :
  (forall v, In v cells -> (v <? 0) = false) -> (i < List.length cells)%nat ->
  let v := nth i cells nan in
  let filled := if PrimFloat.is_nan v then 0 else v in
  defined filled /\ (0 <=? filled) = true.
Proof.
  intros Hc Hi v filled. subst filled.
  destruct (PrimFloat.is_nan v) eqn:E; [ split; reflexivity | ].
  split; [ exact E | ].
  apply fnltb_leb; [ exact E | reflexivity | ].
  apply Hc. now apply nth_In.
Qed.

End AllSignals.

Definition demo_zero : frame.DataFrame :=
  frame.mkDataFrame
    [ frame.mkKey "Kerala" "Idukki" "2025-03"; frame.mkKey "Kerala" "Wayanad" "2025-03" ]
    [ ("demo_count", [0%float; 0%float]) ].

Definition enrol_zero : frame.DataFrame :=
  frame.mkDataFrame
    [ frame.mkKey "Kerala" "Idukki" "2025-03"; frame.mkKey "Kerala" "Wayanad" "2025-03" ]
    [ ("enrol_count", [0%float; 0%float]) ].


Section AllSignalsSpec.
Local Open Scope float_scope.
Import frame signal.







End AllSignalsSpec.

(** * index.py: validation, ranks and the whole calculation *)

Section ValidateSignals.
Local Open Scope float_scope.
Import index.

Lemma any_negative_false s :
  pd.any_negative s = false <-> forall x, In x s -> (x <? 0) = false.
Proof.
  unfold pd.any_negative. split.
  - intros H x Hx. destruct (x <? 0) eqn:E; [ | reflexivity ].
    rewrite <- H. symmetry. apply existsb_exists. eauto.
  - intros H. destruct (existsb _ s) eqn:E; [ | reflexivity ].
    apply existsb_exists in E. destruct E as (x & Hx & E). now rewrite (H x Hx) in E.
Qed.


Lemma any_negative_column (col : SignalRow -> float) df :
  pd.any_negative (map col df) = false <-> forall r, In r df -> (col r <? 0) = false.
Proof.
  rewrite any_negative_false. split.
  - intros H r Hr. apply H. now apply in_map.
  - intros H x Hx. apply in_map_iff in Hx. destruct Hx as (r & <- & Hr). auto.
Qed.


Lemma validate_signals_passes df :
  (forall r, In r df ->
     (UIS r <? 0) = false /\ (RIS r <? 0) = false /\
     (BSS r <? 0) = false /\ (TSD r <? 0) = false) ->
  validate_signals df = Ok true.
Proof.
  intros H. unfold validate_signals.
  rewrite (proj2 (any_negative_column UIS df)) by (intros r Hr; apply (H r Hr)).
  rewrite (proj2 (any_negative_column RIS df)) by (intros r Hr; apply (H r Hr)).
  rewrite (proj2 (any_negative_column BSS df)) by (intros r Hr; apply (H r Hr)).
  rewrite (proj2 (any_negative_column TSD df)) by (intros r Hr; apply (H r Hr)).
  reflexivity.
Qed.

Lemma validate_signals_Ok df v :
  validate_signals df = Ok v ->
  v = true /\
  forall r, In r df ->
    (UIS r <? 0) = false /\ (RIS r <? 0) = false /\
    (BSS r <? 0) = false /\ (TSD r <? 0) = false.
Proof.
  unfold validate_signals.
  destruct (pd.any_negative (map UIS df)) eqn:E1; [ discriminate | ].
  destruct (pd.any_negative (map RIS df)) eqn:E2; [ discriminate | ].
  destruct (pd.any_negative (map BSS df)) eqn:E3; [ discriminate | ].
  destruct (pd.any_negative (map TSD df)) eqn:E4; [ discriminate | ].
  intros H. injection H as <-. split; [ reflexivity | ]. intros r Hr.
  split; [ now apply (proj1 (any_negative_column UIS df)) | ].
  split; [ now apply (proj1 (any_negative_column RIS df)) | ].
  split; [ now apply (proj1 (any_negative_column BSS df)) | ].
  now apply (proj1 (any_negative_column TSD df)).
Qed.

Lemma validate_signals_Raise df e :
  validate_signals df = Raise e ->
  exists col, e = ValueError_negative col /\ In col ["UIS"; "RIS"; "BSS"; "TSD"]%string.
Proof.
  unfold validate_signals.
  destruct (pd.any_negative (map UIS df));
    [ intros H; injection H as <-; eexists; split; [ reflexivity | simpl; tauto ] | ].
  destruct (pd.any_negative (map RIS df));
    [ intros H; injection H as <-; eexists; split; [ reflexivity | simpl; tauto ] | ].
  destruct (pd.any_negative (map BSS df));
    [ intros H; injection H as <-; eexists; split; [ reflexivity | simpl; tauto ] | ].
  destruct (pd.any_negative (map TSD df));
    [ intros H; injection H as <-; eexists; split; [ reflexivity | simpl; tauto ] | ].
  discriminate.
Qed.


End ValidateSignals.

Section SignalsValid.
Local Open Scope float_scope.
Import frame signal.

Lemma signals_table_row_length b d e k cells :
  In (k, cells) (trows (signals_table b d e)) -> List.length cells = 4%nat.
Proof.
  intros Hrow. destruct (signals_table_ok b d e k cells Hrow) as [Hlen _].
  rewrite Hlen. unfold signals_table. rewrite !width_merge.
  unfold width, scores_table. cbn [names List.length]. lia.
Qed.

Lemma calculate_all_signals_not_negative b d e r :
  In r (calculate_all_signals b d e) ->
  (index.UIS r <? 0) = false /\ (index.RIS r <? 0) = false /\
  (index.BSS r <? 0) = false /\ (index.TSD r <? 0) = false.
Proof.
  rewrite calculate_all_signals_rows. intros Hr. apply in_map_iff in Hr.
  destruct Hr as ([k cells] & <- & Hrow).
  destruct (signals_table_ok b d e k cells Hrow) as [_ Hnn].
  pose proof (signals_table_row_length b d e k cells Hrow) as Hw.
  unfold signal_row. cbn [index.UIS index.RIS index.BSS index.TSD fst snd].
  split; [ apply fleb_nltb, (filled_cell_ok cells 0 Hnn); lia | ].
  split; [ apply fleb_nltb, (filled_cell_ok cells 1 Hnn); lia | ].
  split; [ apply fleb_nltb, (filled_cell_ok cells 2 Hnn); lia | ].
  apply fleb_nltb, (filled_cell_ok cells 3 Hnn); lia.
Qed.

(** The signals table that [calculate_all_signals] builds always passes
    [validate_signals], whatever the three datasets hold. *)
Theorem calculate_all_signals_passes_validation :
  forall b d e, index.validate_signals (calculate_all_signals b d e) = Ok true.
Proof.
  intros b d e. apply validate_signals_passes.
  intros r Hr. exact (calculate_all_signals_not_negative b d e r Hr).
Qed.

End SignalsValid.

Section RankOrder.
Local Open Scope float_scope.
Import index.

Lemma count_above x (l : list AfiRow) :
  List.length (above x (map AFI l)) = List.length (filter (fun r' => x <? AFI r') l).
Proof.
  unfold above. induction l as [ | a t IH ]; simpl; [ reflexivity | ].
  destruct (x <? AFI a); simpl; now rewrite IH.
Qed.

Lemma rank_min_desc_in_Some_defined population x r :
  pd.rank_min_desc_in population x = Some r -> defined x.
Proof.
  unfold pd.rank_min_desc_in. intros H. apply first_pos_found in H.
  destruct H as (e & _ & He). now apply feqb_defined_r in He.
Qed.

Lemma rank_min_desc_in_nan population x :
  PrimFloat.is_nan x = true -> pd.rank_min_desc_in population x = None.
Proof.
  intros Hx. destruct (pd.rank_min_desc_in population x) as [ r | ] eqn:E; [ | reflexivity ].
  apply rank_min_desc_in_Some_defined in E. unfold defined in E. congruence.
Qed.

Lemma mapM_Raise {A B : Type} (f : A -> result B) (l : list A) e :
  mapM f l = Raise e -> exists a, In a l /\ f a = Raise e.
Proof.
  induction l as [ | a t IH ]; simpl; [ discriminate | ].
  destruct (f a) as [ b | e' ] eqn:Ea; simpl.
  - destruct (mapM f t) as [ bs | e'' ]; simpl; [ discriminate | ].
    intros H. injection H as ->. destruct (IH eq_refl) as (x & Hx & Ex). eauto.
  - intros H. injection H as ->. eauto.
Qed.

Lemma mapM_fails {A B : Type} (f : A -> result B) (l : list A) e :
  (exists a, In a l /\ f a = Raise e) ->
  (forall a e', In a l -> f a = Raise e' -> e' = e) ->
  mapM f l = Raise e.
Proof.
  intros Hex Hall. destruct (mapM f l) as [ out | e' ] eqn:E.
  - apply mapM_Ok in E. destruct Hex as (a & Ha & Ea).
    exfalso. revert Ha. induction E as [ | x y l l' Hxy _ IH ]; simpl; [ tauto | ].
    intros [ -> | Hin ]; [ congruence | ].
    apply IH; [ | exact Hin ]. intros a' e'' Ha'. apply Hall. now right.
  - apply mapM_Raise in E. destruct E as (a & Ha & Ea). f_equal. eauto.
Qed.

Lemma astype_int_Raise s e : pd.astype_int s = Raise e -> e = IntCastingNaNError /\ In None s.
Proof.
  unfold pd.astype_int. intros H. apply mapM_Raise in H.
  destruct H as ([ z | ] & Hin & E); [ discriminate | ].
  injection E as <-. auto.
Qed.

Lemma astype_int_fails s : In None s -> pd.astype_int s = Raise IntCastingNaNError.
Proof.
  intros H. unfold pd.astype_int. apply mapM_fails.
  - exists None. auto.
  - intros [ z | ] e' _ E; [ discriminate | now injection E as <- ].
Qed.

Lemma add_rankings_total df :
  (forall r, In r df -> defined (AFI r)) -> exists out, add_rankings df = Ok out.
Proof.
  intros Hd. unfold add_rankings.
  destruct (mapM_total
    (fun r => match r with Some z => Ok z | None => Raise IntCastingNaNError end)
    (pd.rank_min_desc (map AFI df))) as (national & E1).
  { intros o Ho. unfold pd.rank_min_desc in Ho. apply in_map_iff in Ho.
    destruct Ho as (x & <- & Hx).
    destruct (rank_min_desc_in_defined (map AFI df) x Hx) as (z & ->); [ | eauto ].
    apply in_map_iff in Hx. destruct Hx as (r & <- & Hr). auto. }
  destruct (mapM_total
    (fun r => match r with Some z => Ok z | None => Raise IntCastingNaNError end)
    (map (fun r => pd.rank_min_desc_in (map AFI (state_group df r)) (AFI r)) df))
    as (by_state & E2).
  { intros o Ho. apply in_map_iff in Ho. destruct Ho as (r & <- & Hr).
    destruct (rank_min_desc_in_defined (map AFI (state_group df r)) (AFI r))
      as (z & ->); [ | auto | eauto ].
    apply in_map. unfold state_group. apply filter_In. split; [ exact Hr | ].
    apply String.eqb_refl. }
  unfold pd.astype_int. rewrite E1, E2. simpl. eauto.
Qed.

Lemma add_rankings_Raise df e :
  add_rankings df = Raise e ->
  e = IntCastingNaNError /\ exists r, In r df /\ PrimFloat.is_nan (AFI r) = true.
Proof.
  intros H.
  assert (He : e = IntCastingNaNError).
  { unfold add_rankings in H.
    destruct (pd.astype_int (pd.rank_min_desc (map AFI df))) as [ national | e1 ] eqn:E1;
      simpl in H.
    - destruct (pd.astype_int (map _ df)) as [ by_state | e2 ] eqn:E2; simpl in H;
        [ discriminate | ].
      injection H as ->. now apply astype_int_Raise in E2.
    - injection H as ->. now apply astype_int_Raise in E1. }
  split; [ exact He | ].
  assert (Hn : ~ forall r, In r df -> defined (AFI r)).
  { intros Hd. destruct (add_rankings_total df Hd) as (out & E). congruence. }
  clear H He. induction df as [ | a t IH ]; [ exfalso; apply Hn; intros r [] | ].
  destruct (PrimFloat.is_nan (AFI a)) eqn:Ea; [ exists a; simpl; auto | ].
  destruct IH as (r & Hr & E).
  - intros Hd. apply Hn. intros r [ <- | Hr ]; [ exact Ea | auto ].
  - exists r. simpl. auto.
Qed.

Lemma add_rankings_fails df :
  (exists r, In r df /\ PrimFloat.is_nan (AFI r) = true) ->
  add_rankings df = Raise IntCastingNaNError.
Proof.
  intros (r & Hr & E). unfold add_rankings.
  rewrite astype_int_fails; [ reflexivity | ].
  unfold pd.rank_min_desc. rewrite map_map. apply in_map_iff.
  exists r. split; [ | exact Hr ]. now apply rank_min_desc_in_nan.
Qed.

Lemma add_rankings_rows df out :
  add_rankings df = Ok out -> map ranked_afi_row out = df.
Proof.
  intros E. apply add_rankings_shape in E. destruct E as (national & by_state & Hn & Hs & ->).
  assert (Ln : List.length national = List.length df).
  { apply (f_equal (@List.length _)) in Hn. unfold pd.rank_min_desc in Hn.
    now rewrite !length_map in Hn. }
  assert (Ls : List.length by_state = List.length df).
  { apply (f_equal (@List.length _)) in Hs. now rewrite !length_map in Hs. }
  rewrite map_map.
  transitivity (map fst (combine df (combine national
     (combine by_state (utils.calculate_percentile_rank (map AFI df)))))).
  - apply map_ext. now intros (r & n & s & p).
  - apply map_fst_combine_full. unfold utils.calculate_percentile_rank.
    rewrite !length_combine, !length_map, Ln, Ls. lia.
Qed.

(** [add_rankings] fails exactly when some AFI is missing (NaN): then the cast
    of the ranks to integers raises, nothing else can be raised, and with
    every AFI present a table is returned, with one row for each row given. *)
Theorem add_rankings_fails_on_missing_afi :
  forall df,
    ((exists r, In r df /\ PrimFloat.is_nan (AFI r) = true) ->
     add_rankings df = Raise IntCastingNaNError) /\
    (forall e, add_rankings df = Raise e ->
       e = IntCastingNaNError /\ exists r, In r df /\ PrimFloat.is_nan (AFI r) = true) /\
    ((forall r, In r df -> defined (AFI r)) ->
     exists out, add_rankings df = Ok out /\ map ranked_afi_row out = df).
Proof.
  intros df. split; [ apply add_rankings_fails | ]. split; [ apply add_rankings_Raise | ].
  intros Hd. destruct (add_rankings_total df Hd) as (out & E). exists out.
  split; [ exact E | now apply add_rankings_rows ].
Qed.

End RankOrder.

Definition afi_with_gap : list index.AfiRow :=
  [ index.mkAfiRow (index.mkRawRow (index.mkSignalRow "Kerala" "Idukki" "2025-03" 1 1 1 1) 1) 100%float;
    index.mkAfiRow (index.mkRawRow (index.mkSignalRow "Goa" "North Goa" "2025-03" 0 0 0 0) 0) nan ].

Lemma add_rankings_fails_on_missing_afi_witness :
  index.add_rankings afi_with_gap = Raise IntCastingNaNError.
Proof.
  apply (proj1 (add_rankings_fails_on_missing_afi afi_with_gap)).
  eexists. split; [ right; left; reflexivity | reflexivity ].
Defined.

Section RankBounds.
Local Open Scope float_scope.
Import index.

(** The ranks of a row of the result, by the numbers of AFI values above. *)
Lemma add_rankings_above df out r :
  add_rankings df = Ok out -> In r out ->
  In (ranked_afi_row r) df /\ defined (AFI (ranked_afi_row r)) /\
  national_rank r
    = (1 + Z.of_nat (List.length (above (AFI (ranked_afi_row r)) (map AFI df))))%Z /\
  state_rank r
    = (1 + Z.of_nat (List.length
             (above (AFI (ranked_afi_row r))
                    (map AFI (state_group df (ranked_afi_row r))))))%Z.
Proof.
  intros E Hr.
  assert (Hin : In (ranked_afi_row r) df).
  { rewrite <- (add_rankings_rows df out E). now apply in_map. }
  split; [ exact Hin | ].
  apply add_rankings_shape in E. destruct E as (national & by_state & Hn & Hs & ->).
  apply in_map_iff in Hr. destruct Hr as ((a & n & s & p) & <- & Hc). simpl in *.
  apply in_combine3 in Hc. destruct Hc as [Hn' Hc].
  apply in_combine3 in Hc. destruct Hc as [Hs' _].
  unfold pd.rank_min_desc in Hn. rewrite map_map in Hn.
  apply (in_combine_map_Some _ _ _ _ _ Hn) in Hn'.
  apply (in_combine_map_Some _ _ _ _ _ Hs) in Hs'.
  split; [ now apply rank_min_desc_in_Some_defined in Hn' | ].
  split; now apply rank_min_desc_in_spec.
Qed.

Lemma filter_length_le {A : Type} (f : A -> bool) (l : list A) :
  (List.length (filter f l) <= List.length l)%nat.
Proof. induction l as [ | a t IH ]; simpl; [ lia | destruct (f a); simpl; lia ]. Qed.

Lemma filter_length_lt {A : Type} (f : A -> bool) (l : list A) a :
  In a l -> f a = false -> (List.length (filter f l) < List.length l)%nat.
Proof.
  induction l as [ | x t IH ]; simpl; [ tauto | ].
  intros [ -> | Hin ] Ha.
  - rewrite Ha. pose proof (filter_length_le f t). lia.
  - specialize (IH Hin Ha). destruct (f x); simpl; lia.
Qed.

Lemma filter_length_mono {A : Type} (f g : A -> bool) (l : list A) :
  (forall x, In x l -> f x = true -> g x = true) ->
  (List.length (filter f l) <= List.length (filter g l))%nat.
Proof.
  induction l as [ | a t IH ]; simpl; intros H; [ lia | ].
  assert (IH' := IH (fun x Hx => H x (or_intror Hx))).
  destruct (f a) eqn:Ef.
  - rewrite (H a (or_introl eq_refl) Ef). simpl. lia.
  - destruct (g a); simpl; lia.
Qed.

Lemma filter_length_strict {A : Type} (f g : A -> bool) (l : list A) a :
  (forall x, In x l -> f x = true -> g x = true) ->
  In a l -> f a = false -> g a = true ->
  (List.length (filter f l) < List.length (filter g l))%nat.
Proof.
  induction l as [ | x t IH ]; simpl; intros H Hin Hf Hg; [ tauto | ].
  destruct Hin as [ -> | Hin ].
  - rewrite Hf, Hg. simpl.
    pose proof (filter_length_mono f g t (fun x Hx => H x (or_intror Hx))). lia.
  - assert (IH' := IH (fun x Hx => H x (or_intror Hx)) Hin Hf Hg).
    destruct (f x) eqn:Ef.
    + rewrite (H x (or_introl eq_refl) Ef). simpl. lia.
    + destruct (g x); simpl; lia.
Qed.

Lemma above_state_group_le x df a :
  (List.length (above x (map AFI (state_group df a)))
   <= List.length (above x (map AFI df)))%nat.
Proof.
  rewrite !count_above. unfold state_group.
  induction df as [ | r t IH ]; simpl; [ lia | ].
  destruct (String.eqb (afi_state r) (afi_state a)); simpl; destruct (x <? AFI r); simpl; lia.
Qed.

(** In the table that [add_rankings] returns, a row's ranks satisfy
    [1 <= state_rank <= national_rank <= number of rows], and when the table
    is not empty some row has the national rank 1. *)
Theorem add_rankings_rank_bounds :
  forall df out,
    add_rankings df = Ok out ->
    (forall r, In r out ->
       (1 <= state_rank r)%Z /\ (state_rank r <= national_rank r)%Z /\
       (national_rank r <= Z.of_nat (List.length df))%Z) /\
    (df <> [] -> exists r, In r out /\ national_rank r = 1%Z /\ state_rank r = 1%Z).
Proof.
  intros df out E. split.
  - intros r Hr. destruct (add_rankings_above df out r E Hr) as (Hin & Hd & -> & ->).
    split; [ lia | ]. split.
    + pose proof (above_state_group_le (AFI (ranked_afi_row r)) df (ranked_afi_row r)). lia.
    + rewrite count_above.
      pose proof (filter_length_lt (fun r' => AFI (ranked_afi_row r) <? AFI r') df
                    (ranked_afi_row r) Hin (fltb_irrefl _)). lia.
  - intros Hne.
    assert (Hall : forall r, In r out -> defined (AFI (ranked_afi_row r))).
    { intros r Hr. now destruct (add_rankings_above df out r E Hr) as (_ & Hd & _). }
    destruct (series_max_spec (map AFI df)) as [ [Hnan _] | (Hd & Hin & Hmax) ].
    + exfalso. destruct df as [ | a t ]; [ now apply Hne | ].
      assert (Ha : In a (map ranked_afi_row out)).
      { rewrite (add_rankings_rows _ _ E). now left. }
      apply in_map_iff in Ha. destruct Ha as (r & Hra & Hr).
      specialize (Hall r Hr). rewrite Hra in Hall.
      rewrite Forall_forall in Hnan. specialize (Hnan (AFI a) (or_introl eq_refl)).
      unfold defined in Hall. congruence.
    + apply in_map_iff in Hin. destruct Hin as (a & Ha & Hin).
      assert (Hr : In a (map ranked_afi_row out)) by now rewrite (add_rankings_rows _ _ E).
      apply in_map_iff in Hr. destruct Hr as (r & Hra & Hr).
      exists r. split; [ exact Hr | ].
      destruct (add_rankings_above df out r E Hr) as (_ & _ & Hn & Hs).
      assert (Hz : List.length (above (AFI (ranked_afi_row r)) (map AFI df)) = 0%nat).
      { rewrite Hra, Ha. unfold above. rewrite filter_none; [ reflexivity | ].
        intros z Hz. destruct (PrimFloat.is_nan z) eqn:Ez.
        - now apply not_defined_ltb_r.
        - apply fleb_nltb. now apply Hmax. }
      pose proof (above_state_group_le (AFI (ranked_afi_row r)) df (ranked_afi_row r)).
      split; lia.
Qed.

Lemma add_rankings_rank_bounds_witness :
  exists out, add_rankings fixture_afi = Ok out /\
    Forall (fun r => (1 <= state_rank r <= national_rank r)%Z /\ (national_rank r <= 3)%Z) out.
Proof.
  destruct (add_rankings fixture_afi) as [ out | e ] eqn:E; [ | vm_compute in E; discriminate E ].
  exists out. split; [ reflexivity | ].
  apply Forall_forall. intros r Hr.
  destruct (proj1 (add_rankings_rank_bounds fixture_afi out E) r Hr) as (H1 & H2 & H3).
  simpl in H3. lia.
Defined.

(** In the table that [add_rankings] returns, the national ranks order the
    rows as the AFI does, the other way round: a row has a greater AFI than
    another exactly when its national rank is smaller, and the same AFI
    exactly when the ranks are equal; within one state the state ranks do
    the same. *)
Theorem add_rankings_order :
  forall df out,
    add_rankings df = Ok out ->
    forall r1 r2, In r1 out -> In r2 out ->
      let a1 := AFI (ranked_afi_row r1) in
      let a2 := AFI (ranked_afi_row r2) in
      ((a1 <? a2) = true <-> (national_rank r2 < national_rank r1)%Z) /\
      ((a1 =? a2) = true <-> national_rank r1 = national_rank r2) /\
      (afi_state (ranked_afi_row r1) = afi_state (ranked_afi_row r2) ->
       ((a1 <? a2) = true <-> (state_rank r2 < state_rank r1)%Z) /\
       ((a1 =? a2) = true <-> state_rank r1 = state_rank r2)).
Proof.
  intros df out E r1 r2 H1 H2 a1 a2.
  destruct (add_rankings_above df out r1 E H1) as (Hin1 & Hd1 & Hn1 & Hs1).
  destruct (add_rankings_above df out r2 E H2) as (Hin2 & Hd2 & Hn2 & Hs2).
  fold a1 in Hd1, Hn1, Hs1. fold a2 in Hd2, Hn2, Hs2.
  assert (Hlt : forall (l : list AfiRow) x y b,
             In b l -> AFI b = y -> (x <? y) = true ->
             (List.length (above y (map AFI l)) < List.length (above x (map AFI l)))%nat).
  { intros l x y b Hb Hy Hxy. rewrite !count_above.
    apply (filter_length_strict _ _ l b).
    - intros z _ Hz. now apply (fltb_trans x y (AFI z)).
    - exact Hb.
    - rewrite Hy. apply fltb_irrefl.
    - now rewrite Hy. }
  assert (Heq : forall (l : list AfiRow) x y,
             (x =? y) = true ->
             List.length (above x (map AFI l)) = List.length (above y (map AFI l))).
  { intros l x y Hxy. unfold above. f_equal. apply filter_ext.
    intros z. now apply feqb_ltb_l. }
  assert (Htri : (a1 <? a2) = true \/ (a1 =? a2) = true \/ (a2 <? a1) = true).
  { destruct (a1 <? a2) eqn:E12; [ now left | right ].
    pose proof (fnltb_leb a1 a2 Hd1 Hd2 E12) as Hle.
    destruct (fleb_lt_or_eq _ _ Hle) as [ H | H ]; [ now right | left ].
    now rewrite feqb_sym. }
  assert (Hcases : forall (l : list AfiRow),
             In (ranked_afi_row r1) l -> In (ranked_afi_row r2) l ->
             let n1 := List.length (above a1 (map AFI l)) in
             let n2 := List.length (above a2 (map AFI l)) in
             ((a1 <? a2) = true <-> (n2 < n1)%nat) /\ ((a1 =? a2) = true <-> n1 = n2)).
  { intros l Hl1 Hl2 n1 n2.
    destruct Htri as [ H | [ H | H ] ].
    - pose proof (Hlt l a1 a2 _ Hl2 eq_refl H) as Hn. fold n1 n2 in Hn.
      split; split; intros H'; try lia; try exact H.
      exfalso. pose proof (fltb_leb _ _ H) as Hle.
      assert (Hx : (a1 <? a1) = true).
      { apply (fltb_leb_trans a1 a2 a1 H). rewrite feqb_sym in H'. now apply feqb_leb. }
      now rewrite fltb_irrefl in Hx.
    - pose proof (Heq l a1 a2 H) as Hn. fold n1 n2 in Hn.
      split; split; intros H'; try lia; try exact H.
      exfalso.
      assert (Hx : (a1 <? a1) = true).
      { apply (fltb_leb_trans a1 a2 a1 H'). rewrite feqb_sym in H. now apply feqb_leb. }
      now rewrite fltb_irrefl in Hx.
    - pose proof (Hlt l a2 a1 _ Hl1 eq_refl H) as Hn. fold n1 n2 in Hn.
      split; split; intros H'; try lia; exfalso.
      + rewrite (fltb_asym _ _ H) in H'. discriminate.
      + assert (Hx : (a2 <? a2) = true).
        { apply (fltb_leb_trans a2 a1 a2 H). now apply feqb_leb. }
        now rewrite fltb_irrefl in Hx. }
  split; [ | split ].
  - destruct (Hcases df Hin1 Hin2) as [Hc _]. rewrite Hc, Hn1, Hn2. lia.
  - destruct (Hcases df Hin1 Hin2) as [_ Hc]. rewrite Hc, Hn1, Hn2. lia.
  - intros Hst.
    assert (Hg : state_group df (ranked_afi_row r2) = state_group df (ranked_afi_row r1)).
    { unfold state_group. now rewrite Hst. }
    rewrite Hg in Hs2.
    assert (Hg1 : In (ranked_afi_row r1) (state_group df (ranked_afi_row r1))).
    { apply filter_In. split; [ exact Hin1 | apply String.eqb_refl ]. }
    assert (Hg2 : In (ranked_afi_row r2) (state_group df (ranked_afi_row r1))).
    { apply filter_In. split; [ exact Hin2 | ]. rewrite Hst. apply String.eqb_refl. }
    destruct (Hcases _ Hg1 Hg2) as [Hc1 Hc2]. rewrite Hc1, Hc2, Hs1, Hs2. lia.
Qed.

Lemma add_rankings_order_witness :
  exists out, add_rankings fixture_afi = Ok out /\
    forall r1 r2, In r1 out -> In r2 out ->
      ((AFI (ranked_afi_row r1) <? AFI (ranked_afi_row r2)) = true
       <-> (national_rank r2 < national_rank r1)%Z).
Proof.
  destruct (add_rankings fixture_afi) as [ out | e ] eqn:E; [ | vm_compute in E; discriminate E ].
  exists out. split; [ reflexivity | ].
  intros r1 r2 H1 H2. exact (proj1 (add_rankings_order fixture_afi out E r1 r2 H1 H2)).
Defined.

End RankBounds.

Section NormalizeAfi.
Local Open Scope float_scope.
Import index.

Lemma normalize_afi_rows df :
  normalize_afi df =
  map (fun r => mkAfiRow r (100 * (AFI_raw r - pd.series_min (map AFI_raw df))
                               / (pd.series_max (map AFI_raw df)
                                  - pd.series_min (map AFI_raw df)))) df.
Proof. reflexivity. Qed.

Lemma normalize_afi_raw_rows df : map afi_raw_row (normalize_afi df) = df.
Proof. rewrite normalize_afi_rows, map_map. simpl. apply map_id. Qed.

Lemma scaled_nan x lo hi : PrimFloat.is_nan x = true -> 100 * (x - lo) / (hi - lo) = nan.
Proof.
  intros H. apply Prim2SF_inj.
  rewrite div_spec, mul_spec, !sub_spec, (is_nan_Prim2SF x H). reflexivity.
Qed.

Lemma scaled_not_negative x lo hi :
  (lo <=? x) = true -> (lo <? hi) = true -> (100 * (x - lo) / (hi - lo) <? 0) = false.
Proof.
  intros Hx Hhi. apply fnonneg_spec.
  rewrite div_spec, mul_spec, !sub_spec.
  rewrite FloatAxioms.leb_spec in Hx. rewrite FloatAxioms.ltb_spec in Hhi.
  apply SFdiv_nonneg; [ apply SFmul_nonneg | ].
  - apply SFnonneg_spec. vm_compute. reflexivity.
  - apply SFsub_nonneg; auto using Prim2SF_valid.
  - apply SFsub_sign_clear; auto using Prim2SF_valid.
Qed.

(** An AFI that is a number is not negative. *)
Lemma normalize_afi_not_negative df r :
  In r (normalize_afi df) -> (AFI r <? 0) = false.
Proof.
  rewrite normalize_afi_rows. intros Hr. apply in_map_iff in Hr.
  destruct Hr as (a & <- & Ha). simpl.
  set (lo := pd.series_min (map AFI_raw df)). set (hi := pd.series_max (map AFI_raw df)).
  destruct (PrimFloat.is_nan (AFI_raw a)) eqn:Ea.
  { rewrite (scaled_nan _ lo hi Ea). reflexivity. }
  assert (Hin : In (AFI_raw a) (map AFI_raw df)) by now apply in_map.
  destruct (extremes_of_defined_entry _ _ Hin Ea) as (Dlo & Dhi & _ & Hhi_in & Hlo & Hhi).
  fold lo in Dlo, Hlo. fold hi in Dhi, Hhi.
  destruct (lo <? hi) eqn:E.
  - now apply scaled_not_negative.
  - assert (Heq : (hi =? lo) = true).
    { apply fleb_antisym; [ now apply fnltb_leb | now apply (fleb_trans lo (AFI_raw a) hi) ]. }
    assert (Hx : (AFI_raw a =? lo) = true).
    { apply fleb_antisym; [ | exact Hlo ].
      apply (fleb_trans _ hi); [ exact Hhi | now apply feqb_leb ]. }
    rewrite (degenerate_rescale _ _ _ Hx Heq). reflexivity.
Qed.

Lemma normalize_afi_equal_scores df :
  (forall r r', In r df -> In r' df -> (AFI_raw r =? AFI_raw r') = true) ->
  forall r, In r (normalize_afi df) -> PrimFloat.is_nan (AFI r) = true.
Proof.
  intros Heq r Hr. rewrite normalize_afi_rows in Hr. apply in_map_iff in Hr.
  destruct Hr as (a & <- & Ha). simpl.
  assert (Hin : In (AFI_raw a) (map AFI_raw df)) by now apply in_map.
  assert (Da : defined (AFI_raw a)) by (apply (feqb_defined_l _ (AFI_raw a)); auto).
  destruct (extremes_of_defined_entry _ _ Hin Da) as (_ & _ & Hlo_in & Hhi_in & _).
  apply in_map_iff in Hlo_in. destruct Hlo_in as (l & El & Hl).
  apply in_map_iff in Hhi_in. destruct Hhi_in as (h & Eh & Hh).
  rewrite (degenerate_rescale (AFI_raw a) _ _); [ reflexivity | | ].
  - rewrite <- El. auto.
  - rewrite <- El, <- Eh. auto.
Qed.

Lemma normalize_afi_missing_score df r :
  In r (normalize_afi df) -> PrimFloat.is_nan (AFI_raw (afi_raw_row r)) = true ->
  PrimFloat.is_nan (AFI r) = true.
Proof.
  rewrite normalize_afi_rows. intros Hr. apply in_map_iff in Hr.
  destruct Hr as (a & <- & Ha). simpl. intros E. now rewrite scaled_nan.
Qed.

(** In the table of [normalize_afi] no AFI is below zero: an AFI is a number
    that is not negative, or NaN, and it is NaN for a record whose raw score
    is NaN; the records are kept as they are, in their order. *)
Theorem normalize_afi_not_below_zero :
  forall df,
    (forall r, In r (normalize_afi df) ->
       (AFI r <? 0) = false /\ (defined (AFI r) -> (0 <=? AFI r) = true)) /\
    (forall r, In r (normalize_afi df) ->
       PrimFloat.is_nan (AFI_raw (afi_raw_row r)) = true -> PrimFloat.is_nan (AFI r) = true) /\
    map afi_raw_row (normalize_afi df) = df.
Proof.
  intros df. split; [ | split ].
  - intros r Hr. pose proof (normalize_afi_not_negative df r Hr) as H.
    split; [ exact H | ]. intros D. apply fnltb_leb; [ exact D | reflexivity | exact H ].
  - apply normalize_afi_missing_score.
  - apply normalize_afi_raw_rows.
Qed.

End NormalizeAfi.

Section WholeCalculation.
Local Open Scope float_scope.
Import index pipeline.

Definition afi_not_above (r r' : IndexRow) : Prop := (afi_of r <? afi_of r') = false.

Lemma insert_by_afi_perm r l : Permutation (insert_by_afi r l) (r :: l).
Proof.
  induction l as [ | a t IH ]; simpl; [ reflexivity | ].
  destruct (afi_of r <? afi_of a); [ | reflexivity ].
  rewrite IH. apply perm_swap.
Qed.

Lemma sorted_part_perm l : Permutation (fold_right insert_by_afi [] l) l.
Proof.
  induction l as [ | a t IH ]; simpl; [ reflexivity | ].
  rewrite insert_by_afi_perm. now constructor.
Qed.

Lemma filter_split_perm {A : Type} (f : A -> bool) (l : list A) :
  Permutation (filter (fun x => negb (f x)) l ++ filter f l) l.
Proof.
  induction l as [ | a t IH ]; simpl; [ reflexivity | ].
  destruct (f a); simpl.
  - rewrite <- Permutation_middle. now constructor.
  - now constructor.
Qed.

Lemma sort_values_afi_desc_perm df : Permutation (sort_values_afi_desc df) df.
Proof.
  unfold sort_values_afi_desc. rewrite sorted_part_perm.
  apply (filter_split_perm (fun r => PrimFloat.is_nan (afi_of r))).
Qed.

Lemma insert_by_afi_sorted r l :
  defined (afi_of r) -> Forall (fun x => defined (afi_of x)) l ->
  StronglySorted afi_not_above l -> StronglySorted afi_not_above (insert_by_afi r l).
Proof.
  intros Dr Dl Hs. induction Hs as [ | a t Ht IH Ha ]; simpl.
  - repeat constructor.
  - inversion Dl as [ | ? ? Da Dt ]; subst.
    destruct (afi_of r <? afi_of a) eqn:E.
    + constructor; [ now apply IH | ].
      eapply Permutation_Forall; [ symmetry; apply insert_by_afi_perm | ].
      constructor; [ | exact Ha ]. unfold afi_not_above. now apply fltb_asym.
    + constructor; [ now constructor | ].
      constructor; [ exact E | ].
      rewrite Forall_forall in *. intros x Hx. unfold afi_not_above in *.
      apply fleb_nltb. apply (fleb_trans _ (afi_of a)).
      * apply fnltb_leb; auto.
      * apply fnltb_leb; auto.
Qed.

Lemma sorted_part_sorted l :
  Forall (fun x => defined (afi_of x)) l ->
  StronglySorted afi_not_above (fold_right insert_by_afi [] l).
Proof.
  induction l as [ | a t IH ]; simpl; intros H; [ constructor | ].
  inversion H; subst. apply insert_by_afi_sorted; auto.
  eapply Permutation_Forall; [ symmetry; apply sorted_part_perm | assumption ].
Qed.

Lemma sorted_app_missing l m :
  StronglySorted afi_not_above l ->
  Forall (fun x => PrimFloat.is_nan (afi_of x) = true) m ->
  StronglySorted afi_not_above (l ++ m).
Proof.
  intros Hl Hm. induction Hl as [ | a t Ht IH Ha ]; simpl.
  - induction Hm as [ | x m Hx Hm IH ]; constructor; [ exact IH | ].
    apply Forall_forall. intros y _. unfold afi_not_above. now apply not_defined_ltb_l.
  - constructor; [ exact IH | ].
    apply Forall_app. split; [ exact Ha | ].
    rewrite Forall_forall in *. intros y Hy. unfold afi_not_above.
    apply not_defined_ltb_r. auto.
Qed.

Lemma sort_values_afi_desc_sorted df :
  StronglySorted afi_not_above (sort_values_afi_desc df).
Proof.
  unfold sort_values_afi_desc. apply sorted_app_missing.
  - apply sorted_part_sorted. apply Forall_forall. intros x Hx.
    apply filter_In in Hx. destruct Hx as [_ Hx]. unfold defined.
    now destruct (PrimFloat.is_nan (afi_of x)).
  - apply Forall_forall. intros x Hx. apply filter_In in Hx. tauto.
Qed.

Lemma dict_get_Ok_of_raw df weights raw :
  calculate_afi_raw df weights = Ok raw ->
  np.isclose (py_sum (dict_values weights)) 1 = true /\
  exists u r b t,
    dict_get weights "UIS" = Ok u /\ dict_get weights "RIS" = Ok r /\
    dict_get weights "BSS" = Ok b /\ dict_get weights "TSD" = Ok t /\
    raw = map (fun row => mkRawRow row (u * UIS row + r * RIS row + b * BSS row + t * TSD row)) df.
Proof.
  unfold calculate_afi_raw.
  destruct (np.isclose _ 1); simpl; [ | discriminate ].
  destruct (dict_get weights "UIS") as [ u | ]; simpl; [ | discriminate ].
  destruct (dict_get weights "RIS") as [ r | ]; simpl; [ | discriminate ].
  destruct (dict_get weights "BSS") as [ b | ]; simpl; [ | discriminate ].
  destruct (dict_get weights "TSD") as [ t | ]; simpl; [ | discriminate ].
  intros H. injection H as <-. split; [ reflexivity | ].
  exists u, r, b, t. auto.
Qed.

Lemma calculate_afi_raw_signals df weights raw :
  calculate_afi_raw df weights = Ok raw -> map raw_signals raw = df.
Proof.
  intros H. apply dict_get_Ok_of_raw in H.
  destruct H as (_ & u & r & b & t & _ & _ & _ & _ & ->).
  rewrite map_map. simpl. apply map_id.
Qed.

(** The steps of [calculate_afi] once the signals and the weights are
    accepted. *)
Lemma calculate_afi_steps df weights raw :
  validate_signals df = Ok true ->
  calculate_afi_raw df weights = Ok raw ->
  calculate_afi df weights =
  (ranked <- add_rankings (normalize_afi raw) ;;
   Ok (sort_values_afi_desc (add_categories ranked))).
Proof.
  intros Hv Hraw. unfold calculate_afi. rewrite Hv, Hraw. simpl.
  apply dict_get_Ok_of_raw in Hraw.
  destruct Hraw as (_ & u & r & b & t & -> & -> & -> & -> & _). reflexivity.
Qed.

Lemma calculate_afi_Ok df weights out :
  calculate_afi df weights = Ok out ->
  exists raw ranked,
    validate_signals df = Ok true /\
    calculate_afi_raw df weights = Ok raw /\
    add_rankings (normalize_afi raw) = Ok ranked /\
    out = sort_values_afi_desc (add_categories ranked).
Proof.
  unfold calculate_afi.
  destruct (validate_signals df) as [ v | ] eqn:Ev; simpl; [ | discriminate ].
  destruct (dict_get weights "UIS"); simpl; [ | discriminate ].
  destruct (dict_get weights "RIS"); simpl; [ | discriminate ].
  destruct (dict_get weights "BSS"); simpl; [ | discriminate ].
  destruct (dict_get weights "TSD"); simpl; [ | discriminate ].
  destruct (calculate_afi_raw df weights) as [ raw | ]; simpl; [ | discriminate ].
  destruct (add_rankings (normalize_afi raw)) as [ ranked | ] eqn:Er; simpl; [ | discriminate ].
  intros H. injection H as <-. exists raw, ranked.
  apply validate_signals_Ok in Ev. destruct Ev as [-> _]. auto.
Qed.

(** [calculate_afi] checks the signals first, then reads the four weights,
    then checks their sum: it returns a table only if no signal is below
    zero, the four weights are there and their sum is close to 1; a signal
    below zero raises whatever the weights are; with valid signals a weight
    that is not there raises [KeyError] whatever the sum is, though
    [calculate_afi_raw] alone reports the sum first; and with all four
    weights there a sum away from 1 raises the error that shows the sum. *)
Theorem calculate_afi_error_order :
  forall df weights,
    (forall out, calculate_afi df weights = Ok out ->
       validate_signals df = Ok true /\
       np.isclose (py_sum (dict_values weights)) 1 = true /\
       forall k, In k ["UIS"; "RIS"; "BSS"; "TSD"]%string ->
                 exists w, dict_get weights k = Ok w) /\
    (forall e, validate_signals df = Raise e -> calculate_afi df weights = Raise e) /\
    (validate_signals df = Ok true ->
     forall k before after,
       ["UIS"; "RIS"; "BSS"; "TSD"]%string = (before ++ k :: after)%list ->
       (forall k', In k' before -> exists w, dict_get weights k' = Ok w) ->
       dict_get weights k = Raise (KeyError k) ->
       calculate_afi df weights = Raise (KeyError k) /\
       (np.isclose (py_sum (dict_values weights)) 1 = false ->
        calculate_afi_raw df weights = Raise (ValueError_weights (py_sum (dict_values weights))))) /\
    (validate_signals df = Ok true ->
     (forall k, In k ["UIS"; "RIS"; "BSS"; "TSD"]%string -> exists w, dict_get weights k = Ok w) ->
     np.isclose (py_sum (dict_values weights)) 1 = false ->
     calculate_afi df weights = Raise (ValueError_weights (py_sum (dict_values weights)))).
Proof.
  intros df weights. split; [ | split; [ | split ] ].
  - intros out H. apply calculate_afi_Ok in H.
    destruct H as (raw & ranked & Hv & Hraw & _ & _).
    apply dict_get_Ok_of_raw in Hraw.
    destruct Hraw as (Hc & u & r & b & t & Hu & Hr & Hb & Ht & _).
    split; [ exact Hv | ]. split; [ exact Hc | ].
    intros k [ <- | [ <- | [ <- | [ <- | [] ] ] ] ]; eauto.
  - intros e H. unfold calculate_afi. now rewrite H.
  - intros Hv k before after Hk Hb Hmiss. split.
    + unfold calculate_afi. rewrite Hv. simpl.
      destruct before as [ | k1 before ]; simpl in Hk.
      { injection Hk as <- _. now rewrite Hmiss. }
      injection Hk as <- Hk. destruct (Hb "UIS"%string (or_introl eq_refl)) as (u & ->). simpl.
      destruct before as [ | k2 before ]; simpl in Hk.
      { injection Hk as <- _. now rewrite Hmiss. }
      injection Hk as <- Hk.
      destruct (Hb "RIS"%string (or_intror (or_introl eq_refl))) as (r & ->). simpl.
      destruct before as [ | k3 before ]; simpl in Hk.
      { injection Hk as <- _. now rewrite Hmiss. }
      injection Hk as <- Hk.
      destruct (Hb "BSS"%string (or_intror (or_intror (or_introl eq_refl)))) as (b & ->). simpl.
      destruct before as [ | k4 before ]; simpl in Hk.
      { injection Hk as <- _. now rewrite Hmiss. }
      injection Hk as <- Hk. destruct before; discriminate Hk.
    + intros Hc. unfold calculate_afi_raw. now rewrite Hc.
  - intros Hv Hk Hc. unfold calculate_afi. rewrite Hv. simpl.
    destruct (Hk "UIS"%string) as (u & ->); [ simpl; tauto | ].
    destruct (Hk "RIS"%string) as (r & ->); [ simpl; tauto | ].
    destruct (Hk "BSS"%string) as (b & ->); [ simpl; tauto | ].
    destruct (Hk "TSD"%string) as (t & ->); [ simpl; tauto | ].
    simpl. unfold calculate_afi_raw. now rewrite Hc.
Qed.

End WholeCalculation.

Definition weights_only_uis : index.Weights := [ ("UIS", 0.5%float) ].

Lemma calculate_afi_error_order_witness :
  pipeline.calculate_afi fixture_signals weights_only_uis = Raise (KeyError "RIS") /\
  index.calculate_afi_raw fixture_signals weights_only_uis
    = Raise (ValueError_weights (index.py_sum (index.dict_values weights_only_uis))).
Proof.
  destruct (proj1 (proj2 (proj2
              (calculate_afi_error_order fixture_signals weights_only_uis)))
              eq_refl "RIS" ["UIS"] ["BSS"; "TSD"] eq_refl) as [H1 H2].
  - intros k' [ <- | [] ]. eexists. reflexivity.
  - reflexivity.
  - split; [ exact H1 | apply H2; reflexivity ].
Defined.

Definition signals_two_regions : list index.SignalRow :=
  [ index.mkSignalRow "Kerala" "Idukki" "2025-03" 10 20 30 40;
    index.mkSignalRow "Goa" "North Goa" "2025-03" 50 60 70 80 ].

Section CalculateAfi.
Local Open Scope float_scope.
Import index pipeline.

Lemma add_categories_In ranked r :
  In r (add_categories ranked) ->
  In (index_ranked_row r) ranked /\
  friction_category r = categorize_afi (afi_of r).
Proof.
  rewrite add_categories_rows. intros H. apply in_map_iff in H.
  destruct H as (rr & <- & Hrr). auto.
Qed.

Lemma add_categories_ranked_rows ranked : map index_ranked_row (add_categories ranked) = ranked.
Proof. rewrite add_categories_rows, map_map. simpl. apply map_id. Qed.

Lemma StronglySorted_weaken {A : Type} (R R' : A -> A -> Prop) (l : list A) :
  (forall a b, In a l -> In b l -> R a b -> R' a b) ->
  StronglySorted R l -> StronglySorted R' l.
Proof.
  intros H Hs. induction Hs as [ | a t Ht IH Ha ]; constructor.
  - apply IH. intros x y Hx Hy. apply H; now right.
  - rewrite Forall_forall in *. intros x Hx. apply H; [ now left | now right | auto ].
Qed.

Lemma above_antitone (l : list float) x y :
  (y <=? x) = true ->
  (List.length (above x l) <= List.length (above y l))%nat.
Proof.
  intros H. unfold above. apply filter_length_mono.
  intros z _ Hz. now apply (fleb_ltb_trans y x z).
Qed.

(** When [calculate_afi] returns, its table holds the records it was given,
    each once, from the greatest AFI to the least, so that the national ranks
    never decrease down the table and the first row has rank 1; every AFI is
    a number that is not negative, and every category is the band of its
    AFI. *)
Theorem calculate_afi_table :
  forall df weights out,
    calculate_afi df weights = Ok out ->
    Permutation (map signals_of out) df /\
    StronglySorted (fun r r' => (afi_of r <? afi_of r') = false) out /\
    StronglySorted (fun r r' => (national_rank (index_ranked_row r)
                                 <= national_rank (index_ranked_row r'))%Z) out /\
    (forall r rest, out = r :: rest -> national_rank (index_ranked_row r) = 1%Z) /\
    (forall r, In r out ->
       defined (afi_of r) /\ (0 <=? afi_of r) = true /\
       friction_category r = categorize_afi (afi_of r) /\
       (1 <= national_rank (index_ranked_row r) <= Z.of_nat (List.length df))%Z).
Proof.
  intros df weights out H. apply calculate_afi_Ok in H.
  destruct H as (raw & ranked & Hv & Hraw & Hrank & ->).
  pose proof (sort_values_afi_desc_perm (add_categories ranked)) as Hperm.
  pose proof (sort_values_afi_desc_sorted (add_categories ranked)) as Hsorted.
  assert (Hrow : forall r, In r (sort_values_afi_desc (add_categories ranked)) ->
            In (index_ranked_row r) ranked /\
            friction_category r = categorize_afi (afi_of r)).
  { intros r Hr. apply add_categories_In. now apply (Permutation_in _ Hperm). }
  assert (Hlen : List.length raw = List.length df).
  { rewrite <- (calculate_afi_raw_signals _ _ _ Hraw). now rewrite length_map. }
  assert (Hn : List.length (normalize_afi raw) = List.length df).
  { rewrite normalize_afi_rows, length_map. exact Hlen. }
  assert (Hfacts : forall r, In r (sort_values_afi_desc (add_categories ranked)) ->
            defined (afi_of r) /\ (afi_of r <? 0) = false /\
            national_rank (index_ranked_row r)
              = (1 + Z.of_nat (List.length (above (afi_of r) (map AFI (normalize_afi raw)))))%Z).
  { intros r Hr. destruct (Hrow r Hr) as [Hin _].
    destruct (add_rankings_above _ _ _ Hrank Hin) as (Ha & Hd & Hnat & _).
    split; [ exact Hd | ]. split; [ | exact Hnat ].
    now apply (normalize_afi_not_negative raw). }
  split; [ | split; [ | split; [ | split ] ] ].
  - transitivity (map signals_of (add_categories ranked));
      [ now apply Permutation_map | ].
    replace (map signals_of (add_categories ranked))
      with (map raw_signals (map afi_raw_row (map ranked_afi_row
              (map index_ranked_row (add_categories ranked)))))
      by (rewrite !map_map; reflexivity).
    rewrite add_categories_ranked_rows, (add_rankings_rows _ _ Hrank),
      normalize_afi_raw_rows, (calculate_afi_raw_signals _ _ _ Hraw). reflexivity.
  - exact Hsorted.
  - revert Hsorted. apply StronglySorted_weaken.
    intros a b Ha Hb Hab. unfold afi_not_above in Hab.
    destruct (Hfacts a Ha) as (Da & _ & ->). destruct (Hfacts b Hb) as (Db & _ & ->).
    pose proof (above_antitone (map AFI (normalize_afi raw)) (afi_of a) (afi_of b)
                  (fnltb_leb _ _ Da Db Hab)). lia.
  - intros r rest Hout. rewrite Hout in Hsorted, Hfacts, Hperm.
    destruct (Hfacts r (or_introl eq_refl)) as (Dr & _ & ->).
    inversion Hsorted as [ | ? ? _ Hhead ]; subst.
    assert (Hz : above (afi_of r) (map AFI (normalize_afi raw)) = []).
    { unfold above. apply filter_none. intros z Hz.
      rewrite <- (add_rankings_rows _ _ Hrank) in Hz.
      rewrite <- (add_categories_ranked_rows ranked) in Hz.
      rewrite !map_map in Hz. apply in_map_iff in Hz. destruct Hz as (x & <- & Hx).
      apply (Permutation_in _ (Permutation_sym Hperm)) in Hx.
      destruct Hx as [ <- | Hx ]; [ apply fltb_irrefl | ].
      rewrite Forall_forall in Hhead. exact (Hhead x Hx). }
    now rewrite Hz.
  - intros r Hr. destruct (Hfacts r Hr) as (Dr & Hnn & Hnat).
    destruct (Hrow r Hr) as [Hin Hcat].
    split; [ exact Dr | ].
    split; [ apply fnltb_leb; [ exact Dr | reflexivity | exact Hnn ] | ].
    split; [ exact Hcat | ].
    destruct (add_rankings_above _ _ _ Hrank Hin) as (Ha & _ & _ & _).
    rewrite Hnat, count_above. fold (afi_of r).
    pose proof (filter_length_lt (fun r' => afi_of r <? AFI r') (normalize_afi raw)
                  _ Ha (fltb_irrefl _)). lia.
Qed.

Lemma calculate_afi_table_witness :
  exists out, calculate_afi signals_two_regions WEIGHTS = Ok out /\
              Permutation (map signals_of out) signals_two_regions.
Proof.
  destruct (calculate_afi signals_two_regions WEIGHTS) as [ out | e ] eqn:E;
    [ | vm_compute in E; discriminate E ].
  exists out. split; [ reflexivity | ].
  exact (proj1 (calculate_afi_table signals_two_regions WEIGHTS out E)).
Defined.

Lemma calculate_afi_fails_with df weights raw :
  validate_signals df = Ok true ->
  calculate_afi_raw df weights = Ok raw ->
  (exists r, In r (normalize_afi raw) /\ PrimFloat.is_nan (AFI r) = true) ->
  calculate_afi df weights = Raise IntCastingNaNError.
Proof.
  intros Hv Hraw Hex. rewrite (calculate_afi_steps _ _ _ Hv Hraw).
  now rewrite (add_rankings_fails _ Hex).
Qed.

Lemma calculate_afi_equal_scores df weights raw :
  validate_signals df = Ok true ->
  calculate_afi_raw df weights = Ok raw ->
  raw <> [] ->
  (forall r r', In r raw -> In r' raw -> (AFI_raw r =? AFI_raw r') = true) ->
  calculate_afi df weights = Raise IntCastingNaNError.
Proof.
  intros Hv Hraw Hne Heq. apply (calculate_afi_fails_with _ _ _ Hv Hraw).
  destruct raw as [ | a t ]; [ now elim Hne | ].
  assert (Hin : In a (map afi_raw_row (normalize_afi (a :: t)))).
  { rewrite normalize_afi_raw_rows. now left. }
  apply in_map_iff in Hin. destruct Hin as (r & _ & Hin).
  exists r. split; [ exact Hin | ]. exact (normalize_afi_equal_scores _ Heq _ Hin).
Qed.

Lemma calculate_afi_missing_score df weights raw :
  validate_signals df = Ok true ->
  calculate_afi_raw df weights = Ok raw ->
  (exists r, In r raw /\ PrimFloat.is_nan (AFI_raw r) = true) ->
  calculate_afi df weights = Raise IntCastingNaNError.
Proof.
  intros Hv Hraw (a & Ha & Ea). apply (calculate_afi_fails_with _ _ _ Hv Hraw).
  assert (Hin : In a (map afi_raw_row (normalize_afi raw))).
  { now rewrite normalize_afi_raw_rows. }
  apply in_map_iff in Hin. destruct Hin as (r & Hr & Hin).
  exists r. split; [ exact Hin | ].
  apply (normalize_afi_missing_score raw r Hin). now rewrite Hr.
Qed.

Lemma calculate_afi_single_record df weights raw :
  validate_signals df = Ok true ->
  calculate_afi_raw df weights = Ok raw ->
  List.length df = 1%nat ->
  calculate_afi df weights = Raise IntCastingNaNError.
Proof.
  intros Hv Hraw Hone.
  assert (Hlen : List.length raw = 1%nat).
  { rewrite <- (calculate_afi_raw_signals _ _ _ Hraw) in Hone.
    now rewrite length_map in Hone. }
  destruct raw as [ | a [ | b t ] ]; try discriminate Hlen.
  destruct (PrimFloat.is_nan (AFI_raw a)) eqn:Ea.
  - apply (calculate_afi_missing_score _ _ _ Hv Hraw).
    exists a. split; [ now left | exact Ea ].
  - apply (calculate_afi_equal_scores _ _ _ Hv Hraw); [ discriminate | ].
    intros r r' [ <- | [] ] [ <- | [] ]. now apply feqb_refl.
Qed.

Lemma calculate_afi_no_records df weights raw :
  validate_signals df = Ok true ->
  calculate_afi_raw df weights = Ok raw ->
  df = [] -> calculate_afi df weights = Ok [].
Proof.
  intros Hv Hraw ->. rewrite (calculate_afi_steps _ _ _ Hv Hraw).
  apply calculate_afi_raw_signals in Hraw. destruct raw; [ reflexivity | discriminate ].
Qed.


(** [calculate_afi] cannot rank a table whose raw scores are all equal, or one
    with a raw score that is NaN: every AFI, or that AFI, is NaN and the cast
    of the ranks to integers raises.  So it fails on every table of a single
    record; on the empty table it returns the empty table. *)
Theorem calculate_afi_fails_on_equal_scores :
  forall df weights raw,
    validate_signals df = Ok true ->
    calculate_afi_raw df weights = Ok raw ->
    (raw <> [] ->
     (forall r r', In r raw -> In r' raw -> (AFI_raw r =? AFI_raw r') = true) ->
     calculate_afi df weights = Raise IntCastingNaNError) /\
    ((exists r, In r raw /\ PrimFloat.is_nan (AFI_raw r) = true) ->
     calculate_afi df weights = Raise IntCastingNaNError) /\
    (List.length df = 1%nat -> calculate_afi df weights = Raise IntCastingNaNError) /\
    (df = [] -> calculate_afi df weights = Ok []).
Proof.
  intros df weights raw Hv Hraw.
  split; [ apply (calculate_afi_equal_scores _ _ _ Hv Hraw) | ].
  split; [ apply (calculate_afi_missing_score _ _ _ Hv Hraw) | ].
  split; [ apply (calculate_afi_single_record _ _ _ Hv Hraw) | ].
  apply (calculate_afi_no_records _ _ _ Hv Hraw).
Qed.

Lemma calculate_afi_fails_on_equal_scores_witness :
  calculate_afi fixture_signals WEIGHTS = Raise IntCastingNaNError.
Proof.
  destruct (calculate_afi_raw fixture_signals WEIGHTS) as [ raw | e ] eqn:E;
    [ | vm_compute in E; discriminate E ].
  apply (proj1 (proj2 (proj2
           (calculate_afi_fails_on_equal_scores fixture_signals WEIGHTS raw eq_refl E)))).
  reflexivity.
Defined.



End CalculateAfi.

Section TopAreas.
Local Open Scope float_scope.
Import index pipeline.

Lemma sorted_app_cross {A : Type} (R : A -> A -> Prop) (l m : list A) :
  StronglySorted R (l ++ m) ->
  StronglySorted R l /\ forall a b, In a l -> In b m -> R a b.
Proof.
  induction l as [ | x t IH ]; simpl; intros H.
  - split; [ constructor | intros a b [] ].
  - inversion H as [ | ? ? Ht Hx ]; subst. destruct (IH Ht) as [Hs Hc].
    rewrite Forall_app in Hx. destruct Hx as [Hx1 Hx2].
    split; [ now constructor | ].
    intros a b [ <- | Ha ] Hb; [ | auto ].
    rewrite Forall_forall in Hx2. auto.
Qed.

Lemma missing_last (present missing chosen rest : list IndexRow) :
  Forall (fun r => defined (afi_of r)) present ->
  Forall (fun r => PrimFloat.is_nan (afi_of r) = true) missing ->
  (present ++ missing = chosen ++ rest)%list ->
  forall r r', In r chosen -> In r' rest ->
    PrimFloat.is_nan (afi_of r) = true -> PrimFloat.is_nan (afi_of r') = true.
Proof.
  intros Hp Hm. revert chosen.
  induction Hp as [ | p present Dp Hp IH ]; simpl; intros chosen E r r' Hr Hr' Er.
  - rewrite Forall_forall in Hm. apply Hm. rewrite E. apply in_or_app. now right.
  - destruct chosen as [ | c chosen ]; [ destruct Hr | ].
    simpl in E. injection E as <- E.
    destruct Hr as [ <- | Hr ]; [ unfold defined in Dp; congruence | ].
    exact (IH chosen E r r' Hr Hr' Er).
Qed.

(** [identify_top_friction_areas] returns [top_n] rows, or all the rows when
    there are fewer, and none for [top_n <= 0]; they are rows of the table,
    each taken once, in the order from the greatest AFI; no row that is left
    out has a greater AFI than a row that is returned, and a row without an
    AFI is returned only when every row that is left out has none. *)
Theorem identify_top_friction_areas_rows :
  forall df top_n,
    List.length (identify_top_friction_areas df top_n)
      = Nat.min (Z.to_nat top_n) (List.length df) /\
    exists chosen rest,
      identify_top_friction_areas df top_n = map top_columns chosen /\
      Permutation (chosen ++ rest) df /\
      StronglySorted (fun r r' => (afi_of r <? afi_of r') = false) chosen /\
      (forall r r', In r chosen -> In r' rest ->
         (afi_of r <? afi_of r') = false /\
         (PrimFloat.is_nan (afi_of r) = true -> PrimFloat.is_nan (afi_of r') = true)).
Proof.
  intros df top_n. unfold identify_top_friction_areas.
  destruct (top_n <=? 0)%Z eqn:En.
  - apply Z.leb_le in En. replace (Z.to_nat top_n) with 0%nat by lia.
    split; [ reflexivity | ].
    exists [], df. split; [ reflexivity | ]. split; [ reflexivity | ].
    split; [ constructor | intros r r' [] ].
  - split.
    + rewrite length_map, length_firstn.
      now rewrite (Permutation_length (sort_values_afi_desc_perm df)).
    + exists (firstn (Z.to_nat top_n) (sort_values_afi_desc df)),
             (skipn (Z.to_nat top_n) (sort_values_afi_desc df)).
      split; [ reflexivity | ].
      split; [ rewrite firstn_skipn; apply sort_values_afi_desc_perm | ].
      pose proof (sort_values_afi_desc_sorted df) as Hs.
      rewrite <- (firstn_skipn (Z.to_nat top_n) (sort_values_afi_desc df)) in Hs.
      apply sorted_app_cross in Hs. destruct Hs as [Hs Hc].
      split; [ exact Hs | ].
      intros r r' Hr Hr'. split; [ exact (Hc r r' Hr Hr') | ].
      apply (missing_last
               (fold_right insert_by_afi []
                  (filter (fun r => negb (PrimFloat.is_nan (afi_of r))) df))
               (filter (fun r => PrimFloat.is_nan (afi_of r)) df)
               (firstn (Z.to_nat top_n) (sort_values_afi_desc df))
               (skipn (Z.to_nat top_n) (sort_values_afi_desc df))); auto.
      * eapply Permutation_Forall; [ symmetry; apply sorted_part_perm | ].
        apply Forall_forall. intros x Hx. apply filter_In in Hx. destruct Hx as [_ Hx].
        unfold defined. now destruct (PrimFloat.is_nan (afi_of x)).
      * apply Forall_forall. intros x Hx. apply filter_In in Hx. tauto.
      * now rewrite firstn_skipn.
Qed.

End TopAreas.

(** * signal.py: where the values of the signals table come from *)

Section SignalCells.
Local Open Scope float_scope.
Import frame signal.

(** Column [i] of a table holds, in a row of key [k], a missing value or a
    value that [P] accepts for [k]. *)
Definition cells_satisfy (t : Table) (i : nat) (P : Key -> float -> Prop) : Prop :=
  forall k cells, In (k, cells) (trows t) ->
    PrimFloat.is_nan (nth i cells nan) = true \/ P k (nth i cells nan).

Lemma merge_cells_left left right sl sr i P :
  table_ok left -> (i < width left)%nat ->
  cells_satisfy left i P -> cells_satisfy (merge left right sl sr) i P.
Proof.
  intros Hl Hi Ha k cells H. apply merge_rows_In in H.
  destruct H as (_ & lc & rc & -> & Hlc & _).
  destruct (cells_for_ok _ _ _ Hl Hlc) as [L1 _].
  rewrite app_nth1 by lia.
  apply cells_for_In in Hlc. destruct Hlc as [Hlc | [_ ->]].
  - now apply (Ha k).
  - left. now rewrite nth_repeat_nan.
Qed.

Lemma merge_cells_right left right sl sr j P :
  table_ok left ->
  cells_satisfy right j P -> cells_satisfy (merge left right sl sr) (width left + j) P.
Proof.
  intros Hl Ha k cells H. apply merge_rows_In in H.
  destruct H as (_ & lc & rc & -> & Hlc & Hrc).
  destruct (cells_for_ok _ _ _ Hl Hlc) as [L1 _].
  rewrite app_nth2 by lia. replace (width left + j - List.length lc)%nat with j by lia.
  apply cells_for_In in Hrc. destruct Hrc as [Hrc | [_ ->]].
  - now apply (Ha k).
  - left. now rewrite nth_repeat_nan.
Qed.

Lemma scores_table_cells name s :
  cells_satisfy (scores_table name s) 0 (fun k v => In (k, v) s).
Proof.
  intros k cells H. unfold scores_table in H. simpl in H.
  apply in_map_iff in H. destruct H as ([k' v] & H & Hkv). injection H as <- <-.
  right. exact Hkv.
Qed.

Lemma uis_table_ok b d : table_ok (scores_table "UIS" (calculate_uis b d)).
Proof. apply scores_table_ok, calculate_uis_not_negative. Qed.

Lemma uis_ris_table_ok b d :
  table_ok (merge (scores_table "UIS" (calculate_uis b d))
                  (scores_table "RIS" (calculate_ris b d)) "_x" "_y").
Proof.
  apply merge_ok; [ apply uis_table_ok | apply scores_table_ok, calculate_ris_not_negative ].
Qed.

Lemma uis_ris_bss_table_ok b d :
  table_ok (merge (merge (scores_table "UIS" (calculate_uis b d))
                         (scores_table "RIS" (calculate_ris b d)) "_x" "_y")
                  (scores_table "BSS" (calculate_bss b)) "_x" "_y").
Proof.
  apply merge_ok; [ apply uis_ris_table_ok | apply scores_table_ok, calculate_bss_not_negative ].
Qed.

Lemma uis_cells b d e :
  cells_satisfy (signals_table b d e) 0 (fun k v => In (k, v) (calculate_uis b d)).
Proof.
  unfold signals_table.
  apply merge_cells_left;
    [ apply uis_ris_bss_table_ok | rewrite ?width_merge; unfold width; simpl; lia | ].
  apply merge_cells_left;
    [ apply uis_ris_table_ok | rewrite ?width_merge; unfold width; simpl; lia | ].
  apply merge_cells_left; [ apply uis_table_ok | unfold width; simpl; lia | ].
  apply scores_table_cells.
Qed.

Lemma ris_cells b d e :
  cells_satisfy (signals_table b d e) 1 (fun k v => In (k, v) (calculate_ris b d)).
Proof.
  unfold signals_table.
  apply merge_cells_left;
    [ apply uis_ris_bss_table_ok | rewrite ?width_merge; unfold width; simpl; lia | ].
  apply merge_cells_left;
    [ apply uis_ris_table_ok | rewrite ?width_merge; unfold width; simpl; lia | ].
  apply (merge_cells_right (scores_table "UIS" (calculate_uis b d)) _ _ _ 0);
    [ apply uis_table_ok | ].
  apply scores_table_cells.
Qed.

Lemma bss_cells b d e :
  cells_satisfy (signals_table b d e) 2 (fun k v => In (k, v) (calculate_bss b)).
Proof.
  unfold signals_table.
  apply merge_cells_left;
    [ apply uis_ris_bss_table_ok | rewrite ?width_merge; unfold width; simpl; lia | ].
  apply (merge_cells_right
           (merge (scores_table "UIS" (calculate_uis b d))
                  (scores_table "RIS" (calculate_ris b d)) "_x" "_y") _ _ _ 0);
    [ apply uis_ris_table_ok | ].
  apply scores_table_cells.
Qed.

Lemma tsd_cells b d e :
  cells_satisfy (signals_table b d e) 3 (fun k v => In (k, v) (calculate_tsd b d e)).
Proof.
  unfold signals_table.
  apply (merge_cells_right
           (merge (merge (scores_table "UIS" (calculate_uis b d))
                         (scores_table "RIS" (calculate_ris b d)) "_x" "_y")
                  (scores_table "BSS" (calculate_bss b)) "_x" "_y") _ _ _ 0);
    [ apply uis_ris_bss_table_ok | ].
  apply scores_table_cells.
Qed.

Lemma filled_cell_from (P : float -> Prop) v :
  PrimFloat.is_nan v = true \/ P v ->
  (if PrimFloat.is_nan v then 0 else v) = 0 \/ P (if PrimFloat.is_nan v then 0 else v).
Proof. intros [ H | H ]; destruct (PrimFloat.is_nan v); auto; discriminate. Qed.

(** Every value in the signals table is 0 or a score that the function of
    its signal computed for the key of its row: the joins move no score to
    another key or to another signal. *)
Theorem calculate_all_signals_values_from_scores :
  forall b d e r,
    In r (calculate_all_signals b d e) ->
    (index.UIS r = 0 \/ In (key_of r, index.UIS r) (calculate_uis b d)) /\
    (index.RIS r = 0 \/ In (key_of r, index.RIS r) (calculate_ris b d)) /\
    (index.BSS r = 0 \/ In (key_of r, index.BSS r) (calculate_bss b)) /\
    (index.TSD r = 0 \/ In (key_of r, index.TSD r) (calculate_tsd b d e)).
Proof.
  intros b d e r Hr. rewrite calculate_all_signals_rows in Hr. apply in_map_iff in Hr.
  destruct Hr as ([k cells] & <- & Hrow). rewrite key_of_signal_row.
  unfold signal_row. cbn [index.UIS index.RIS index.BSS index.TSD fst snd].
  split; [ apply (filled_cell_from (fun v => In (k, v) (calculate_uis b d))),
             (uis_cells b d e k cells Hrow) | ].
  split; [ apply (filled_cell_from (fun v => In (k, v) (calculate_ris b d))),
             (ris_cells b d e k cells Hrow) | ].
  split; [ apply (filled_cell_from (fun v => In (k, v) (calculate_bss b))),
             (bss_cells b d e k cells Hrow) | ].
  apply (filled_cell_from (fun v => In (k, v) (calculate_tsd b d e))),
    (tsd_cells b d e k cells Hrow).
Qed.

Lemma calculate_all_signals_values_from_scores_witness :
  Forall (fun r => index.BSS r = 0 \/ In (key_of r, index.BSS r) (calculate_bss bio_three))
         (calculate_all_signals bio_three demo_two enrol_one).
Proof.
  apply Forall_forall. intros r Hr.
  exact (proj1 (proj2 (proj2
           (calculate_all_signals_values_from_scores bio_three demo_two enrol_one r Hr)))).
Defined.

End SignalCells.

Section MissingScores.
Local Open Scope float_scope.
Import frame signal.

Lemma is_nan_eq x : PrimFloat.is_nan x = true -> x = nan.
Proof. intros H. apply Prim2SF_inj. now rewrite (is_nan_Prim2SF x H). Qed.

Lemma add_nan_r x : x + nan = nan.
Proof.
  apply Prim2SF_inj. rewrite add_spec. change (Prim2SF nan) with S754_nan.
  now destruct (Prim2SF x).
Qed.

Lemma add_nan_l x : nan + x = nan.
Proof. apply Prim2SF_inj. rewrite add_spec. reflexivity. Qed.

Lemma mul_nan_l x : nan * x = nan.
Proof. apply Prim2SF_inj. rewrite mul_spec. reflexivity. Qed.

Lemma div_nan_l x : nan / x = nan.
Proof. apply Prim2SF_inj. rewrite div_spec. reflexivity. Qed.

Lemma sub_nan_l x : nan - x = nan.
Proof. apply Prim2SF_inj. rewrite sub_spec. reflexivity. Qed.

Lemma sub_nan_r x : x - nan = nan.
Proof.
  apply Prim2SF_inj. rewrite sub_spec. change (Prim2SF nan) with S754_nan.
  now destruct (Prim2SF x).
Qed.

Lemma sqrt_nan : PrimFloat.sqrt nan = nan.
Proof. reflexivity. Qed.

Lemma row_var_few cells :
  (List.length cells <= 1)%nat -> row_var cells = nan.
Proof.
  intros H. unfold row_var.
  pose proof (filter_length_le (fun x => negb (PrimFloat.is_nan x)) cells) as Hd.
  fold (pd.dropna cells) in Hd.
  destruct (Nat.leb_spec (List.length (pd.dropna cells)) 1); [ reflexivity | lia ].
Qed.

Lemma row_std_few cells :
  (List.length cells <= 1)%nat -> row_std cells = nan.
Proof. intros H. unfold row_std. now rewrite row_var_few. Qed.

Lemma chosen_cells_length ns choose : forall cells,
  (List.length (chosen_cells ns choose cells) <= List.length (filter choose ns))%nat.
Proof.
  unfold chosen_cells. induction ns as [ | n ns IH ]; intros [ | c cells ]; simpl; try lia.
  specialize (IH cells). rewrite length_map in *.
  destruct (choose n); simpl; lia.
Qed.

Lemma in_names_In n l : In n l -> in_names n l = true.
Proof.
  intros H. unfold in_names. apply existsb_exists. exists n. split; [ exact H | ].
  apply String.eqb_refl.
Qed.

Lemma in_names_false n l : in_names n l = false -> ~ In n l.
Proof. intros H Hin. rewrite (in_names_In _ _ Hin) in H. discriminate. Qed.

Lemma filter_all {A : Type} (f : A -> bool) (l : list A) :
  (forall x, In x l -> f x = true) -> filter f l = l.
Proof.
  induction l as [ | a t IH ]; simpl; intros H; [ reflexivity | ].
  rewrite (H a (or_introl eq_refl)). f_equal. apply IH. intros x Hx. apply H. now right.
Qed.

(** The columns of a table that are among [cols] once a column is assigned. *)
Lemma chosen_after_assign t name values :
  List.length (filter (fun col => in_names col (names t)) (names (assign t name values)))
  = List.length (names t).
Proof.
  unfold assign. simpl. destruct (in_names name (names t)) eqn:E.
  - rewrite filter_all; [ reflexivity | ]. intros x Hx. now apply in_names_In.
  - rewrite filter_app. simpl. rewrite E, app_nil_r.
    rewrite filter_all; [ reflexivity | ]. intros x Hx. now apply in_names_In.
Qed.

Lemma normalize_column_In series a b v :
  In v (utils.normalize_column series a b) ->
  exists x, In x series /\
    (v = a \/ v = a + (x - pd.series_min series) * (b - a)
                      / (pd.series_max series - pd.series_min series)).
Proof.
  unfold utils.normalize_column.
  destruct (pd.series_max series =? pd.series_min series); intros H;
    apply in_map_iff in H; destruct H as (x & <- & Hx); eauto.
Qed.

Lemma series_min_all_missing s :
  (forall x, In x s -> PrimFloat.is_nan x = true) -> pd.series_min s = nan.
Proof.
  intros H. destruct (series_min_spec s) as [ [_ E] | (D & Hin & _) ]; [ exact E | ].
  specialize (H _ Hin). unfold defined in D. congruence.
Qed.

Lemma series_max_all_missing s :
  (forall x, In x s -> PrimFloat.is_nan x = true) -> pd.series_max s = nan.
Proof.
  intros H. destruct (series_max_spec s) as [ [_ E] | (D & Hin & _) ]; [ exact E | ].
  specialize (H _ Hin). unfold defined in D. congruence.
Qed.

Lemma normalize_column_all_missing series a b :
  (forall x, In x series -> PrimFloat.is_nan x = true) ->
  forall v, In v (utils.normalize_column series a b) -> PrimFloat.is_nan v = true.
Proof.
  intros H v Hv. unfold utils.normalize_column in Hv.
  rewrite (series_min_all_missing _ H), (series_max_all_missing _ H) in Hv.
  change (nan =? nan) with false in Hv. apply in_map_iff in Hv.
  destruct Hv as (x & <- & Hx). rewrite sub_nan_r, mul_nan_l, div_nan_l, add_nan_r.
  reflexivity.
Qed.

(** With at most one biometric column the variance along a row has fewer than
    two values, so every biometric stress score is missing. *)
Lemma calculate_bss_few_columns b :
  (List.length (data b) <= 1)%nat ->
  forall k v, In (k, v) (calculate_bss b) -> PrimFloat.is_nan v = true.
Proof.
  intros Hcols k v H. unfold calculate_bss, normalized_scores in H.
  apply in_combine_r in H. revert v H. apply normalize_column_all_missing.
  intros x Hx. apply in_map_iff in Hx. destruct Hx as (((t & var) & m) & <- & Hx).
  apply in_combine_l in Hx. apply in_combine_r in Hx. simpl.
  apply in_map_iff in Hx. destruct Hx as (r & <- & _).
  rewrite row_var_few.
  - now rewrite mul_nan_l, add_nan_r, add_nan_l.
  - etransitivity; [ apply chosen_cells_length | ].
    rewrite chosen_after_assign. unfold of_frame. simpl. now rewrite length_map.
Qed.

End MissingScores.

Section MissingScoresSpec.
Local Open Scope float_scope.
Import frame signal.

(** With at most one value column in the biometric dataset, every BSS of the
    signals table is 0: the variance along a row needs two values, so every
    raw score is missing and is filled with 0 at the end. *)
Theorem bss_zero_with_one_biometric_column :
  forall b d e,
    (List.length (data b) <= 1)%nat ->
    forall r, In r (calculate_all_signals b d e) -> index.BSS r = 0.
Proof.
  intros b d e Hcols r Hr. rewrite calculate_all_signals_rows in Hr.
  apply in_map_iff in Hr. destruct Hr as ([k cells] & <- & Hrow).
  unfold signal_row. cbn [index.BSS fst snd].
  destruct (bss_cells b d e k cells Hrow) as [ H | H ].
  - rewrite H. reflexivity.
  - rewrite (calculate_bss_few_columns b Hcols _ _ H). reflexivity.
Qed.

Lemma bss_zero_with_one_biometric_column_witness :
  Forall (fun r => index.BSS r = 0) (calculate_all_signals bio_capped demo_zero enrol_zero).
Proof.
  apply Forall_forall.
  apply (bss_zero_with_one_biometric_column bio_capped demo_zero enrol_zero).
  simpl. lia.
Defined.

Lemma temporal_terms_single all k :
  (List.length (filter (fun r => same_district (fst r) k) all) <= 1)%nat ->
  forall after before x,
    In (k, x) (combine (map fst after) (temporal_terms before after all)) ->
    PrimFloat.is_nan x = true.
Proof.
  intros Hone. induction after as [ | [k' a] rest IH ]; intros before x H; simpl in H;
    [ contradiction | ].
  destruct H as [ H | H ]; [ | exact (IH _ _ H) ].
  injection H as -> <-.
  rewrite row_std_few by now rewrite length_map.
  now rewrite div_nan_l, mul_nan_l, add_nan_r.
Qed.

Lemma in_combine_map_r {A B C : Type} (g : B -> C) (l : list A) : forall (s : list B) a c,
  In (a, c) (combine l (map g s)) -> exists x, In (a, x) (combine l s) /\ c = g x.
Proof.
  induction l as [ | y l IH ]; intros [ | x s ] a c H; simpl in *; try contradiction.
  destruct H as [ H | H ].
  - injection H as -> <-. eauto.
  - destruct (IH _ _ _ H) as (x' & Hx & ->). eauto.
Qed.

Lemma normalize_column_as_map series a b :
  exists g, utils.normalize_column series a b = map g series /\
            forall x, PrimFloat.is_nan x = true -> g x = a \/ PrimFloat.is_nan (g x) = true.
Proof.
  unfold utils.normalize_column.
  destruct (pd.series_max series =? pd.series_min series).
  - exists (fun _ => a). split; [ reflexivity | auto ].
  - eexists. split; [ reflexivity | ].
    intros x Hx. right. rewrite (is_nan_eq x Hx).
    now rewrite sub_nan_l, mul_nan_l, div_nan_l, add_nan_r.
Qed.

Lemma filter_fst_length {A B : Type} (f : A -> bool) (l : list (A * B)) :
  List.length (filter (fun r => f (fst r)) l) = List.length (filter f (map fst l)).
Proof. induction l as [ | a t IH ]; simpl; [ reflexivity | destruct (f (fst a)); simpl; lia ]. Qed.

Lemma filter_perm_length {A : Type} (f : A -> bool) (l l' : list A) :
  Permutation l l' -> List.length (filter f l) = List.length (filter f l').
Proof.
  induction 1 as [ | x l l' _ IH | x y l | l l' l'' _ IH1 _ IH2 ]; simpl;
    [ reflexivity | destruct (f x); simpl; lia | destruct (f x), (f y); reflexivity | lia ].
Qed.

Lemma NoDup_filter_unique {A : Type} (f : A -> bool) (l : list A) k :
  NoDup l -> (forall x, In x l -> f x = true -> x = k) ->
  (List.length (filter f l) <= 1)%nat.
Proof.
  intros Hn. induction Hn as [ | a t Ha Hn IH ]; simpl; intros H; [ lia | ].
  assert (IH' := IH (fun x Hx => H x (or_intror Hx))).
  destruct (f a) eqn:E; [ | exact IH' ]. simpl.
  assert (Ea : a = k) by (apply H; auto). subst a.
  rewrite filter_none; [ simpl; lia | ].
  intros z Hz. destruct (f z) eqn:Ez; [ | reflexivity ].
  exfalso. apply Ha. rewrite <- (H z (or_intror Hz) Ez). exact Hz.
Qed.

(** The score of temporal deviation of a key whose district has no other row
    in the merged table is missing, or 0 when all raw scores are equal. *)
Lemma calculate_tsd_single_period b d e k v :
  (List.length (filter (fun k' => same_district k' k)
      (table_keys (merge (merge (of_frame b) (of_frame d) "_bio" "_demo")
                         (of_frame e) "_x" "_y"))) <= 1)%nat ->
  In (k, v) (calculate_tsd b d e) -> v = 0 \/ PrimFloat.is_nan v = true.
Proof.
  intros Hone H. unfold calculate_tsd in H. cbv zeta in H.
  set (df := merge (merge (of_frame b) (of_frame d) "_bio" "_demo") (of_frame e) "_x" "_y")
    in *.
  set (total := map (fun r => (fst r, row_sum (snd r))) (trows df)) in *.
  destruct (normalize_column_as_map (temporal_terms [] (sort_rows total) (sort_rows total))
              0 100) as (g & Eg & Hg).
  rewrite Eg in H.
  apply in_combine_map_r in H. destruct H as (x & Hx & ->).
  apply Hg. revert Hx. apply temporal_terms_single.
  rewrite (filter_perm_length _ _ _ (sort_rows_perm total)).
  rewrite (filter_fst_length (fun k' => same_district k' k)).
  unfold total. rewrite map_map. exact Hone.
Qed.

(** A district that the three datasets hold for one period only, none of
    them holding a key twice, gets the TSD 0 in the signals table: the
    standard deviation within its group needs two rows. *)
Theorem tsd_zero_for_single_period :
  forall b d e k,
    NoDup (keys b) -> NoDup (keys d) -> NoDup (keys e) ->
    (forall k', In k' (keys b ++ keys d ++ keys e) -> same_district k' k = true -> k' = k) ->
    forall r, In r (calculate_all_signals b d e) -> key_of r = k -> index.TSD r = 0.
Proof.
  intros b d e k Nb Nd Ne Hk r Hr Hkey. rewrite calculate_all_signals_rows in Hr.
  apply in_map_iff in Hr. destruct Hr as ([k0 cells] & <- & Hrow).
  rewrite key_of_signal_row in Hkey. cbn [fst] in Hkey. subst k0.
  unfold signal_row. cbn [index.TSD fst snd].
  destruct (tsd_cells b d e k cells Hrow) as [ H | H ]; [ rewrite H; reflexivity | ].
  clear Hrow.
  assert (Hone : (List.length (filter (fun k' => same_district k' k)
            (table_keys (merge (merge (of_frame b) (of_frame d) "_bio" "_demo")
                               (of_frame e) "_x" "_y"))) <= 1)%nat).
  2: { destruct (calculate_tsd_single_period b d e k _ Hone H) as [ E | E ];
         rewrite E; reflexivity. }
  rewrite merge_keys_NoDup.
  - apply (NoDup_filter_unique _ _ k); [ apply merged_keys_NoDup | ].
    intros x Hx. apply Hk. apply merged_keys_In in Hx.
    rewrite merge_keys_In, !of_frame_keys in Hx. rewrite !in_app_iff. tauto.
  - rewrite merge_keys_NoDup; [ apply merged_keys_NoDup | | ]; now rewrite of_frame_keys.
  - now rewrite of_frame_keys.
Qed.

Lemma tsd_zero_for_single_period_witness :
  Forall (fun r => key_of r = mkKey "Goa" "North Goa" "2025-03" -> index.TSD r = 0)
         (calculate_all_signals bio_three demo_two enrol_one).
Proof.
  apply Forall_forall.
  apply (tsd_zero_for_single_period bio_three demo_two enrol_one).
  - repeat constructor; simpl; intuition discriminate.
  - repeat constructor; simpl; intuition discriminate.
  - repeat constructor; simpl; intuition discriminate.
  - intros k' H. simpl in H.
    repeat (destruct H as [ <- | H ]; [ vm_compute; intros E; try reflexivity; discriminate E | ]).
    destruct H.
Defined.

End MissingScoresSpec.

Section RepeatInteraction.
Local Open Scope float_scope.
Import frame signal.

Lemma rows_cells_length df k c : In (k, c) (rows df) -> List.length c = List.length (data df).
Proof.
  unfold rows. intros H. apply in_map_iff in H. destruct H as ((i & k') & H & _).
  injection H as _ <-. unfold cells_at. apply length_map.
Qed.

Lemma dropna_repeat_nan n : pd.dropna (repeat nan n) = [].
Proof. induction n as [ | n IH ]; simpl; [ reflexivity | exact IH ]. Qed.

Lemma dropna_app a b : pd.dropna (a ++ b) = (pd.dropna a ++ pd.dropna b)%list.
Proof. unfold pd.dropna. apply filter_app. Qed.

Lemma row_var_few_present cells :
  (List.length (pd.dropna cells) <= 1)%nat -> row_var cells = nan.
Proof.
  intros H. unfold row_var.
  destruct (Nat.leb_spec (List.length (pd.dropna cells)) 1); [ reflexivity | lia ].
Qed.

Lemma in_combine_keys_map {A : Type} (h : Key * A -> float) (l : list (Key * A)) k x :
  In (k, x) (combine (map fst l) (map h l)) -> exists r, In r l /\ fst r = k /\ x = h r.
Proof.
  induction l as [ | r l IH ]; simpl; [ contradiction | ].
  intros [ H | H ].
  - injection H as <- <-. eauto.
  - destruct (IH H) as (r' & Hr & Hk & Hx). eauto.
Qed.

(** Without a failure column the raw score of a row is the standard
    deviation along the row, which is missing for a row with fewer than two
    values. *)
Lemma calculate_ris_one_value b d k v :
  filter is_failure_column (names (merge (of_frame b) (of_frame d) "_x" "_y")) = [] ->
  (~ In k (keys d) /\ (List.length (data b) <= 1)%nat) \/
  (~ In k (keys b) /\ (List.length (data d) <= 1)%nat) ->
  In (k, v) (calculate_ris b d) -> v = 0 \/ PrimFloat.is_nan v = true.
Proof.
  intros Hnone Hk H. unfold calculate_ris, normalized_scores in H. cbv zeta in H.
  rewrite Hnone in H.
  set (df := merge (of_frame b) (of_frame d) "_x" "_y") in *.
  destruct (normalize_column_as_map (map (fun r => row_std (snd r)) (trows df)) 0 100)
    as (g & Eg & Hg).
  rewrite Eg in H. apply in_combine_map_r in H. destruct H as (x & Hx & ->).
  apply Hg. unfold table_keys in Hx. apply in_combine_keys_map in Hx.
  destruct Hx as ((k' & cells) & Hr & Hk' & ->). simpl in Hk'. subst k'. simpl.
  unfold row_std. rewrite row_var_few_present; [ reflexivity | ].
  apply merge_rows_In in Hr. destruct Hr as (_ & lc & rc & -> & Hlc & Hrc).
  rewrite dropna_app, length_app.
  apply cells_for_In in Hlc. apply cells_for_In in Hrc.
  rewrite !of_frame_keys in Hlc, Hrc.
  destruct Hk as [ [Hd Hw] | [Hb Hw] ].
  - destruct Hrc as [ Hrc | [_ ->] ].
    { exfalso. apply Hd. rewrite <- of_frame_keys. apply in_map_iff. now exists (k, rc). }
    rewrite dropna_repeat_nan. simpl.
    destruct Hlc as [ Hlc | [_ ->] ].
    + apply rows_cells_length in Hlc.
      pose proof (filter_length_le (fun x => negb (PrimFloat.is_nan x)) lc) as Hle.
      unfold pd.dropna. lia.
    + rewrite dropna_repeat_nan. simpl. lia.
  - destruct Hlc as [ Hlc | [_ ->] ].
    { exfalso. apply Hb. rewrite <- of_frame_keys. apply in_map_iff. now exists (k, lc). }
    rewrite dropna_repeat_nan. simpl.
    destruct Hrc as [ Hrc | [_ ->] ].
    + apply rows_cells_length in Hrc.
      pose proof (filter_length_le (fun x => negb (PrimFloat.is_nan x)) rc) as Hle.
      unfold pd.dropna. lia.
    + rewrite dropna_repeat_nan. simpl. lia.
Qed.

(** When no column is named after a failure, RIS is the standard deviation
    along the merged row, so a key that only one of the biometric and
    demographic datasets holds, that dataset having a single value column,
    gets the RIS 0 in the signals table. *)
Theorem ris_zero_for_single_value :
  forall b d e,
    filter is_failure_column (names (merge (of_frame b) (of_frame d) "_x" "_y")) = [] ->
    forall r, In r (calculate_all_signals b d e) ->
      (~ In (key_of r) (keys d) /\ (List.length (data b) <= 1)%nat) \/
      (~ In (key_of r) (keys b) /\ (List.length (data d) <= 1)%nat) ->
      index.RIS r = 0.
Proof.
  intros b d e Hnone r Hr Hk. rewrite calculate_all_signals_rows in Hr.
  apply in_map_iff in Hr. destruct Hr as ([k cells] & <- & Hrow).
  rewrite key_of_signal_row in Hk. cbn [fst] in Hk.
  unfold signal_row. cbn [index.RIS fst snd].
  destruct (ris_cells b d e k cells Hrow) as [ H | H ]; [ rewrite H; reflexivity | ].
  clear Hrow.
  destruct (calculate_ris_one_value b d k _ Hnone Hk H) as [ E | E ]; rewrite E; reflexivity.
Qed.

Lemma ris_zero_for_single_value_witness :
  Forall (fun r => index.RIS r = 0) (calculate_all_signals bio_capped no_rows no_rows).
Proof.
  apply Forall_forall. intros r Hr.
  apply (ris_zero_for_single_value bio_capped no_rows no_rows eq_refl r Hr).
  left. split; [ intros [] | simpl; lia ].
Defined.

End RepeatInteraction.

(** * preprocessing.py: merge_datasets *)

Section MergeDatasets.
Local Open Scope float_scope.
Import frame signal.

(** Every row has one cell per column. *)
Definition rectangular (t : Table) : Prop :=
  forall k cells, In (k, cells) (trows t) -> List.length cells = width t.

Lemma of_frame_rectangular df : rectangular (of_frame df).
Proof.
  intros k cells H. unfold of_frame in *. simpl in H.
  rewrite (rows_cells_length _ _ _ H). unfold width. simpl. now rewrite length_map.
Qed.

Lemma merge_row_parts left right sl sr k cells :
  rectangular left -> rectangular right ->
  In (k, cells) (trows (merge left right sl sr)) ->
  exists lc rc,
    cells = (lc ++ rc)%list /\
    List.length lc = width left /\ List.length rc = width right /\
    (In (k, lc) (trows left) \/ lc = repeat nan (width left)) /\
    (In (k, rc) (trows right) \/ rc = repeat nan (width right)) /\
    (~ In k (table_keys left) -> lc = repeat nan (width left)) /\
    (~ In k (table_keys right) -> rc = repeat nan (width right)).
Proof.
  intros Hl Hr H. apply merge_rows_In in H. destruct H as (_ & lc & rc & -> & Hlc & Hrc).
  exists lc, rc. split; [ reflexivity | ].
  apply cells_for_In in Hlc. apply cells_for_In in Hrc.
  split; [ | split; [ | split; [ | split; [ | split ] ] ] ].
  - destruct Hlc as [ Hlc | [_ ->] ]; [ now apply (Hl k) | apply repeat_length ].
  - destruct Hrc as [ Hrc | [_ ->] ]; [ now apply (Hr k) | apply repeat_length ].
  - tauto.
  - tauto.
  - intros Hk. destruct Hlc as [ Hlc | [_ ->] ]; [ | reflexivity ].
    exfalso. apply Hk. apply in_map_iff. now exists (k, lc).
  - intros Hk. destruct Hrc as [ Hrc | [_ ->] ]; [ | reflexivity ].
    exfalso. apply Hk. apply in_map_iff. now exists (k, rc).
Qed.

Lemma merge_rectangular left right sl sr :
  rectangular left -> rectangular right -> rectangular (merge left right sl sr).
Proof.
  intros Hl Hr k cells H.
  destruct (merge_row_parts _ _ _ _ _ _ Hl Hr H) as (lc & rc & -> & L1 & L2 & _).
  rewrite width_merge, length_app. lia.
Qed.

Lemma validate_key_columns df name :
  checks.validate_dataframe (checks.columns df) ["state"; "district"; "period"]%string name
  = inr true.
Proof. reflexivity. Qed.

Lemma merge_datasets_value b d e :
  datasets.merge_datasets b d e
  = inr (merge (merge (of_frame b) (of_frame d) "_bio" "_demo") (of_frame e) "" "_enrol").
Proof. unfold datasets.merge_datasets. now rewrite !validate_key_columns. Qed.

(** [merge_datasets] returns a table when the names of the merged columns are
    distinct (pandas refuses a merge whose suffixes give two columns one
    name): the three validations never fail on tables that have their key
    columns.  The table has the value columns of the three datasets side by
    side, a row for a key exactly when one of the datasets holds the key, one
    row per key when no dataset holds a key twice, and in the row of a key
    missing values in the columns of a dataset without that key. *)
Theorem merge_datasets_rows :
  forall b d e,
    NoDup (names (merge (merge (of_frame b) (of_frame d) "_bio" "_demo")
                        (of_frame e) "" "_enrol")) ->
    exists merged,
      datasets.merge_datasets b d e = inr merged /\
      width merged
        = (List.length (data b) + List.length (data d) + List.length (data e))%nat /\
      (forall k, In k (table_keys merged) <->
                 In k (keys b) \/ In k (keys d) \/ In k (keys e)) /\
      (NoDup (keys b) -> NoDup (keys d) -> NoDup (keys e) -> NoDup (table_keys merged)) /\
      (forall k cells, In (k, cells) (trows merged) ->
         List.length cells = width merged /\
         (~ In k (keys b) ->
          forall i, (i < List.length (data b))%nat ->
                    PrimFloat.is_nan (nth i cells nan) = true) /\
         (~ In k (keys d) ->
          forall i, (List.length (data b) <= i
                     < List.length (data b) + List.length (data d))%nat ->
                    PrimFloat.is_nan (nth i cells nan) = true) /\
         (~ In k (keys e) ->
          forall i, (List.length (data b) + List.length (data d) <= i
                     < List.length (data b) + List.length (data d)
                       + List.length (data e))%nat ->
                    PrimFloat.is_nan (nth i cells nan) = true)).
Proof.
  intros b d e _. eexists. split; [ apply merge_datasets_value | ].
  assert (Wb : width (of_frame b) = List.length (data b))
    by (unfold width, of_frame; simpl; apply length_map).
  assert (Wd : width (of_frame d) = List.length (data d))
    by (unfold width, of_frame; simpl; apply length_map).
  assert (We : width (of_frame e) = List.length (data e))
    by (unfold width, of_frame; simpl; apply length_map).
  assert (Rbd : rectangular (merge (of_frame b) (of_frame d) "_bio" "_demo"))
    by (apply merge_rectangular; apply of_frame_rectangular).
  split; [ rewrite !width_merge; lia | ].
  split; [ intros k; rewrite !merge_keys_In, !of_frame_keys; tauto | ].
  split.
  - intros Nb Nd Ne. rewrite merge_keys_NoDup; [ apply merged_keys_NoDup | | ].
    + rewrite merge_keys_NoDup; [ apply merged_keys_NoDup | | ]; now rewrite of_frame_keys.
    + now rewrite of_frame_keys.
  - intros k cells H.
    split; [ apply (merge_rectangular _ _ _ _ Rbd (of_frame_rectangular e) k cells H) | ].
    destruct (merge_row_parts _ _ _ _ _ _ Rbd (of_frame_rectangular e) H)
      as (bd & ec & -> & Lbd & Lec & Hbd & _ & _ & Hec).
    rewrite width_merge, Wb, Wd in Lbd. rewrite We in Lec, Hec. rewrite of_frame_keys in Hec.
    assert (Hinner :
              (~ In k (keys b) ->
               forall i, (i < List.length (data b))%nat ->
                         PrimFloat.is_nan (nth i bd nan) = true) /\
              (~ In k (keys d) ->
               forall i, (List.length (data b) <= i
                          < List.length (data b) + List.length (data d))%nat ->
                         PrimFloat.is_nan (nth i bd nan) = true)).
    { destruct Hbd as [ Hbd | -> ];
        [ | split; intros _ i _; rewrite nth_repeat_nan; reflexivity ].
      destruct (merge_row_parts _ _ _ _ _ _
                  (of_frame_rectangular b) (of_frame_rectangular d) Hbd)
        as (bc & dc & -> & Lb & Ld & _ & _ & Hb & Hd).
      rewrite Wb in Lb, Hb. rewrite Wd in Ld, Hd. rewrite of_frame_keys in Hb, Hd.
      split.
      - intros Hk i Hi. rewrite app_nth1 by lia. rewrite (Hb Hk). rewrite nth_repeat_nan; reflexivity.
      - intros Hk i Hi. rewrite app_nth2 by lia. rewrite (Hd Hk). rewrite nth_repeat_nan; reflexivity. }
    destruct Hinner as [Hb Hd].
    split; [ intros Hk i Hi; rewrite app_nth1 by lia; now apply Hb | ].
    split; [ intros Hk i Hi; rewrite app_nth1 by lia; now apply Hd | ].
    intros Hk i Hi. rewrite app_nth2 by lia. rewrite (Hec Hk). rewrite nth_repeat_nan; reflexivity.
Qed.

Lemma merge_datasets_rows_witness :
  exists merged,
    datasets.merge_datasets bio_three demo_two enrol_one = inr merged /\
    NoDup (table_keys merged).
Proof.
  destruct (merge_datasets_rows bio_three demo_two enrol_one)
    as (merged & E & _ & _ & Hn & _).
  { vm_compute. repeat constructor; simpl; intuition discriminate. }
  exists merged. split; [ exact E | ].
  apply Hn; repeat constructor; simpl; intuition discriminate.
Defined.

End MergeDatasets.

(** * The order of the rows *)

Section KeyOrder.
Import frame signal.

Lemma ascii_compare_trans a b c :
  Ascii.compare a b = Lt -> Ascii.compare b c = Lt -> Ascii.compare a c = Lt.
Proof.
  unfold Ascii.compare. rewrite !N.compare_lt_iff. apply N.lt_trans.
Qed.

Lemma ascii_compare_refl a : Ascii.compare a a = Eq.
Proof. unfold Ascii.compare. apply N.compare_refl. Qed.

Lemma string_compare_refl s : String.compare s s = Eq.
Proof. induction s as [ | c s IH ]; simpl; [ reflexivity | now rewrite ascii_compare_refl ]. Qed.

Lemma string_compare_trans s : forall t u,
  String.compare s t = Lt -> String.compare t u = Lt -> String.compare s u = Lt.
Proof.
  induction s as [ | a s IH ]; intros [ | b t ] [ | c u ]; simpl; try discriminate; auto.
  destruct (Ascii.compare a b) eqn:Eab; try discriminate.
  - apply Ascii.compare_eq_iff in Eab. subst b.
    destruct (Ascii.compare a c); try discriminate; auto. apply IH.
  - intros _. destruct (Ascii.compare b c) eqn:Ebc; try discriminate.
    + apply Ascii.compare_eq_iff in Ebc. subst c. now rewrite Eab.
    + intros _. now rewrite (ascii_compare_trans _ _ _ Eab Ebc).
Qed.

Lemma string_compare_Gt s t : String.compare s t = Gt <-> String.compare t s = Lt.
Proof.
  rewrite (String.compare_antisym t s). destruct (String.compare s t); simpl; split;
    intros H; try discriminate; reflexivity.
Qed.

(** [key_ltb] as the order of the triples. *)
Lemma key_ltb_spec a b :
  key_ltb a b = true <->
  String.compare (state a) (state b) = Lt \/
  (state a = state b /\
   (String.compare (district a) (district b) = Lt \/
    (district a = district b /\ String.compare (period a) (period b) = Lt))).
Proof.
  unfold key_ltb.
  destruct (String.compare (state a) (state b)) eqn:Es.
  - apply String.compare_eq_iff in Es.
    destruct (String.compare (district a) (district b)) eqn:Ed.
    + apply String.compare_eq_iff in Ed.
      destruct (String.compare (period a) (period b)) eqn:Ep;
        split; intros H; try discriminate; try tauto.
      all: destruct H as [ H | (_ & [ H | (_ & H) ]) ]; try discriminate;
        rewrite ?Es, ?Ed, string_compare_refl in H; discriminate.
    + split; [ tauto | reflexivity ].
    + split; [ discriminate | ].
      intros [ H | (_ & [ H | (E & _) ]) ]; try discriminate.
      rewrite E, string_compare_refl in Ed. discriminate.
  - split; [ tauto | reflexivity ].
  - split; [ discriminate | ].
    intros [ H | (E & _) ]; [ discriminate | ].
    rewrite E, string_compare_refl in Es. discriminate.
Qed.

Lemma string_lt_irrefl s : String.compare s s <> Lt.
Proof. rewrite string_compare_refl. discriminate. Qed.

Lemma key_ltb_trans a b c : key_ltb a b = true -> key_ltb b c = true -> key_ltb a c = true.
Proof.
  rewrite !key_ltb_spec.
  intros [ H1 | (E1 & [ H1 | (F1 & H1) ]) ] [ H2 | (E2 & [ H2 | (F2 & H2) ]) ].
  - left. eapply string_compare_trans; eauto.
  - left. now rewrite <- E2.
  - left. now rewrite <- E2.
  - left. now rewrite E1.
  - right. split; [ congruence | ]. left. eapply string_compare_trans; eauto.
  - right. split; [ congruence | ]. left. now rewrite <- F2.
  - left. now rewrite E1.
  - right. split; [ congruence | ]. left. now rewrite F1.
  - right. split; [ congruence | ]. right. split; [ congruence | ].
    eapply string_compare_trans; eauto.
Qed.

Lemma key_ltb_irrefl a : key_ltb a a = false.
Proof.
  destruct (key_ltb a a) eqn:E; [ | reflexivity ].
  apply key_ltb_spec in E.
  destruct E as [ H | (_ & [ H | (_ & H) ]) ]; now apply string_lt_irrefl in H.
Qed.

Lemma key_ltb_asym a b : key_ltb a b = true -> key_ltb b a = false.
Proof.
  intros H. destruct (key_ltb b a) eqn:E; [ | reflexivity ].
  pose proof (key_ltb_trans _ _ _ H E) as Hx. now rewrite key_ltb_irrefl in Hx.
Qed.

(** A key is not after another: it is before it in the order, or equal. *)
Definition key_not_after (a b : Key) : Prop := key_ltb b a = false.

Lemma key_ltb_total a b : key_ltb a b = false -> key_ltb b a = false -> a = b.
Proof.
  intros H1 H2.
  assert (Hs : String.compare (state a) (state b) = Eq).
  { destruct (String.compare (state a) (state b)) eqn:E; [ reflexivity | | ].
    - rewrite (proj2 (key_ltb_spec a b)) in H1; [ discriminate | now left ].
    - apply string_compare_Gt in E.
      rewrite (proj2 (key_ltb_spec b a)) in H2; [ discriminate | now left ]. }
  apply String.compare_eq_iff in Hs.
  assert (Hd : String.compare (district a) (district b) = Eq).
  { destruct (String.compare (district a) (district b)) eqn:E; [ reflexivity | | ].
    - rewrite (proj2 (key_ltb_spec a b)) in H1; [ discriminate | right; auto ].
    - apply string_compare_Gt in E.
      rewrite (proj2 (key_ltb_spec b a)) in H2; [ discriminate | right; auto ]. }
  apply String.compare_eq_iff in Hd.
  assert (Hp : String.compare (period a) (period b) = Eq).
  { destruct (String.compare (period a) (period b)) eqn:E; [ reflexivity | | ].
    - rewrite (proj2 (key_ltb_spec a b)) in H1; [ discriminate | right; auto ].
    - apply string_compare_Gt in E.
      rewrite (proj2 (key_ltb_spec b a)) in H2; [ discriminate | right; auto ]. }
  apply String.compare_eq_iff in Hp.
  destruct a, b. simpl in *. congruence.
Qed.

Lemma key_not_after_trans a b c :
  key_not_after a b -> key_ltb b c = true -> key_ltb a c = true.
Proof.
  unfold key_not_after. intros H1 H2.
  destruct (key_ltb a b) eqn:E; [ eapply key_ltb_trans; eauto | ].
  now rewrite (key_ltb_total a b E H1).
Qed.

Lemma insert_key_sorted k l :
  StronglySorted key_not_after l -> StronglySorted key_not_after (insert_key k l).
Proof.
  intros Hs. induction Hs as [ | a t Ht IH Ha ]; simpl.
  - repeat constructor.
  - destruct (key_ltb k a) eqn:E.
    + constructor; [ now constructor | ].
      constructor; [ unfold key_not_after; now apply key_ltb_asym | ].
      rewrite Forall_forall in *. intros x Hx. unfold key_not_after.
      destruct (key_ltb x k) eqn:Ex; [ | reflexivity ].
      pose proof (key_ltb_trans _ _ _ Ex E) as Hxa.
      specialize (Ha x Hx). unfold key_not_after in Ha. congruence.
    + constructor; [ exact IH | ].
      eapply Permutation_Forall; [ symmetry; apply insert_key_perm | ].
      constructor; [ exact E | exact Ha ].
Qed.

Lemma sort_keys_sorted l : StronglySorted key_not_after (sort_keys l).
Proof.
  induction l as [ | k l IH ]; simpl; [ constructor | now apply insert_key_sorted ].
Qed.

Lemma key_not_after_refl a : key_not_after a a.
Proof. apply key_ltb_irrefl. Qed.

Lemma flat_map_keys_sorted {A : Type} (f : Key -> list A) (key : A -> Key) (l : list Key) :
  (forall k x, In x (f k) -> key x = k) ->
  StronglySorted key_not_after l ->
  StronglySorted key_not_after (map key (flat_map f l)).
Proof.
  intros Hf Hs. induction Hs as [ | k t Ht IH Hk ]; simpl; [ constructor | ].
  rewrite map_app.
  assert (Hrest : Forall (key_not_after k) (map key (flat_map f t))).
  { apply Forall_forall. intros y Hy. apply in_map_iff in Hy. destruct Hy as (x & <- & Hx).
    apply in_flat_map in Hx. destruct Hx as (k' & Hk' & Hx).
    rewrite (Hf _ _ Hx). rewrite Forall_forall in Hk. auto. }
  assert (Hall : forall x, In x (f k) -> key x = k) by (intros x; apply Hf).
  induction (f k) as [ | x xs IHx ]; simpl; [ exact IH | ].
  constructor.
  - apply IHx. intros y Hy. apply Hall. now right.
  - rewrite (Hall x (or_introl eq_refl)). apply Forall_app. split; [ | exact Hrest ].
    apply Forall_forall. intros y Hy. apply in_map_iff in Hy. destruct Hy as (z & <- & Hz).
    rewrite (Hall z (or_intror Hz)). apply key_not_after_refl.
Qed.

Lemma merge_keys_sorted left right sl sr :
  StronglySorted key_not_after (table_keys (merge left right sl sr)).
Proof.
  unfold table_keys, merge. simpl. apply flat_map_keys_sorted.
  - intros k x Hx. apply in_flat_map in Hx. destruct Hx as (lc & _ & Hx).
    apply in_map_iff in Hx. now destruct Hx as (rc & <- & _).
  - apply sort_keys_sorted.
Qed.

(** The rows of the signals table are in the order of their keys, by state,
    then district, then period: no row comes after a row with a greater
    key. *)
Theorem calculate_all_signals_key_order :
  forall b d e,
    StronglySorted (fun k k' => key_ltb k' k = false)
                   (map key_of (calculate_all_signals b d e)) /\
    (forall k k', key_ltb k k' = true ->
       String.compare (state k) (state k') = Lt \/
       (state k = state k' /\
        (String.compare (district k) (district k') = Lt \/
         (district k = district k' /\ String.compare (period k) (period k') = Lt)))).
Proof.
  intros b d e. split.
  - rewrite calculate_all_signals_rows, map_map.
    rewrite (map_ext _ fst) by apply key_of_signal_row.
    unfold signals_table. apply merge_keys_sorted.
  - intros k k'. apply key_ltb_spec.
Qed.

End KeyOrder.

(** * preprocessing.py: what the cleaning guarantees *)

Section DropDuplicates.
Local Open Scope float_scope.
Import frame preprocessing.

(** The rows of a table, read off its columns one row at a time. *)
Fixpoint rows_of (ks : list Key) (cols : list (list float)) : list (Key * list float) :=
  match ks with
  | [] => []
  | k :: ks' => (k, map (hd nan) cols) :: rows_of ks' (map (@tl float) cols)
  end.

Lemma nth_succ_tl (c : list float) i : nth (S i) c nan = nth i (tl c) nan.
Proof. destruct c; [ now destruct i | reflexivity ]. Qed.

Lemma nth_zero_hd (c : list float) : nth 0 c nan = hd nan c.
Proof. now destruct c. Qed.

Lemma rows_shift ks : forall (cols : list (list float)) s,
  map (fun ik : nat * Key => (snd ik, map (fun c => nth (fst ik) c nan) cols))
      (combine (seq (S s) (List.length ks)) ks)
  = map (fun ik : nat * Key => (snd ik, map (fun c => nth (fst ik) c nan) (map (@tl float) cols)))
        (combine (seq s (List.length ks)) ks).
Proof.
  induction ks as [ | k ks IH ]; intros cols s; simpl; [ reflexivity | ].
  f_equal; [ | apply IH ].
  f_equal. rewrite map_map. apply map_ext. intros c. apply nth_succ_tl.
Qed.

Lemma rows_as_rows_of ks : forall (cols : list (list float)),
  map (fun ik : nat * Key => (snd ik, map (fun c => nth (fst ik) c nan) cols))
      (combine (seq 0 (List.length ks)) ks)
  = rows_of ks cols.
Proof.
  induction ks as [ | k ks IH ]; intros cols; simpl; [ reflexivity | ].
  f_equal.
  - f_equal. apply map_ext. intros c. apply nth_zero_hd.
  - rewrite rows_shift. apply IH.
Qed.

Lemma rows_rows_of df : rows df = rows_of (keys df) (map snd (data df)).
Proof.
  rewrite <- rows_as_rows_of. unfold rows, nrows, cells_at.
  apply map_ext. intros [i k]. simpl. now rewrite map_map.
Qed.

Lemma select_nil {A : Type} (keep : list bool) : select keep (@nil A) = [].
Proof. now destruct keep. Qed.

Lemma hd_select_true keep (c : list float) : hd nan (select (true :: keep) c) = hd nan c.
Proof. now destruct c. Qed.

Lemma tl_select_true keep (c : list float) : tl (select (true :: keep) c) = select keep (tl c).
Proof. destruct c; simpl; [ now rewrite select_nil | reflexivity ]. Qed.

Lemma select_false keep (c : list float) : select (false :: keep) c = select keep (tl c).
Proof. destruct c; simpl; [ now rewrite select_nil | reflexivity ]. Qed.

Lemma select_rows_of ks : forall keep cols,
  List.length keep = List.length ks ->
  select keep (rows_of ks cols) = rows_of (select keep ks) (map (select keep) cols).
Proof.
  induction ks as [ | k ks IH ]; intros [ | b keep ] cols H; simpl in *; try discriminate;
    [ reflexivity | ].
  injection H as H. destruct b.
  - simpl. f_equal.
    + f_equal. rewrite map_map. apply map_ext. intros c. now destruct c.
    + rewrite (IH keep _ H). f_equal. rewrite !map_map. apply map_ext.
      intros c. destruct c; simpl; [ now rewrite select_nil | reflexivity ].
  - rewrite (IH keep _ H). f_equal. rewrite map_map. apply map_ext.
    intros c. destruct c; simpl; [ now rewrite select_nil | reflexivity ].
Qed.

Lemma rows_drop_duplicates df :
  rows (drop_duplicates df) = select (map negb (duplicated df)) (rows df).
Proof.
  rewrite !rows_rows_of. unfold drop_duplicates. simpl.
  rewrite select_rows_of.
  - f_equal. rewrite !map_map. reflexivity.
  - unfold duplicated. now rewrite length_map, duplicated_from_length, rows_length.
Qed.

(** No row that is kept is a duplicate of a row kept before it. *)
Lemma kept_rows_differ rest : forall seen seen',
  (forall x, In x seen' -> In x seen) ->
  Forall (fun d => d = false)
         (duplicated_from seen' (select (map negb (duplicated_from seen rest)) rest)).
Proof.
  induction rest as [ | r rest IH ]; intros seen seen' Hsub; simpl; [ constructor | ].
  destruct (existsb (row_eqb r) seen) eqn:E; simpl.
  - apply IH. intros x Hx. apply in_or_app. left. auto.
  - constructor.
    + destruct (existsb (row_eqb r) seen') eqn:E'; [ | reflexivity ].
      apply existsb_exists in E'. destruct E' as (x & Hx & Ex).
      rewrite <- E. symmetry. apply existsb_exists. exists x. auto.
    + apply IH. intros x Hx. apply in_app_or in Hx. apply in_or_app.
      destruct Hx as [ Hx | Hx ]; auto.
Qed.

Lemma drop_duplicates_no_duplicates df :
  Forall (fun d => d = false) (duplicated (drop_duplicates df)).
Proof.
  unfold duplicated at 1. rewrite rows_drop_duplicates. unfold duplicated.
  apply kept_rows_differ. auto.
Qed.

Lemma drop_duplicates_well_formed df : well_formed df -> well_formed (drop_duplicates df).
Proof.
  unfold well_formed, nrows, drop_duplicates. simpl. rewrite !Forall_forall.
  intros H c Hc. apply in_map_iff in Hc. destruct Hc as (c0 & <- & Hc0). simpl.
  apply select_length. now apply H.
Qed.

Lemma select_length_le {A : Type} (keep : list bool) : forall (l : list A),
  (List.length (select keep l) <= List.length l)%nat.
Proof.
  induction keep as [ | b keep IH ]; intros [ | x l ]; simpl; try lia.
  specialize (IH l). destruct b; simpl; lia.
Qed.

(** Equality of rows for [duplicated] is an equivalence. *)
Lemma cell_eqb_sym x y : cell_eqb x y = cell_eqb y x.
Proof. unfold cell_eqb. now rewrite feqb_sym, (andb_comm (PrimFloat.is_nan x)). Qed.

Lemma cell_eqb_trans x y z : cell_eqb x y = true -> cell_eqb y z = true -> cell_eqb x z = true.
Proof.
  unfold cell_eqb. intros H1 H2.
  apply orb_true_iff in H1. apply orb_true_iff in H2. apply orb_true_iff.
  destruct H1 as [ H1 | H1 ], H2 as [ H2 | H2 ].
  - left. eapply feqb_trans; eauto.
  - apply andb_true_iff in H2. destruct H2 as [H2 _].
    apply feqb_defined_r in H1. unfold defined in H1. congruence.
  - apply andb_true_iff in H1. destruct H1 as [_ H1].
    apply feqb_defined_l in H2. unfold defined in H2. congruence.
  - apply andb_true_iff in H1. apply andb_true_iff in H2. right.
    apply andb_true_iff. tauto.
Qed.

Lemma cells_eqb_sym a : forall b, cells_eqb a b = cells_eqb b a.
Proof.
  induction a as [ | x a IH ]; intros [ | y b ]; simpl; try reflexivity.
  now rewrite cell_eqb_sym, IH.
Qed.

Lemma cells_eqb_trans a : forall b c,
  cells_eqb a b = true -> cells_eqb b c = true -> cells_eqb a c = true.
Proof.
  induction a as [ | x a IH ]; intros [ | y b ] [ | z c ]; simpl; try discriminate; auto.
  rewrite !andb_true_iff. intros [H1 H2] [H3 H4].
  split; [ eapply cell_eqb_trans; eauto | eapply IH; eauto ].
Qed.

Lemma row_eqb_sym r s : row_eqb r s = row_eqb s r.
Proof.
  unfold row_eqb, key_eqb.
  now rewrite (String.eqb_sym (state (fst r))), (String.eqb_sym (district (fst r))),
    (String.eqb_sym (period (fst r))), cells_eqb_sym.
Qed.

Lemma row_eqb_trans r s t : row_eqb r s = true -> row_eqb s t = true -> row_eqb r t = true.
Proof.
  unfold row_eqb. rewrite !andb_true_iff. intros [K1 C1] [K2 C2].
  split; [ | eapply cells_eqb_trans; eauto ].
  apply key_eqb_eq in K1. apply key_eqb_eq in K2. apply key_eqb_eq. congruence.
Qed.

Lemma cell_eqb_refl x : cell_eqb x x = true.
Proof.
  unfold cell_eqb. destruct (PrimFloat.is_nan x) eqn:E; [ apply orb_true_r | ].
  now rewrite feqb_refl.
Qed.

Lemma cells_eqb_refl a : cells_eqb a a = true.
Proof. induction a as [ | x a IH ]; simpl; [ reflexivity | now rewrite cell_eqb_refl ]. Qed.

Lemma row_eqb_refl r : row_eqb r r = true.
Proof. unfold row_eqb. now rewrite key_eqb_refl, cells_eqb_refl. Qed.

(** Every row has an equal row among those that are kept. *)
Lemma every_row_kept rest : forall seen kept,
  (forall s, In s seen -> exists s', In s' kept /\ row_eqb s s' = true) ->
  forall r, In r rest ->
    exists r', In r' (kept ++ select (map negb (duplicated_from seen rest)) rest)
               /\ row_eqb r r' = true.
Proof.
  induction rest as [ | a rest IH ]; intros seen kept Hseen r Hr; [ destruct Hr | ].
  simpl. destruct (existsb (row_eqb a) seen) eqn:E; simpl.
  - destruct Hr as [ <- | Hr ].
    + apply existsb_exists in E. destruct E as (s & Hs & Es).
      destruct (Hseen s Hs) as (s' & Hs' & Es').
      exists s'. split; [ apply in_or_app; now left | eapply row_eqb_trans; eauto ].
    + apply (IH (seen ++ [a])%list kept); [ | exact Hr ].
      intros s Hs. apply in_app_or in Hs. destruct Hs as [ Hs | [ <- | [] ] ]; [ auto | ].
      apply existsb_exists in E. destruct E as (s & Hs & Es).
      destruct (Hseen s Hs) as (s' & Hs' & Es'). exists s'. split; [ exact Hs' | ].
      eapply row_eqb_trans; eauto.
  - assert (Hstep : forall r, In r rest ->
              exists r', In r' ((kept ++ [a]) ++
                                select (map negb (duplicated_from (seen ++ [a]) rest)) rest)
                         /\ row_eqb r r' = true).
    { apply IH. intros s Hs. apply in_app_or in Hs.
      destruct Hs as [ Hs | [ <- | [] ] ].
      - destruct (Hseen s Hs) as (s' & Hs' & Es'). exists s'.
        split; [ apply in_or_app; now left | exact Es' ].
      - exists a. split; [ apply in_or_app; right; now left | apply row_eqb_refl ]. }
    destruct Hr as [ <- | Hr ].
    + exists a. split; [ apply in_or_app; right; now left | apply row_eqb_refl ].
    + destruct (Hstep r Hr) as (r' & Hr' & Er). exists r'. split; [ | exact Er ].
      rewrite <- app_assoc in Hr'. exact Hr'.
Qed.

Lemma drop_duplicates_keeps_every_row df r :
  In r (rows df) -> exists r', In r' (rows (drop_duplicates df)) /\ row_eqb r r' = true.
Proof.
  intros Hr. rewrite rows_drop_duplicates. unfold duplicated.
  apply (every_row_kept (rows df) [] [] (fun s Hs => False_ind _ Hs) r Hr).
Qed.

End DropDuplicates.

Definition raw_same_row_twice : frame.DataFrame :=
  frame.mkDataFrame
    [ frame.mkKey "kerala " "Idukki" "2025-03-01";
      frame.mkKey "Kerala" " idukki" "2025-03";
      frame.mkKey "Goa" "North Goa" "2025-04" ]
    [ ("Bio Count", [5%float; 5%float; nan]) ].

Section CleanCommonColumns.
Local Open Scope float_scope.
Import frame preprocessing.

Lemma map_snd_named (cols : list (string * list float)) (f : string -> string) :
  map snd (map (fun c => (f (fst c), snd c)) cols) = map snd cols.
Proof. rewrite map_map. reflexivity. Qed.

Lemma clean_common_columns_well_formed raw out :
  well_formed raw -> clean_common_columns raw = Ok out -> well_formed out.
Proof.
  intros Hwf H. apply clean_common_columns_steps in H. destruct H as (ks & Hks & ->).
  apply drop_duplicates_well_formed.
  unfold well_formed, nrows in *. simpl. rewrite !Forall_forall in *.
  intros c Hc. apply in_map_iff in Hc. destruct Hc as (c0 & <- & Hc0). simpl.
  rewrite (mapM_length _ _ _ Hks). now apply Hwf.
Qed.

(** [clean_common_columns] returns a table without duplicate rows: no row
    equals an earlier one, so dropping duplicates again changes nothing; the
    rows are rows of the table with cleaned names, keys and periods, every
    row of which has an equal row in the result; no column is lost. *)
Theorem clean_common_columns_no_duplicate_rows :
  forall raw out,
    well_formed raw -> clean_common_columns raw = Ok out ->
    well_formed out /\
    Forall (fun d => d = false) (duplicated out) /\
    drop_duplicates out = out /\
    (nrows out <= nrows raw)%nat /\
    List.length (data out) = List.length (data raw) /\
    exists ks,
      mapM clean_key (keys raw) = Ok ks /\
      let cleaned :=
        mkDataFrame ks (map (fun c => (normalize_column_name (fst c), snd c)) (data raw)) in
      (forall r, In r (rows out) -> In r (rows cleaned)) /\
      (forall r, In r (rows cleaned) -> exists r', In r' (rows out) /\ row_eqb r r' = true).
Proof.
  intros raw out Hwf H. apply clean_common_columns_steps in H.
  destruct H as (ks & Hks & ->).
  set (cleaned := mkDataFrame ks
                    (map (fun c => (normalize_column_name (fst c), snd c)) (data raw))).
  assert (Hc : well_formed cleaned).
  { unfold well_formed, nrows, cleaned in *. simpl. rewrite !Forall_forall in *.
    intros c Hc. apply in_map_iff in Hc. destruct Hc as (c0 & <- & Hc0). simpl.
    rewrite (mapM_length _ _ _ Hks). now apply Hwf. }
  split; [ now apply drop_duplicates_well_formed | ].
  split; [ apply drop_duplicates_no_duplicates | ].
  split; [ apply drop_duplicates_none;
           [ now apply drop_duplicates_well_formed | apply drop_duplicates_no_duplicates ] | ].
  split.
  { unfold nrows, drop_duplicates. simpl.
    rewrite <- (mapM_length _ _ _ Hks). apply select_length_le. }
  split; [ unfold drop_duplicates, cleaned; simpl; now rewrite !length_map | ].
  exists ks. split; [ exact Hks | ]. fold cleaned. split.
  - intros r Hr. rewrite rows_drop_duplicates in Hr. now apply select_In in Hr.
  - apply drop_duplicates_keeps_every_row.
Qed.

Lemma clean_common_columns_no_duplicate_rows_witness :
  exists out, clean_common_columns raw_same_row_twice = Ok out /\ nrows out = 2%nat /\
              Forall (fun d => d = false) (duplicated out).
Proof.
  destruct (clean_common_columns raw_same_row_twice) as [ out | e ] eqn:E;
    [ | vm_compute in E; discriminate E ].
  exists out. split; [ reflexivity | ].
  split; [ vm_compute in E; injection E as <-; reflexivity | ].
  apply (clean_common_columns_no_duplicate_rows raw_same_row_twice out); [ | exact E ].
  repeat constructor.
Defined.






End CleanCommonColumns.

Section PreprocessValues.
Local Open Scope float_scope.
Import frame preprocessing.

Lemma nth_error_combine {A B : Type} (l : list A) : forall (l' : list B) i y,
  List.length l = List.length l' -> nth_error l' i = Some y ->
  exists x, nth_error (combine l l') i = Some (x, y).
Proof.
  induction l as [ | a l IH ]; intros [ | b l' ] i y H Hy; simpl in *; try discriminate.
  - destruct i; discriminate.
  - destruct i as [ | i ]; simpl in *.
    + injection Hy as <-. eauto.
    + apply IH; [ congruence | exact Hy ].
Qed.

(** Imputation leaves a value that is present as it is. *)
Lemma impute_column_keeps ks col i x :
  List.length ks = List.length col ->
  nth_error col i = Some x -> defined x ->
  nth_error (impute_column ks col) i = Some x.
Proof.
  intros Hlen Hx Dx. unfold impute_column.
  destruct (existsb PrimFloat.is_nan col); [ | exact Hx ].
  unfold pd.fillna. rewrite nth_error_map, nth_error_map.
  destruct (nth_error_combine ks col i x Hlen Hx) as (k & ->). simpl.
  unfold defined in Dx. now rewrite Dx, Dx.
Qed.

Lemma clip_column_nth col i x :
  nth_error col i = Some x ->
  nth_error (clip_column col) i = Some (if x <? 0 then 0 else x).
Proof.
  intros Hx. unfold clip_column.
  destruct (pd.any_negative col) eqn:E.
  - unfold pdx.clip_lower_0. now rewrite nth_error_map, Hx.
  - rewrite Hx. f_equal.
    rewrite (proj1 (any_negative_false col) E x (nth_error_In _ _ Hx)). reflexivity.
Qed.

Lemma cap_column_nth col i x :
  nth_error col i = Some x ->
  nth_error (cap_column col) i
  = Some (if pdx.quantile 99 100 col <? x then pdx.quantile 99 100 col else x).
Proof.
  intros Hx. unfold cap_column.
  destruct (existsb (fun v => pdx.quantile 99 100 col <? v) col) eqn:E.
  - now rewrite nth_error_map, Hx.
  - rewrite Hx. f_equal.
    destruct (pdx.quantile 99 100 col <? x) eqn:Ex; [ | reflexivity ].
    exfalso. apply not_true_iff_false in E. apply E. apply existsb_exists. exists x.
    split; [ exact (nth_error_In _ _ Hx) | exact Ex ].
Qed.

(** The three preprocessors keep the rows and the columns of the table that
    [clean_common_columns] returns, and a value that is present there is
    changed in two ways only: below zero it becomes 0, and above the 99th
    percentile of its imputed and clipped column it becomes that percentile.
    So a present value between 0 and the percentile is returned as it is. *)
Theorem preprocess_changes_values_only :
  forall preprocess, In preprocess preprocessors ->
  forall raw out,
    well_formed raw -> preprocess raw = Ok out ->
    exists cleaned,
      clean_common_columns raw = Ok cleaned /\
      keys out = keys cleaned /\
      map fst (data out) = map fst (data cleaned) /\
      forall j name col,
        nth_error (data cleaned) j = Some (name, col) ->
        exists col',
          nth_error (data out) j = Some (name, col') /\
          List.length col' = List.length col /\
          forall i x, nth_error col i = Some x -> defined x ->
            let threshold :=
              pdx.quantile 99 100 (clip_column (impute_column (keys cleaned) col)) in
            let clipped := if x <? 0 then 0 else x in
            nth_error col' i = Some (if threshold <? clipped then threshold else clipped) /\
            ((x <? 0) = false -> (threshold <? x) = false -> nth_error col' i = Some x).
Proof.
  intros preprocess Hp raw out Hwf H. rewrite (preprocessors_agree _ raw Hp) in H.
  apply preprocess_biometric_steps in H. destruct H as (cleaned & Hc & ->).
  exists cleaned. split; [ exact Hc | ]. split; [ reflexivity | ].
  pose proof (clean_common_columns_well_formed _ _ Hwf Hc) as Hcw.
  unfold imputed_clipped, map_columns. simpl. rewrite !map_map. simpl.
  split; [ reflexivity | ].
  intros j name col Hj. eexists. split; [ rewrite nth_error_map, Hj; reflexivity | ].
  simpl.
  assert (Hlen : List.length (keys cleaned) = List.length col).
  { unfold well_formed, nrows in Hcw. rewrite Forall_forall in Hcw.
    symmetry. exact (Hcw _ (nth_error_In _ _ Hj)). }
  split; [ now rewrite cap_column_length, clip_column_length, impute_column_length | ].
  intros i x Hx Dx.
  set (threshold := pdx.quantile 99 100 (clip_column (impute_column (keys cleaned) col))).
  set (clipped := if x <? 0 then 0 else x).
  assert (Hv : nth_error (cap_column (clip_column (impute_column (keys cleaned) col))) i
               = Some (if threshold <? clipped then threshold else clipped)).
  { apply cap_column_nth, clip_column_nth. now apply impute_column_keeps. }
  split; [ exact Hv | ].
  intros Hn Ht. rewrite Hv. unfold clipped. now rewrite Hn, Ht.
Qed.

Lemma preprocess_changes_values_only_witness :
  exists cleaned,
    clean_common_columns raw_two_regions = Ok cleaned /\
    keys cleaned_two_regions = keys cleaned.
Proof.
  destruct (preprocess_changes_values_only preprocess_biometric (or_introl eq_refl)
              raw_two_regions cleaned_two_regions) as (cleaned & Hc & Hk & _).
  - repeat constructor.
  - vm_compute. reflexivity.
  - exists cleaned. split; [ exact Hc | exact Hk ].
Defined.

(** [preprocess_demographic] and [preprocess_enrolment] are the same
    function, and they return what [preprocess_biometric] returns: clipping
    and capping one column after the other gives the table that clipping all
    the columns and then capping all of them gives. *)
Theorem preprocessors_same_function :
  forall raw,
    preprocess_demographic raw = preprocess_biometric raw /\
    preprocess_enrolment raw = preprocess_demographic raw.
Proof.
  intros raw. split.
  - apply preprocess_demographic_as_biometric.
  - now rewrite preprocess_enrolment_as_biometric, preprocess_demographic_as_biometric.
Qed.

End PreprocessValues.

(** * utils.py: the checks *)

Section Checks.
Local Open Scope float_scope.
Import frame checks.

Lemma in_names_iff n l : signal.in_names n l = true <-> In n l.
Proof.
  unfold signal.in_names. rewrite existsb_exists. split.
  - intros (x & Hx & E). apply String.eqb_eq in E. now subst.
  - intros H. exists n. split; [ exact H | apply String.eqb_refl ].
Qed.

Lemma missing_columns_In df_columns required c :
  In c (filter (fun c => negb (signal.in_names c df_columns)) (nodup string_dec required))
  <-> In c required /\ ~ In c df_columns.
Proof.
  rewrite filter_In, nodup_In, negb_true_iff. split; intros [H1 H2]; split; auto.
  - intros Hin. apply in_names_iff in Hin. congruence.
  - destruct (signal.in_names c df_columns) eqn:E; [ | reflexivity ].
    apply in_names_iff in E. contradiction.
Qed.

(** [validate_dataframe] returns [True] exactly when every required column is
    a column of the table, and nothing else; otherwise its error carries the
    name it was given and the required columns that the table lacks, each
    once and at least one. *)
Theorem validate_dataframe_outcome :
  forall df_columns required_columns name,
    (validate_dataframe df_columns required_columns name = inr true <->
     forall c, In c required_columns -> In c df_columns) /\
    validate_dataframe df_columns required_columns name <> inr false /\
    (forall e, validate_dataframe df_columns required_columns name = inl e ->
       exists missing_cols,
         e = missing_required_columns name missing_cols /\
         missing_cols <> [] /\ NoDup missing_cols /\
         forall c, In c missing_cols <-> In c required_columns /\ ~ In c df_columns).
Proof.
  intros df_columns required name. unfold validate_dataframe.
  pose proof (missing_columns_In df_columns required) as Hin.
  assert (Hnd : NoDup (filter (fun c => negb (signal.in_names c df_columns))
                              (nodup string_dec required))).
  { apply NoDup_filter, NoDup_nodup. }
  destruct (filter (fun c => negb (signal.in_names c df_columns))
                   (nodup string_dec required)) as [ | m rest ] eqn:E.
  - split; [ split; [ | reflexivity ] | split; [ discriminate | discriminate ] ].
    intros _ c Hc. destruct (In_dec string_dec c df_columns) as [ H | H ]; [ exact H | ].
    exfalso. apply (proj2 (Hin c)). auto.
  - split; [ split; [ discriminate | ] | split; [ discriminate | ] ].
    + intros H. exfalso. destruct (proj1 (Hin m) (or_introl eq_refl)) as [H1 H2]. auto.
    + intros e He. injection He as <-. exists (m :: rest).
      split; [ reflexivity | ]. split; [ discriminate | ]. split; [ exact Hnd | exact Hin ].
Qed.

(** The sum of the counts of a report. *)
Definition sum_missing (l : list (string * Z * float)) : Z :=
  fold_right Z.add 0%Z (map (fun r => snd (fst r)) l).

Lemma fold_left_add_from l : forall acc, fold_left Z.add l acc = (acc + fold_right Z.add 0 l)%Z.
Proof.
  induction l as [ | a l IH ]; intros acc; simpl; [ lia | ]. rewrite IH. lia.
Qed.

Lemma insert_by_missing_perm r l : Permutation (insert_by_missing r l) (r :: l).
Proof.
  induction l as [ | a t IH ]; simpl; [ reflexivity | ].
  destruct (snd (fst r) <? snd (fst a))%Z; [ | reflexivity ].
  rewrite IH. apply perm_swap.
Qed.

Lemma sort_by_missing_perm l : Permutation (fold_right insert_by_missing [] l) l.
Proof.
  induction l as [ | a t IH ]; simpl; [ reflexivity | ].
  rewrite insert_by_missing_perm. now constructor.
Qed.

Lemma sum_missing_perm l l' : Permutation l l' -> sum_missing l = sum_missing l'.
Proof.
  unfold sum_missing.
  induction 1 as [ | x l l' _ IH | x y l | l l' l'' _ IH1 _ IH2 ]; simpl; lia.
Qed.

Lemma sum_missing_positive l :
  (forall r, In r l -> (0 <= snd (fst r))%Z) ->
  sum_missing (filter (fun r => (0 <? snd (fst r))%Z) l) = sum_missing l.
Proof.
  unfold sum_missing. induction l as [ | a t IH ]; simpl; intros H; [ reflexivity | ].
  assert (IH' := IH (fun r Hr => H r (or_intror Hr))).
  pose proof (H a (or_introl eq_refl)) as Ha.
  destruct (Z.ltb_spec 0 (snd (fst a))); simpl; lia.
Qed.

Definition by_missing_desc (r r' : string * Z * float) : Prop :=
  (snd (fst r') <= snd (fst r))%Z.

Lemma insert_by_missing_sorted r l :
  StronglySorted by_missing_desc l -> StronglySorted by_missing_desc (insert_by_missing r l).
Proof.
  intros Hs. induction Hs as [ | a t Ht IH Ha ]; simpl; [ repeat constructor | ].
  destruct (Z.ltb_spec (snd (fst r)) (snd (fst a))).
  - constructor; [ exact IH | ].
    eapply Permutation_Forall; [ symmetry; apply insert_by_missing_perm | ].
    constructor; [ unfold by_missing_desc; lia | exact Ha ].
  - constructor; [ now constructor | ].
    constructor; [ unfold by_missing_desc; lia | ].
    rewrite Forall_forall in *. intros x Hx. specialize (Ha x Hx).
    unfold by_missing_desc in *. lia.
Qed.

Lemma sort_by_missing_sorted l : StronglySorted by_missing_desc (fold_right insert_by_missing [] l).
Proof.
  induction l as [ | a t IH ]; simpl; [ constructor | now apply insert_by_missing_sorted ].
Qed.

Lemma count_missing_zero (col : list float) :
  Z.of_nat (List.length (filter PrimFloat.is_nan col)) = 0%Z <->
  forall v, In v col -> defined v.
Proof.
  split.
  - intros H v Hv. unfold defined. destruct (PrimFloat.is_nan v) eqn:E; [ | reflexivity ].
    assert (Hin : In v (filter PrimFloat.is_nan col)) by (apply filter_In; auto).
    destruct (filter PrimFloat.is_nan col); [ destruct Hin | simpl in H; lia ].
  - intros H. rewrite filter_none; [ reflexivity | ]. intros v Hv. exact (H v Hv).
Qed.

Lemma sum_zero_iff (l : list Z) :
  (forall z, In z l -> (0 <= z)%Z) ->
  (fold_right Z.add 0%Z l = 0%Z <-> forall z, In z l -> z = 0%Z).
Proof.
  induction l as [ | a t IH ]; simpl; intros H.
  - split; [ intros _ z [] | reflexivity ].
  - pose proof (H a (or_introl eq_refl)) as Ha.
    assert (Ht : forall z, In z t -> (0 <= z)%Z) by (intros z Hz; apply H; now right).
    assert (Hs : (0 <= fold_right Z.add 0 t)%Z).
    { clear - Ht. induction t as [ | b t IH ]; simpl; [ lia | ].
      pose proof (Ht b (or_introl eq_refl)).
      assert (0 <= fold_right Z.add 0 t)%Z by (apply IH; intros z Hz; apply Ht; now right).
      lia. }
    specialize (IH Ht). split.
    + intros E z [ <- | Hz ]; [ lia | ]. apply IH; [ lia | exact Hz ].
    + intros E. rewrite (E a (or_introl eq_refl)).
      rewrite (proj2 IH); [ reflexivity | ]. intros z Hz. apply E. now right.
Qed.

(** The report of [check_missing_values]: its total is the sum of the counts
    it lists and the number of columns with missing values is the number of
    lines it lists; a line is a value column of the table with its count of
    missing values, which is not zero; the lines go from the greatest count
    to the least; and the total is zero exactly when no value is missing. *)
Theorem check_missing_values_report :
  forall df,
    let report := check_missing_values df in
    total_missing report = sum_missing (details report) /\
    columns_with_missing report = Z.of_nat (List.length (details report)) /\
    (forall column missing pct, In (column, missing, pct) (details report) ->
       (0 < missing)%Z /\
       exists col, In (column, col) (data df) /\
                   missing = Z.of_nat (List.length (filter PrimFloat.is_nan col))) /\
    StronglySorted (fun r r' => (snd (fst r') <= snd (fst r))%Z) (details report) /\
    (total_missing report = 0%Z <->
     forall name col v, In (name, col) (data df) -> In v col -> defined v) /\
    (total_missing report = 0%Z <-> details report = []).
Proof.
  intros df report. unfold report, check_missing_values. cbn [total_missing
    columns_with_missing details].
  set (missing := isnull_sum df).
  set (lines := map (fun cm => (fst cm, snd cm,
                  pd.float_of_Z (snd cm) / pd.float_of_Z (Z.of_nat (nrows df)) * 100))
                missing).
  assert (Hnn : forall r, In r lines -> (0 <= snd (fst r))%Z).
  { intros r Hr. apply in_map_iff in Hr. destruct Hr as ((c & m) & <- & Hc). simpl.
    unfold missing, isnull_sum in Hc. apply in_app_or in Hc.
    destruct Hc as [ Hc | Hc ].
    - simpl in Hc. destruct Hc as [ H | [ H | [ H | [] ] ] ]; injection H as _ <-; lia.
    - apply in_map_iff in Hc. destruct Hc as (c0 & H & _). injection H as _ <-. lia. }
  assert (Htotal : fold_left Z.add (map snd missing) 0%Z = sum_missing lines).
  { rewrite fold_left_add_from. unfold sum_missing, lines. rewrite map_map. simpl.
    reflexivity. }
  assert (Hsum : sum_missing (fold_right insert_by_missing []
                   (filter (fun r => (0 <? snd (fst r))%Z) lines)) = sum_missing lines).
  { rewrite (sum_missing_perm _ _ (sort_by_missing_perm _)). now apply sum_missing_positive. }
  assert (Hline : forall column m pct,
            In (column, m, pct) (fold_right insert_by_missing []
                                   (filter (fun r => (0 <? snd (fst r))%Z) lines)) ->
            (0 < m)%Z /\
            exists col, In (column, col) (data df) /\
                        m = Z.of_nat (List.length (filter PrimFloat.is_nan col))).
  { intros column m pct H. apply (Permutation_in _ (sort_by_missing_perm _)) in H.
    apply filter_In in H. destruct H as [H Hpos]. simpl in Hpos. apply Z.ltb_lt in Hpos.
    split; [ exact Hpos | ].
    apply in_map_iff in H. destruct H as ((c & m') & H & Hc). injection H as -> -> _.
    unfold missing, isnull_sum in Hc. apply in_app_or in Hc. destruct Hc as [ Hc | Hc ].
    - simpl in Hc. destruct Hc as [ H | [ H | [ H | [] ] ] ]; injection H as _ <-; lia.
    - apply in_map_iff in Hc. destruct Hc as ((name & col) & H & Hin).
      injection H as <- <-. eauto. }
  assert (Hzero : sum_missing lines = 0%Z <->
            forall name col v, In (name, col) (data df) -> In v col -> defined v).
  { unfold sum_missing. rewrite sum_zero_iff.
    - split.
      + intros H name col v Hc Hv.
        apply (proj1 (count_missing_zero col)); [ | exact Hv ].
        apply H. apply in_map_iff.
        exists (name, Z.of_nat (List.length (filter PrimFloat.is_nan col)),
                pd.float_of_Z (Z.of_nat (List.length (filter PrimFloat.is_nan col)))
                  / pd.float_of_Z (Z.of_nat (nrows df)) * 100).
        split; [ reflexivity | ]. unfold lines. apply in_map_iff.
        exists (name, Z.of_nat (List.length (filter PrimFloat.is_nan col))).
        split; [ reflexivity | ]. unfold missing, isnull_sum. apply in_or_app. right.
        apply in_map_iff. exists (name, col). auto.
      + intros H z Hz. apply in_map_iff in Hz. destruct Hz as (((c & m) & p) & <- & Hr). simpl.
        apply in_map_iff in Hr. destruct Hr as ((c' & m') & E & Hc). injection E as -> -> _.
        unfold missing, isnull_sum in Hc. apply in_app_or in Hc. destruct Hc as [ Hc | Hc ].
        * simpl in Hc. destruct Hc as [ E | [ E | [ E | [] ] ] ]; now injection E as _ <-.
        * apply in_map_iff in Hc. destruct Hc as ((name & col) & E & Hin).
          injection E as _ <-. simpl. apply count_missing_zero. intros v Hv.
          exact (H name col v Hin Hv).
    - intros z Hz. apply in_map_iff in Hz. destruct Hz as (r & <- & Hr). now apply Hnn. }
  split; [ now rewrite Htotal, Hsum | ].
  split; [ reflexivity | ].
  split; [ exact Hline | ].
  split; [ apply sort_by_missing_sorted | ].
  split; [ now rewrite Htotal | ].
  rewrite Htotal, <- Hsum.
  destruct (fold_right insert_by_missing []
              (filter (fun r => (0 <? snd (fst r))%Z) lines)) as [ | [[c m] p] rest ] eqn:E.
  - split; reflexivity.
  - split; [ | discriminate ]. intros H. exfalso.
    destruct (Hline c m p (or_introl eq_refl)) as [Hpos _].
    assert (Hrest : (0 <= sum_missing rest)%Z).
    { assert (Hall : forall r, In r rest -> (0 < snd (fst r))%Z).
      { intros [[c' m'] p'] Hr. simpl. now destruct (Hline c' m' p' (or_intror Hr)). }
      clear - Hall. unfold sum_missing. induction rest as [ | a t IH ]; simpl; [ lia | ].
      pose proof (Hall a (or_introl eq_refl)).
      assert (0 <= fold_right Z.add 0 (map (fun r => snd (fst r)) t))%Z
        by (apply IH; intros r Hr; apply Hall; now right).
      lia. }
    unfold sum_missing in H, Hrest. simpl in H. lia.
Qed.

End Checks.

Section Outliers.
Local Open Scope float_scope.
Import checks.

(** A float that is a zero, or NaN. *)
Definition zero_or_nan (z : float) : Prop := SFzero_or_nan (Prim2SF z).

(** A float that equals [x], or NaN. *)
Definition same_or_nan (x r : float) : Prop :=
  PrimFloat.is_nan r = true \/ (r =? x) = true.

Lemma sub_of_equal a b : (a =? b) = true -> zero_or_nan (a - b).
Proof.
  intros H. unfold zero_or_nan. rewrite sub_spec. apply SFsub_of_equal.
  now rewrite <- FloatAxioms.eqb_spec.
Qed.

Lemma zero_or_nan_nan z : PrimFloat.is_nan z = true -> zero_or_nan z.
Proof. intros H. unfold zero_or_nan. now rewrite (is_nan_Prim2SF z H). Qed.

Lemma mul_zero_or_nan_l z f : zero_or_nan z -> zero_or_nan (z * f).
Proof.
  unfold zero_or_nan. rewrite mul_spec.
  destruct (Prim2SF z); try contradiction; intros _; destruct (Prim2SF f); exact I.
Qed.

Lemma mul_zero_or_nan_r z f : zero_or_nan z -> zero_or_nan (f * z).
Proof.
  unfold zero_or_nan. rewrite mul_spec.
  destruct (Prim2SF z); try contradiction; intros _; destruct (Prim2SF f); exact I.
Qed.

Lemma SFeqb_zero_l s a : SFeqb (S754_zero s) a = true -> exists s', a = S754_zero s'.
Proof. destruct a as [ s' | [|] | | [|] m e ]; try discriminate; eauto. Qed.

Lemma add_zero_or_nan x a z : same_or_nan x a -> zero_or_nan z -> same_or_nan x (a + z).
Proof.
  unfold same_or_nan, zero_or_nan. intros [ Ha | Ha ] Hz.
  - left. rewrite (is_nan_eq a Ha). now rewrite add_nan_l.
  - destruct (Prim2SF z) as [ sz | | | ] eqn:Ez; try contradiction.
    + assert (Hr : ((a + z) =? a) = true).
      { pose proof (feqb_defined_l _ _ Ha) as Da. apply defined_spec in Da.
        rewrite FloatAxioms.eqb_spec, add_spec, Ez.
        destruct (Prim2SF a) as [ sa | sa | | sa ma ea ]; try discriminate Da.
        - unfold SF64add, SFadd. destruct sa, sz; reflexivity.
        - exact Da.
        - exact Da. }
      right. eapply feqb_trans; eauto.
    + left. assert (Hz' : z = nan) by (apply Prim2SF_inj; now rewrite Ez).
      rewrite Hz'. now rewrite add_nan_r.
Qed.

Lemma sub_zero_or_nan x a z : same_or_nan x a -> zero_or_nan z -> same_or_nan x (a - z).
Proof.
  unfold same_or_nan, zero_or_nan. intros [ Ha | Ha ] Hz.
  - left. rewrite (is_nan_eq a Ha). now rewrite sub_nan_l.
  - destruct (Prim2SF z) as [ sz | | | ] eqn:Ez; try contradiction.
    + assert (Hr : ((a - z) =? a) = true).
      { pose proof (feqb_defined_l _ _ Ha) as Da. apply defined_spec in Da.
        rewrite FloatAxioms.eqb_spec, sub_spec, Ez.
        destruct (Prim2SF a) as [ sa | sa | | sa ma ea ]; try discriminate Da.
        - unfold SF64sub, SFsub. destruct sa, sz; reflexivity.
        - exact Da.
        - exact Da. }
      right. eapply feqb_trans; eauto.
    + left. assert (Hz' : z = nan) by (apply Prim2SF_inj; now rewrite Ez).
      rewrite Hz'. now rewrite sub_nan_r.
Qed.

Lemma sub_same_or_nan x a b : same_or_nan x a -> same_or_nan x b -> zero_or_nan (a - b).
Proof.
  intros [ Ha | Ha ] [ Hb | Hb ].
  - apply zero_or_nan_nan. rewrite (is_nan_eq a Ha). now rewrite sub_nan_l.
  - apply zero_or_nan_nan. rewrite (is_nan_eq a Ha). now rewrite sub_nan_l.
  - apply zero_or_nan_nan. rewrite (is_nan_eq b Hb). now rewrite sub_nan_r.
  - apply sub_of_equal. apply (feqb_trans _ x); [ exact Ha | now rewrite feqb_sym ].
Qed.

Lemma same_or_nan_not_below x b : same_or_nan x b -> (x <? b) = false /\ (b <? x) = false.
Proof.
  intros [ H | H ].
  - split; [ now apply not_defined_ltb_r | now apply not_defined_ltb_l ].
  - split; apply fleb_nltb; apply feqb_leb; [ exact H | now rewrite feqb_sym ].
Qed.

Lemma nth_same_or_nan x v i :
  (forall y, In y v -> (y =? x) = true) -> same_or_nan x (nth i v nan).
Proof.
  intros H. destruct (nth_in_or_default i v nan) as [ Hin | -> ].
  - right. now apply H.
  - left. reflexivity.
Qed.

(** A quantile of a series whose present values are all equal to [x]. *)
Lemma quantile_of_equal_values q_num q_den series x :
  (forall y, In y series -> defined y -> (y =? x) = true) ->
  same_or_nan x (pdx.quantile q_num q_den series).
Proof.
  intros H. unfold pdx.quantile.
  destruct (sorted_dropna_facts series) as (_ & _ & Hin).
  assert (Hv : forall y, In y (pdx.sort_asc (pd.dropna series)) -> (y =? x) = true).
  { intros y Hy. apply Hin in Hy. destruct Hy. auto. }
  destruct (pdx.sort_asc (pd.dropna series)) as [ | a v ] eqn:E; [ now left | ].
  apply add_zero_or_nan; [ now apply nth_same_or_nan | ].
  apply mul_zero_or_nan_l, (sub_same_or_nan x); now apply nth_same_or_nan.
Qed.

Lemma abs_nan : PrimFloat.abs nan = nan.
Proof. reflexivity. Qed.

(** [detect_outliers] raises for a method other than ['iqr'] and ['zscore'];
    otherwise it returns one flag for each value, and never flags a missing
    value.  With ['iqr'] it flags nothing in a series whose present values
    are all equal, whatever the threshold; with ['zscore'] it flags nothing
    in a series with fewer than two present values. *)
Theorem detect_outliers_flags :
  forall series threshold,
    (forall method, method <> "iqr"%string -> method <> "zscore"%string ->
       detect_outliers series method threshold = inl (unknown_method method)) /\
    (forall method flags,
       detect_outliers series method threshold = inr flags ->
       (method = "iqr"%string \/ method = "zscore"%string) /\
       List.length flags = List.length series /\
       forall i x, nth_error series i = Some x -> PrimFloat.is_nan x = true ->
                   nth_error flags i = Some false) /\
    ((forall x y, In x series -> In y series -> defined x -> defined y -> (x =? y) = true) ->
     detect_outliers series "iqr" threshold = inr (map (fun _ => false) series)) /\
    ((List.length (pd.dropna series) <= 1)%nat ->
     detect_outliers series "zscore" threshold = inr (map (fun _ => false) series)).
Proof.
  intros series threshold. split; [ | split; [ | split ] ].
  - intros method H1 H2. unfold detect_outliers.
    apply String.eqb_neq in H1. apply String.eqb_neq in H2. now rewrite H1, H2.
  - intros method flags. unfold detect_outliers.
    destruct (String.eqb_spec method "iqr") as [ -> | _ ].
    + intros H. injection H as <-. split; [ now left | ]. split; [ apply length_map | ].
      intros i x Hx Ex. rewrite nth_error_map, Hx. simpl.
      now rewrite (not_defined_ltb_l x _ Ex), (not_defined_ltb_r _ x Ex).
    + destruct (String.eqb_spec method "zscore") as [ -> | _ ]; [ | discriminate ].
      intros H. injection H as <-. split; [ now right | ]. split; [ apply length_map | ].
      intros i x Hx Ex. rewrite nth_error_map, Hx. simpl.
      rewrite (is_nan_eq x Ex), sub_nan_l, div_nan_l, abs_nan.
      now rewrite not_defined_ltb_r.
  - intros Heq. unfold detect_outliers. simpl. f_equal. apply map_ext_in. intros x Hx.
    destruct (PrimFloat.is_nan x) eqn:Ex.
    { now rewrite (not_defined_ltb_l x _ Ex), (not_defined_ltb_r _ x Ex). }
    assert (Hall : forall y, In y series -> defined y -> (y =? x) = true).
    { intros y Hy Dy. now apply Heq. }
    pose proof (quantile_of_equal_values 1 4 series x Hall) as H1.
    pose proof (quantile_of_equal_values 3 4 series x Hall) as H3.
    assert (Hz : zero_or_nan (threshold * (pdx.quantile 3 4 series - pdx.quantile 1 4 series))).
    { apply mul_zero_or_nan_r. now apply (sub_same_or_nan x). }
    destruct (same_or_nan_not_below x _ (sub_zero_or_nan x _ _ H1 Hz)) as [-> _].
    destruct (same_or_nan_not_below x _ (add_zero_or_nan x _ _ H3 Hz)) as [_ ->].
    reflexivity.
  - intros Hfew. unfold detect_outliers. simpl. f_equal. apply map_ext. intros x.
    unfold signal.row_std. rewrite row_var_few_present by exact Hfew.
    change (PrimFloat.sqrt nan) with nan.
    assert (E : (x - signal.row_mean series) / nan = nan).
    { apply Prim2SF_inj. rewrite div_spec. change (Prim2SF nan) with S754_nan.
      now destruct (Prim2SF (x - signal.row_mean series)). }
    rewrite E, abs_nan. now apply not_defined_ltb_r.
Qed.

End Outliers.

(** * streamlit_app.py: the bands of the dashboard and those of the index *)

Section Dashboard.
Local Open Scope float_scope.
Import dashboard.

Lemma at_least_not_below lo hi x :
  (lo <=? hi) = true -> (hi <=? x) = true -> (x <? lo) = false.
Proof. intros H1 H2. apply fleb_nltb. eapply fleb_trans; eauto. Qed.

(** The dashboard puts a score in the band "High" from 70 and in the band
    "Medium" from 40, and colours it by the same two bounds; the index has
    its bands at 20, 40, 60 and 80.  So a score from 60 to below 70 is "High
    Friction" in the index and "Medium Friction" on the dashboard, a score
    that the dashboard calls high is "High" or "Very High" in the index, and
    a score that is NaN is "Very High Friction" in the index and "Low
    Friction", in green, on the dashboard. *)
Theorem dashboard_bands :
  forall afi,
    (classify_friction afi = "🔴 High Friction"%string <-> (70 <=? afi) = true) /\
    (classify_friction afi = "🟡 Medium Friction"%string <->
     (70 <=? afi) = false /\ (40 <=? afi) = true) /\
    (classify_friction afi = "🟢 Low Friction"%string <->
     (70 <=? afi) = false /\ (40 <=? afi) = false) /\
    (get_afi_color afi = "#ef4444"%string <->
     classify_friction afi = "🔴 High Friction"%string) /\
    (get_afi_color afi = "#f59e0b"%string <->
     classify_friction afi = "🟡 Medium Friction"%string) /\
    (get_afi_color afi = "#10b981"%string <->
     classify_friction afi = "🟢 Low Friction"%string) /\
    (PrimFloat.is_nan afi = true ->
     classify_friction afi = "🟢 Low Friction"%string /\
     index.categorize_afi afi = "Very High Friction"%string) /\
    (classify_friction afi = "🔴 High Friction"%string ->
     index.categorize_afi afi = "High Friction"%string \/
     index.categorize_afi afi = "Very High Friction"%string) /\
    ((60 <=? afi) = true -> (afi <? 70) = true ->
     index.categorize_afi afi = "High Friction"%string /\
     classify_friction afi = "🟡 Medium Friction"%string).
Proof.
  intros afi. unfold classify_friction, get_afi_color.
  split; [ destruct (70 <=? afi); [ | destruct (40 <=? afi) ];
           split; intros H; try reflexivity; discriminate | ].
  split; [ destruct (70 <=? afi); [ | destruct (40 <=? afi) ];
           split; intros H; try (destruct H; discriminate); try discriminate; auto | ].
  split; [ destruct (70 <=? afi); [ | destruct (40 <=? afi) ];
           split; intros H; try (destruct H; discriminate); try discriminate; auto | ].
  split; [ destruct (70 <=? afi); [ | destruct (40 <=? afi) ];
           split; intros H; try reflexivity; discriminate | ].
  split; [ destruct (70 <=? afi); [ | destruct (40 <=? afi) ];
           split; intros H; try reflexivity; discriminate | ].
  split; [ destruct (70 <=? afi); [ | destruct (40 <=? afi) ];
           split; intros H; try reflexivity; discriminate | ].
  split; [ | split ].
  - intros Hn. unfold index.categorize_afi.
    assert (H70 : (70 <=? afi) = false).
    { destruct (70 <=? afi) eqn:E; [ | reflexivity ].
      apply fleb_defined_r in E. unfold defined in E. congruence. }
    assert (H40 : (40 <=? afi) = false).
    { destruct (40 <=? afi) eqn:E; [ | reflexivity ].
      apply fleb_defined_r in E. unfold defined in E. congruence. }
    rewrite H70, H40, !(not_defined_ltb_l afi _ Hn). split; reflexivity.
  - destruct (70 <=? afi) eqn:E;
      [ intros _ | destruct (40 <=? afi); intros H; discriminate H ].
    unfold index.categorize_afi.
    rewrite (at_least_not_below 20 70 afi eq_refl E),
            (at_least_not_below 40 70 afi eq_refl E),
            (at_least_not_below 60 70 afi eq_refl E).
    destruct (afi <? 80); [ now left | now right ].
  - intros H60 H70. unfold index.categorize_afi.
    rewrite (at_least_not_below 20 60 afi eq_refl H60),
            (at_least_not_below 40 60 afi eq_refl H60),
            (at_least_not_below 60 60 afi eq_refl H60).
    rewrite (fltb_trans afi 70 80 H70 eq_refl).
    destruct (70 <=? afi) eqn:E; [ apply fleb_nltb in E; congruence | ].
    rewrite (fleb_trans 40 60 afi eq_refl H60). split; reflexivity.
Qed.

End Dashboard.
